(** * Sudoku generator of [script.js] (class [SudokuCSP])

    A shallow embedding of the puzzle generator: the constraint check
    [isValid], the diagonal seeding [fillDiagonal]/[fillBox]/[isSafeInBox],
    the backtracking solver [solveBoard], the cell removal [removeDigits]
    and the entry point [generateNewGame].

    The JavaScript code works on a 9x9 array of arrays that it mutates in
    place.  The functions below are written once, over an abstract board
    with a cell read [rd] ([board[i][j]]) and a cell write [wr]
    ([board[i][j] = v]); they are then run on two boards: a plain matrix
    (list of rows) and a JavaScript heap in which every array is an object
    with an identity, so that aliasing between the returned grids and the
    generator's fields can be stated.

    [Math.random] is modelled by an explicit sequence of draws: a draw is a
    natural number [r], and [Math.floor(Math.random() * n)] is [r mod n].
    A function that runs out of draws returns [None]: it is still
    running.

    The second part of the script, the controller [app] of the page, is
    embedded after the generator: its handlers work on the same heap and
    return the updates they make to the page.

    A last part of definitions, on colourings of the nine digits, serves
    the proof that the search succeeds on every seed, hence that the
    generator returns. *)

From stdpp Require Import base option list gmap strings pretty.
From Stdlib Require Import Lia PeanoNat ZArith Ascii Uint63.

Open Scope nat_scope.

(** ** Boards *)

(** [rd b i j] is the expression [board[i][j]], [wr b i j v] the statement
    [board[i][j] = v]. *)
Class Board (B : Type) := {
  rd : B → nat → nat → nat;
  wr : B → nat → nat → nat → B
}.

(** The 81 cell positions in row-major order: the order of the two nested
    [for] loops of [solveBoard]. *)
Definition cells : list (nat * nat) :=
  flat_map (λ i, map (pair i) (seq 0 9)) (seq 0 9).

Section Generator.
Context {B : Type} `{Board B}.

(** *** isValid (script.js, lines 14-35) *)
Definition isValid (board : B) (row col num : nat) : bool :=
  if existsb (λ x, rd board row x =? num) (seq 0 9) then false
  else if existsb (λ x, rd board x col =? num) (seq 0 9) then false
  else
    let startRow := row - row mod 3 in
    let startCol := col - col mod 3 in
    if existsb (λ i, existsb (λ j, rd board (i + startRow) (j + startCol) =? num)
                       (seq 0 3)) (seq 0 3)
    then false
    else true.

(** *** isSafeInBox (lines 58-65) *)
Definition isSafeInBox (board : B) (rowStart colStart num : nat) : bool :=
  if existsb (λ i, existsb (λ j, rd board (rowStart + i) (colStart + j) =? num)
                     (seq 0 3)) (seq 0 3)
  then false
  else true.

(** *** fillBox (lines 45-55) *)

(** The [do ... while (!this.isSafeInBox(row, col, num))] loop: draw a digit
    in 1..9 until one is safe.  Returns the digit and the remaining draws. *)
Fixpoint drawSafe (board : B) (row col : nat) (draws : list nat)
  : option (nat * list nat) :=
  match draws with
  | [] => None
  | r :: rest =>
      let num := r mod 9 + 1 in
      if isSafeInBox board row col num then Some (num, rest)
      else drawSafe board row col rest
  end.

(** The body of the two nested loops, for the offsets [ij] still to do. *)
Fixpoint fillCells (row col : nat) (ij : list (nat * nat)) (board : B)
  (draws : list nat) : option (B * list nat) :=
  match ij with
  | [] => Some (board, draws)
  | (i, j) :: more =>
      '(num, rest) ← drawSafe board row col draws;
      fillCells row col more (wr board (row + i) (col + j) num) rest
  end.

Definition boxOffsets : list (nat * nat) :=
  flat_map (λ i, map (pair i) (seq 0 3)) (seq 0 3).

Definition fillBox (row col : nat) (board : B) (draws : list nat)
  : option (B * list nat) :=
  fillCells row col boxOffsets board draws.

(** *** fillDiagonal (lines 38-42): [i = 0, 3, 6] *)
Definition fillDiagonal (board : B) (draws : list nat) : option (B * list nat) :=
  '(b1, d1) ← fillBox 0 0 board draws;
  '(b2, d2) ← fillBox 3 3 b1 d1;
  fillBox 6 6 b2 d2.

(** *** solveBoard (lines 68-84) *)

(** The loop [for (num = ...; num <= 9; num++)] at the empty cell [(i, j)];
    [nums] are the digits still to try and [rec] is the recursive call
    [this.solveBoard(board)].  When the loop ends the function returns
    [false]. *)
Fixpoint tryNums (rec : B → option (bool * B)) (i j : nat) (nums : list nat)
  (board : B) : option (bool * B) :=
  match nums with
  | [] => Some (false, board)
  | num :: more =>
      if isValid board i j num then
        '(solved, b1) ← rec (wr board i j num);
        if solved : bool then Some (true, b1)
        else tryNums rec i j more (wr b1 i j 0)
      else tryNums rec i j more board
  end.

(** The two nested [for] loops, over the positions [todo] still to scan. *)
Fixpoint scanCells (rec : B → option (bool * B)) (todo : list (nat * nat))
  (board : B) : option (bool * B) :=
  match todo with
  | [] => Some (true, board)
  | (i, j) :: more =>
      if rd board i j =? 0 then tryNums rec i j (seq 1 9) board
      else scanCells rec more board
  end.

(** [depth] bounds the number of nested activations of [solveBoard]: the
    call itself takes one, each recursive call one more.  [None] means that
    the bound was reached. *)
Fixpoint solveBoard (depth : nat) (board : B) : option (bool * B) :=
  match depth with
  | 0 => None
  | S d => scanCells (solveBoard d) cells board
  end.

(** *** removeDigits (lines 109-119) *)
Fixpoint removeDigits (draws : list nat) (count : nat) (board : B)
  : option (B * list nat) :=
  match count with
  | 0 => Some (board, draws)
  | S count' =>
      match draws with
      | [] => None
      | r :: rest =>
          let cellId := r mod 81 in
          let i := cellId / 9 in
          let j := cellId mod 9 in
          if rd board i j =? 0 then removeDigits rest count board
          else removeDigits rest count' (wr board i j 0)
      end
  end.

End Generator.

(** ** A board as a plain matrix *)

(** Row-major list of rows.  Reading outside the matrix gives 0 and writing
    outside it does nothing; the generator only uses indices below 9 on
    9x9 boards (in JavaScript such a read gives [undefined] or throws, and
    such a write extends the array). *)
Abbreviation grid := (list (list nat)).

#[export] Instance gridBoard : Board grid := {
  rd g i j := nth j (nth i g []) 0;
  wr g i j v := <[i := <[j := v]> (nth i g [])]> g
}.

Definition emptyGrid : grid := replicate 9 (replicate 9 0).

(** The contents of any board, as a matrix. *)
Definition toGrid {B} `{Board B} (b : B) : grid :=
  map (λ i, map (λ j, rd b i j) (seq 0 9)) (seq 0 9).

(** ** The JavaScript heap *)

(** Every array is an object with an identity.  A board is an outer array
    of nine references to row arrays of nine numbers. *)
Definition loc := nat.

Inductive val :=
| VNum (n : nat)
| VRef (l : loc).

Abbreviation heap := (gmap loc (list val)).

Definition alloc (h : heap) (arr : list val) : loc * heap :=
  let l := fresh (dom h) in (l, <[l := arr]> h).

(** [board[i][j]] for the array referenced by [b]. *)
Definition heapRd (b : loc) (h : heap) (i j : nat) : nat :=
  match h !! b with
  | Some outer =>
      match outer !! i with
      | Some (VRef r) =>
          match h !! r with
          | Some row => match row !! j with Some (VNum n) => n | _ => 0 end
          | None => 0
          end
      | _ => 0
      end
  | None => 0
  end.

(** [board[i][j] = v]: the row object is updated in place. *)
Definition heapWr (b : loc) (h : heap) (i j v : nat) : heap :=
  match h !! b with
  | Some outer =>
      match outer !! i with
      | Some (VRef r) =>
          match h !! r with
          | Some row => <[r := <[j := VNum v]> row]> h
          | None => h
          end
      | _ => h
      end
  | None => h
  end.

Definition heapBoard (b : loc) : Board heap :=
  {| rd := heapRd b; wr := heapWr b |}.

(** [Array.from({ length: 9 }, () => Array(9).fill(0))]: [n] fresh rows of
    zeros, then (in [newBoard]) the outer array holding them. *)
Fixpoint allocRows (n : nat) (h : heap) : list loc * heap :=
  match n with
  | 0 => ([], h)
  | S n' =>
      let '(r, h1) := alloc h (replicate 9 (VNum 0)) in
      let '(rs, h2) := allocRows n' h1 in
      (r :: rs, h2)
  end.

Definition newBoard (h : heap) : loc * heap :=
  let '(rows, h1) := allocRows 9 h in
  alloc h1 (VRef <$> rows).

(** [board.map(row => [...row])]: a fresh copy of every row, then a fresh
    outer array. *)
Fixpoint copyRows (outer : list val) (h : heap) : option (list loc * heap) :=
  match outer with
  | [] => Some ([], h)
  | VRef r :: more =>
      row ← h !! r;
      let '(r', h1) := alloc h row in
      '(rs, h2) ← copyRows more h1;
      Some (r' :: rs, h2)
  | VNum _ :: _ => None
  end.

Definition copyBoard (b : loc) (h : heap) : option (loc * heap) :=
  outer ← h !! b;
  '(rows, h1) ← copyRows outer h;
  Some (alloc h1 (VRef <$> rows)).

(** ** generateNewGame (lines 86-107) *)

(** The fields of a [SudokuCSP] object; [this.solution] is [null] until the
    first game. *)
Record SudokuCSP := {
  this_size : nat;
  this_board : loc;
  this_solution : option loc
}.

(** [constructor()] (lines 7-11). *)
Definition constructor (h : heap) : SudokuCSP * heap :=
  let '(b, h1) := newBoard h in
  ({| this_size := 9; this_board := b; this_solution := None |}, h1).

(** The values a caller can pass for [difficulty]. *)
Inductive jsval :=
| JUndefined
| JNull
| JBool (b : bool)
| JNum (n : Z)
| JStr (s : string).

(** [v === 'text'] *)
Definition strictEqStr (v : jsval) (text : string) : bool :=
  match v with
  | JStr s => String.eqb s text
  | _ => false
  end.

(** The default parameter [difficulty = 'Medium'] applies to a missing or
    [undefined] argument. *)
Definition defaultMedium (v : jsval) : jsval :=
  match v with
  | JUndefined => JStr "Medium"
  | _ => v
  end.

(** Lines 98-100. *)
Definition attemptsFor (difficulty : jsval) : nat :=
  let attempts := 40 in
  let attempts := if strictEqStr difficulty "Easy" then 30 else attempts in
  let attempts := if strictEqStr difficulty "Hard" then 50 else attempts in
  attempts.

(** The object literal returned to the caller: two references. *)
Record game := {
  initial : loc;
  solution : loc
}.

(** Activations of [solveBoard] available to [generateNewGame]; see
    [solveBoard_depth] below for why 82 are always enough. *)
Definition callDepth : nat := 82.

Definition generateNewGame (difficulty : jsval) (draws : list nat)
  (this : SudokuCSP) (h : heap)
  : option (game * SudokuCSP * heap * list nat) :=
  let difficulty := defaultMedium difficulty in
  let '(b, h1) := newBoard h in
  let this := {| this_size := this_size this; this_board := b;
                 this_solution := this_solution this |} in
  '(h2, draws) ← fillDiagonal (H := heapBoard (this_board this)) h1 draws;
  '(_, h3) ← solveBoard (H := heapBoard (this_board this)) callDepth h2;
  '(s, h4) ← copyBoard (this_board this) h3;
  let this := {| this_size := this_size this; this_board := this_board this;
                 this_solution := Some s |} in
  let attempts := attemptsFor difficulty in
  '(h5, draws) ← removeDigits (H := heapBoard (this_board this)) draws attempts h4;
  this_solution' ← this_solution this;
  Some ({| initial := this_board this; solution := this_solution' |},
        this, h5, draws).

(** The grid referenced by [b] in heap [h], as a matrix. *)
Definition readGrid (h : heap) (b : loc) : grid := toGrid (H := heapBoard b) h.

(** ** Sudoku vocabulary *)

(** The contents of a board, as a function of the position. *)
Definition view := nat → nat → nat.

Definition rowCells (i : nat) : list (nat * nat) := map (pair i) (seq 0 9).
Definition colCells (j : nat) : list (nat * nat) := map (λ i, (i, j)) (seq 0 9).
Definition boxCells (bi bj : nat) : list (nat * nat) :=
  flat_map (λ i, map (λ j, (3 * bi + i, 3 * bj + j)) (seq 0 3)) (seq 0 3).

(** The 27 units: nine rows, nine columns, nine boxes. *)
Definition units : list (list (nat * nat)) :=
  map rowCells (seq 0 9) ++ map colCells (seq 0 9)
  ++ flat_map (λ bi, map (boxCells bi) (seq 0 3)) (seq 0 3).

Definition valuesAt (f : view) (u : list (nat * nat)) : list nat :=
  map (λ p, f p.1 p.2) u.

Definition occurrences (d : nat) (l : list nat) : nat :=
  length (filter (λ x, x = d) l).

(** No digit 1-9 occurs twice in a row, a column or a box; empty cells are
    not counted. *)
Definition consistent (f : view) : Prop :=
  ∀ u d, u ∈ units → 1 ≤ d ≤ 9 → occurrences d (valuesAt f u) ≤ 1.

(** No cell is empty. *)
Definition full (f : view) : Prop := ∀ i j, i < 9 → j < 9 → f i j ≠ 0.

(** A solution: no empty cell, and every row, column and box contains each
    digit 1-9 exactly once. *)
Definition isSolution (f : view) : Prop :=
  full f ∧ ∀ u d, u ∈ units → 1 ≤ d ≤ 9 → occurrences d (valuesAt f u) = 1.

(** Every cell holds 0 or a digit. *)
Definition digits (f : view) : Prop := ∀ i j, i < 9 → j < 9 → f i j ≤ 9.

(** Number of empty cells. *)
Definition zeros (f : view) : nat :=
  length (filter (λ p, f p.1 p.2 = 0) cells).


(** Two positions that share a row, a column or a box. *)
Definition peers (i j i' j' : nat) : Prop :=
  i = i' ∨ j = j' ∨ (i / 3 = i' / 3 ∧ j / 3 = j' / 3).

(** [g] keeps every filled cell of [f]. *)
Definition extends (f g : view) : Prop :=
  ∀ i j, i < 9 → j < 9 → f i j ≠ 0 → g i j = f i j.

(** The position lies in one of the boxes with origin (0,0), (3,3), (6,6). *)
Definition onDiagonal (i j : nat) : Prop := i / 3 = j / 3.

(** A seed: what [fillDiagonal] leaves on an empty board. *)
Definition diagonalOnly (f : view) : Prop :=
  ∀ i j, i < 9 → j < 9 → f i j ≠ 0 → onDiagonal i j.

(** ** Laws of a board *)

(** [ok b]: [b] is a 9x9 array of arrays.  On such a board a write changes
    the cell written and no other. *)
Class BoardLaws (B : Type) `{Board B} := {
  ok : B → Prop;
  wr_ok : ∀ b i j v, ok b → ok (wr b i j v);
  rd_wr_same : ∀ b i j v, ok b → i < 9 → j < 9 → rd (wr b i j v) i j = v;
  rd_wr_other : ∀ b i j v i' j', ok b → i < 9 → j < 9 → i' < 9 → j' < 9 →
    (i, j) ≠ (i', j') → rd (wr b i j v) i' j' = rd b i' j'
}.

(** Boards on which a write is nothing but its effect on the cell: writing
    the value already there, or writing twice, leaves no other trace.  The
    plain matrix and the heap are such boards; a board that logs its writes
    is not. *)
Class BoardExact (B : Type) `{BoardLaws B} := {
  wr_same : ∀ b i j v, ok b → i < 9 → j < 9 → rd b i j = v → wr b i j v = b;
  wr_wr : ∀ b i j v w, ok b → i < 9 → j < 9 → wr (wr b i j v) i j w = wr b i j w
}.

(** ** A board that records its history *)

(** Every write pushes the new state of the underlying board on a log; the
    log of a run is the list of the states the working grid went through,
    most recent first. *)
Definition logged (B : Type) : Type := B * list B.

#[export] Instance loggedBoard {B} `{Board B} : Board (logged B) := {
  rd b i j := rd b.1 i j;
  wr b i j v := let b' := wr b.1 i j v in (b', b' :: b.2)
}.

(** ** A board that records its writes *)

(** One write [board[i][j] = v]: the position, the value that the cell held
    at that moment, and the value written. *)
Record write := {
  w_row : nat;
  w_col : nat;
  w_old : nat;
  w_new : nat
}.

#[export] Instance write_eq_dec : EqDecision write.
Proof. solve_decision. Defined.

(** A board together with the writes made to it, most recent first. *)
Record traced (B : Type) := Traced {
  t_board : B;
  t_log : list write
}.
Arguments Traced {B}.
Arguments t_board {B}.
Arguments t_log {B}.

#[export] Instance tracedBoard {B} `{Board B} : Board (traced B) := {
  rd tb i j := rd (t_board tb) i j;
  wr tb i j v :=
    Traced (wr (t_board tb) i j v)
           ({| w_row := i; w_col := j; w_old := rd (t_board tb) i j; w_new := v |}
              :: t_log tb)
}.

(** ** Random sources *)

(** An endless source of draws, and its first [n] draws. *)
Definition source := nat → nat.

Definition prefix (rnd : source) (n : nat) : list nat := map rnd (seq 0 n).

(** Every cell index (hence every digit) keeps coming: whatever the point
    reached, the value [m] is drawn again later. *)
Definition fair (rnd : source) : Prop :=
  ∀ k m, m < 81 → ∃ k', k ≤ k' ∧ rnd k' mod 81 = m.

(** ** Words of the specification and sample data *)

(** Placing [num] at [(row, col)] creates no duplicate in the row, the
    column or the box when the value already stored at [(row, col)] is left
    out of the comparison. *)
Definition introducesNoDuplicate (f : view) (row col num : nat) : Prop :=
  ∀ i j, i < 9 → j < 9 → (i, j) ≠ (row, col) → peers row col i j → f i j ≠ num.

(** A grid whose only filled cell is a 5 at (0,0). *)
Definition fiveAtOrigin : grid := wr emptyGrid 0 0 5.

(** A source of draws: the digits 1..9 in order for each diagonal box, then
    the cell indices 0, 1, 2, ... *)
Definition sampleDraws : list nat := seq 0 9 ++ seq 0 9 ++ seq 0 9 ++ seq 0 81.

(** A generator just constructed in an empty heap. *)
Definition freshGenerator : SudokuCSP := (constructor ∅).1.
Definition freshHeap : heap := (constructor ∅).2.

(** A grid that cannot be completed, on which the search backtracks before
    it fails: the three empty cells of the first row can only take 1 and
    2. *)
Definition deadEndGrid : grid :=
  [ [0; 0; 0; 4; 5; 6; 7; 8; 9];
    [0; 0; 3; 0; 0; 0; 0; 0; 0] ] ++ replicate 7 (replicate 9 0).

(** ** More words and sample data *)

(** The draws number [k], [k+1], ..., [k+n-1] of a source; [prefix rnd n]
    is [drawsFrom rnd 0 n]. *)
Definition drawsFrom (rnd : source) (k n : nat) : list nat := map rnd (seq k n).

(** The source that draws 0, 1, 2, ... *)
Definition countingSource : source := λ k, k.

(** A full grid of digits without a clash that keeps the filled cells of
    [f]. *)
Definition completion (f t : view) : Prop :=
  full t ∧ digits t ∧ consistent t ∧ extends f t.

(** A grid with a 1 in every cell. *)
Definition allOnes : grid := replicate 9 (replicate 9 1).

(** The board that [fillDiagonal] makes of the empty grid with the draws
    [sampleDraws]. *)
Definition seededGrid : grid := Eval vm_compute in
  match fillDiagonal emptyGrid sampleDraws with
  | Some (g, _) => g
  | None => emptyGrid
  end.

(** * The controller [app] (script.js, lines 125-376)

    The handlers of the page work on the fields of [app], on three boards
    in the heap and on the page.  The page is not modelled: a handler
    returns the list of the updates it makes to it, in order.  Not
    modelled: [init], [cacheDOM], [bindEvents] and [handleNumpad], which
    only look up elements, register listeners and decode events. *)

(** ** The page *)

(** The elements that the controller updates.  [BoardChild index] is
    [this.boardEl.children[index]]: after [renderBoard], the [div] made
    for the cell [(index / 9, index mod 9)].  [CellAt index] is
    [document.querySelectorAll('.cell')[index]]. *)
Inductive element :=
| BoardChild (index : nat)
| CellAt (index : nat)
| TimerEl
| ModalEl
| ModalTitle
| ModalMessage.

(** An update of the page or of the timers:
    - [SetText e text]: [e.textContent = text];
    - [AddClass e name]: [e.classList.add(name)];
    - [RemoveClass e names]: [e.classList.remove(...names)];
    - [RemoveClassAll selector name]:
      [document.querySelectorAll(selector).forEach(el => el.classList.remove(name))];
    - [AddClassWhere selector test name]: the [forEach] of
      [highlightRelated], which adds [name] to the elements matching
      [selector] whose [data-row] and [data-col] pass [test];
    - [ClearChildren]: [this.boardEl.innerHTML = ''];
    - [AppendCell row col text classes]: a new [div] with these classes,
      this text if any, [data-row] and [data-col], and a click listener
      that calls [selectCell(cell, row, col)], appended to [boardEl];
    - [After ms u]: [setTimeout(() => u, ms)];
    - [Every ms id]: [setInterval(tick, ms)], which returned [id];
    - [ClearInterval id]: [clearInterval(id)]. *)
Inductive update :=
| SetText (e : element) (text : string)
| AddClass (e : element) (name : string)
| RemoveClass (e : element) (names : list string)
| RemoveClassAll (selector name : string)
| AddClassWhere (selector : string) (test : nat → nat → bool) (name : string)
| ClearChildren
| AppendCell (row col : nat) (text : option string) (classes : list string)
| After (ms : nat) (u : update)
| Every (ms : nat) (id : nat)
| ClearInterval (id : option nat).

(** [this.selectedCell]: [{ row, col, element }], or [null]. *)
Record selection := {
  sel_row : nat;
  sel_col : nat;
  sel_element : element
}.

(** The fields of [app]; the three boards are references to arrays. *)
Record App := {
  csp : SudokuCSP;
  initialBoard : loc;
  currentBoard : loc;
  solutionBoard : loc;
  selectedCell : option selection;
  timerInterval : option nat;
  timeElapsed : nat;
  isGameActive : bool
}.

(** Assignments to the fields [selectedCell], [isGameActive], and
    [timerInterval] with [timeElapsed]. *)
Definition withSelected (app : App) (s : option selection) : App :=
  {| csp := csp app; initialBoard := initialBoard app;
     currentBoard := currentBoard app; solutionBoard := solutionBoard app;
     selectedCell := s; timerInterval := timerInterval app;
     timeElapsed := timeElapsed app; isGameActive := isGameActive app |}.

Definition withActive (app : App) (a : bool) : App :=
  {| csp := csp app; initialBoard := initialBoard app;
     currentBoard := currentBoard app; solutionBoard := solutionBoard app;
     selectedCell := selectedCell app; timerInterval := timerInterval app;
     timeElapsed := timeElapsed app; isGameActive := a |}.

Definition withTimer (app : App) (id : option nat) (elapsed : nat) : App :=
  {| csp := csp app; initialBoard := initialBoard app;
     currentBoard := currentBoard app; solutionBoard := solutionBoard app;
     selectedCell := selectedCell app; timerInterval := id;
     timeElapsed := elapsed; isGameActive := isGameActive app |}.

(** The object literal [app] (lines 125-133): a new generator and three
    empty arrays. *)
Definition newApp (h : heap) : App * heap :=
  let '(csp, h) := constructor h in
  let '(initialBoard, h) := alloc h [] in
  let '(currentBoard, h) := alloc h [] in
  let '(solutionBoard, h) := alloc h [] in
  ({| csp := csp; initialBoard := initialBoard; currentBoard := currentBoard;
      solutionBoard := solutionBoard; selectedCell := None; timerInterval := None;
      timeElapsed := 0; isGameActive := false |}, h).

(** ** formatTime (lines 361-365) *)

(** [s.padStart(target, pad)] for a pad string of one character: [n]
    copies of it in front of [s], where [n] is what [s] lacks. *)
Fixpoint padded (n : nat) (pad : ascii) (s : string) : string :=
  match n with
  | 0 => s
  | S n' => String pad (padded n' pad s)
  end.

Definition padStart (target : nat) (pad : ascii) (s : string) : string :=
  padded (target - String.length s) pad s.

(** [seconds] is the counter [timeElapsed], a natural number;
    [Math.floor(seconds / 60)] is its quotient by 60, and [toString()]
    gives the decimal numeral, [pretty]. *)
Definition formatTime (seconds : nat) : string :=
  let m := padStart 2 "0" (pretty (seconds / 60)) in
  let s := padStart 2 "0" (pretty (seconds mod 60)) in
  m +:+ ":" +:+ s.

(** ** Timer (lines 348-359) *)

(** The callback of [setInterval]. *)
Definition tick (app : App) : App * list update :=
  let app := withTimer app (timerInterval app) (timeElapsed app + 1) in
  (app, [SetText TimerEl (formatTime (timeElapsed app))]).

(** [id] is the identifier that [setInterval] returns. *)
Definition startTimer (id : nat) (app : App) : App * list update :=
  (withTimer app (Some id) 0, [Every 1000 id]).

Definition resetTimer (app : App) : list update :=
  [ClearInterval (timerInterval app); SetText TimerEl "00:00"].

(** ** Modal and win (lines 342-346, 367-375) *)

Definition showModal (title msg : string) : list update :=
  [SetText ModalTitle title; SetText ModalMessage msg;
   RemoveClass ModalEl ["hidden"]].

Definition closeModal : list update := [AddClass ModalEl "hidden"].

Definition gameWon (app : App) : App * list update :=
  let app := withActive app false in
  (app, ClearInterval (timerInterval app)
        :: showModal "Splendid!"
             ("You solved it in " +:+ formatTime (timeElapsed app))).

(** ** Selection (lines 212-262) *)

(** The test of [highlightRelated] on an element with [data-row] [r] and
    [data-col] [c]. *)
Definition relatedTo (row col r c : nat) : bool :=
  let sameRow := r =? row in
  let sameCol := c =? col in
  let startRow := row - row mod 3 in
  let startCol := col - col mod 3 in
  let inBox := ((startRow <=? r) && (r <? startRow + 3))
               && ((startCol <=? c) && (c <? startCol + 3)) in
  if sameRow || sameCol || inBox then negb ((r =? row) && (c =? col))
  else false.

Definition highlightRelated (row col : nat) : list update :=
  [AddClassWhere ".cell" (relatedTo row col) "highlight-related"].

Definition selectCell (cell : element) (row col : nat) (app : App)
  : App * list update :=
  if negb (isGameActive app) then (app, [])
  else
    (withSelected app
       (Some {| sel_row := row; sel_col := col; sel_element := cell |}),
     [RemoveClassAll ".cell.selected" "selected";
      RemoveClassAll ".cell.highlight-related" "highlight-related";
      AddClass cell "selected"]
     ++ highlightRelated row col).

(** [Math.max(0, row - 1)] and [Math.min(8, row + 1)] are computed on
    integers. *)
Definition moveSelection (key : string) (app : App) : App * list update :=
  match selectedCell app with
  | None => (app, [])
  | Some sel =>
      let row := Z.of_nat (sel_row sel) in
      let col := Z.of_nat (sel_col sel) in
      let row := if String.eqb key "ArrowUp" then Z.max 0 (row - 1) else row in
      let row := if String.eqb key "ArrowDown" then Z.min 8 (row + 1) else row in
      let col := if String.eqb key "ArrowLeft" then Z.max 0 (col - 1) else col in
      let col := if String.eqb key "ArrowRight" then Z.min 8 (col + 1) else col in
      let index := (row * 9 + col)%Z in
      let targetCell := BoardChild (Z.to_nat index) in
      selectCell targetCell (Z.to_nat row) (Z.to_nat col) app
  end.

(** ** fillCell (lines 277-304) *)

(** Cells are read and written as in the generator ([heapRd], [heapWr]):
    the boards are 9x9 and the coordinates of a selection are below 9. *)
Definition fillCell (num : nat) (app : App) (h : heap) : heap * list update :=
  match selectedCell app with
  | None => (h, [])
  | Some sel =>
      let row := sel_row sel in
      let col := sel_col sel in
      let element := sel_element sel in
      if negb (heapRd (initialBoard app) h row col =? 0) then (h, [])
      else
        let h := heapWr (currentBoard app) h row col num in
        if num =? 0 then
          (h, [SetText element EmptyString; RemoveClass element ["user-input"; "error"]])
        else
          (h, [SetText element (pretty num);
               AddClass element "user-input";
               RemoveClass element ["error"];
               AddClass element "success-pop";
               After 400 (RemoveClass element ["success-pop"])])
  end.

(** ** checkSolution (lines 306-340) *)

(** The body of the two loops at the cell [p], on the two flags and on the
    updates made so far. *)
Definition checkCell (app : App) (h : heap) (acc : bool * bool * list update)
  (p : nat * nat) : bool * bool * list update :=
  let '(isCorrect, isComplete, ups) := acc in
  let i := p.1 in
  let j := p.2 in
  let val := heapRd (currentBoard app) h i j in
  let solutionVal := heapRd (solutionBoard app) h i j in
  let cellIndex := i * 9 + j in
  let cellEl := CellAt cellIndex in
  if val =? 0 then (isCorrect, false, ups)
  else if negb (val =? solutionVal) then
    (false, isComplete,
     ups ++ (if heapRd (initialBoard app) h i j =? 0
             then [AddClass cellEl "error"] else []))
  else (isCorrect, isComplete, ups ++ [RemoveClass cellEl ["error"]]).

Definition checkSolution (app : App) (h : heap) : App * list update :=
  let '(isCorrect, isComplete, ups) :=
    fold_left (checkCell app h) cells (true, true, []) in
  if isComplete && isCorrect then
    let '(app, won) := gameWon app in (app, ups ++ won)
  else (app, ups).

(** ** renderBoard (lines 187-210) and startNewGame (lines 172-185) *)

Definition renderCell (app : App) (h : heap) (p : nat * nat) : update :=
  let i := p.1 in
  let j := p.2 in
  let val := heapRd (currentBoard app) h i j in
  if negb (val =? 0) then
    AppendCell i j (Some (pretty val))
      ("cell" :: (if negb (heapRd (initialBoard app) h i j =? 0)
                  then ["prefilled"] else ["user-input"]))
  else AppendCell i j None ["cell"].

Definition renderBoard (app : App) (h : heap) : list update :=
  ClearChildren :: map (renderCell app h) cells.

(** [this.csp.generateNewGame()] is called without an argument; [timerId]
    is what [setInterval] returns. *)
Definition startNewGame (draws : list nat) (timerId : nat) (app : App) (h : heap)
  : option (App * heap * list nat * list update) :=
  '(gameData, csp', h, draws) ← generateNewGame JUndefined draws (csp app) h;
  '(initialBoard', h) ← copyBoard (initial gameData) h;
  let solutionBoard' := solution gameData in
  '(currentBoard', h) ← copyBoard initialBoard' h;
  let app := {| csp := csp'; initialBoard := initialBoard';
                currentBoard := currentBoard'; solutionBoard := solutionBoard';
                selectedCell := selectedCell app;
                timerInterval := timerInterval app;
                timeElapsed := timeElapsed app;
                isGameActive := isGameActive app |} in
  let ups1 := renderBoard app h in
  let ups2 := resetTimer app in
  let '(app, ups3) := startTimer timerId app in
  let app := withActive app true in
  let app := withSelected app None in
  Some (app, h, draws, ups1 ++ ups2 ++ ups3).

(** ** The calls of the listeners *)

(** What the listeners registered by [renderBoard] and [bindEvents] call
    on an event: a click on the cell that [renderBoard] made for
    [(row, col)], an arrow key, a digit or a clear (from the keyboard or
    the number pad, which both do nothing unless the game is active), the
    check button, a tick of the timer, the close button of the modal. *)
Inductive call :=
| CallSelect (row col : nat)
| CallMove (key : string)
| CallFill (num : nat)
| CallCheck
| CallTick
| CallClose.

Definition perform (s : App * heap) (c : call) : App * heap :=
  let '(app, h) := s in
  match c with
  | CallSelect row col =>
      ((selectCell (BoardChild (row * 9 + col)) row col app).1, h)
  | CallMove key =>
      if negb (isGameActive app) then (app, h)
      else ((moveSelection key app).1, h)
  | CallFill num =>
      if negb (isGameActive app) then (app, h)
      else (app, (fillCell num app h).1)
  | CallCheck => ((checkSolution app h).1, h)
  | CallTick => ((tick app).1, h)
  | CallClose => (app, h)
  end.

(** [renderBoard] makes cells for the rows and columns 0 to 8 only. *)
Definition onBoard (c : call) : Prop :=
  match c with
  | CallSelect row col => row < 9 ∧ col < 9
  | _ => True
  end.

(** The selection, if any, is a cell of the board. *)
Definition selectionOnBoard (app : App) : Prop :=
  ∀ sel, selectedCell app = Some sel → sel_row sel < 9 ∧ sel_col sel < 9.

(** ** Sample data for the controller *)

(** The character of a decimal digit, the text "ab:cd" of two two-digit
    fields, and the number of seconds that such a text stands for. *)
Definition digitChar (d : nat) : ascii := ascii_of_nat (48 + d).

Definition clockText (minutes seconds : nat) : string :=
  String (digitChar (minutes / 10)) (String (digitChar (minutes mod 10))
    (String ":" (String (digitChar (seconds / 10))
       (String (digitChar (seconds mod 10)) EmptyString)))).

Definition clockValue (s : string) : nat :=
  match s with
  | String a (String b (String _ (String c (String d _)))) =>
      60 * (10 * (nat_of_ascii a - 48) + (nat_of_ascii b - 48))
      + 10 * (nat_of_ascii c - 48) + (nat_of_ascii d - 48)
  | _ => 0
  end.

(** A first game, started in an empty heap with the draws [sampleDraws]. *)
Definition sampleGame : App * heap := Eval vm_compute in
  match startNewGame sampleDraws 1 (newApp ∅).1 (newApp ∅).2 with
  | Some (app, h, _, _) => (app, h)
  | None => newApp ∅
  end.

(** The sample game with the cell (0,0), which is empty, selected; with
    the cell (8,8), a given, selected; and with every cell filled as in
    the solution. *)
Definition sampleAtEmpty : App :=
  withSelected sampleGame.1
    (Some {| sel_row := 0; sel_col := 0; sel_element := BoardChild 0 |}).

Definition sampleAtGiven : App :=
  withSelected sampleGame.1
    (Some {| sel_row := 8; sel_col := 8; sel_element := BoardChild 80 |}).

Definition sampleSolved : App :=
  {| csp := csp sampleGame.1; initialBoard := initialBoard sampleGame.1;
     currentBoard := solutionBoard sampleGame.1;
     solutionBoard := solutionBoard sampleGame.1;
     selectedCell := None; timerInterval := timerInterval sampleGame.1;
     timeElapsed := 75; isGameActive := true |}.

(** A short play: a digit typed on a given, a move up and a digit typed on
    the given above, then a digit in the empty cell (0,0), a check and a
    tick. *)
Definition samplePlay : list call :=
  [CallSelect 8 8; CallFill 1; CallMove "ArrowUp"; CallFill 2;
   CallSelect 0 0; CallFill 3; CallCheck; CallTick].

(** * Completing a seed: colourings

    The definitions of this part are not code of the script: they serve the
    proof that [solveBoard] succeeds on every grid that [fillDiagonal]
    makes (see [seed_completable] and [solveBoard_completes_every_seed]).

    List the nine digits in the order in which they stand in the first
    diagonal box.  A box of a grid is then described by two colourings of
    that list with three colours: the row, and the column, that each digit
    has inside the box.  The two colourings of a box meet every pair of
    colours ([Orth]); within a band the row colourings of the three boxes
    differ at every digit, and so do the column colourings within a stack
    ([Differs], [thirdL]).  The first box has the colourings [rA] and [cA];
    the two other diagonal boxes have arbitrary ones.  A completion is a
    choice of colourings for the six other boxes, which form a cycle:

      (0,1) - (2,1) - (2,0) - (1,0) - (1,2) - (0,2) - (0,1)

    Half of the cycle, from the rows [u] of box (0,1) to the columns [v]
    of box (2,0), depends on two of the given colourings only ([Path]).
    For every such pair more than half of the 56 x 56 pairs [(u, v)] are
    joined by a path: this is checked by computation for one pair in each
    class under the symmetries of the first box, and two sets of more than
    half of the pairs meet. *)

(** ** Colourings *)

Inductive tri := T0 | T1 | T2.
#[export] Instance tri_eq_dec : EqDecision tri.
Proof. solve_decision. Defined.

(** The colour that is neither [a] nor [b], when they differ. *)
Definition third (a b : tri) : tri :=
  match a, b with
  | T0, T1 | T1, T0 => T2
  | T0, T2 | T2, T0 => T1
  | T1, T2 | T2, T1 => T0
  | _, _ => a
  end.
Definition triEqb (a b : tri) : bool :=
  match a, b with
  | T0, T0 | T1, T1 | T2, T2 => true
  | _, _ => false
  end.

(** A colouring of the nine digits. *)
Abbreviation coloring := (list tri).

(** The third colour, entry by entry. *)
Fixpoint thirdL (c u : coloring) : coloring :=
  match c, u with
  | a :: c', b :: u' => third a b :: thirdL c' u'
  | _, _ => []
  end.

(** Each colour is used three times. *)
Fixpoint counts (u : coloring) (n0 n1 n2 : nat) : bool :=
  match u with
  | [] => (n0 =? 3) && (n1 =? 3) && (n2 =? 3)
  | T0 :: u' => counts u' (S n0) n1 n2
  | T1 :: u' => counts u' n0 (S n1) n2
  | T2 :: u' => counts u' n0 n1 (S n2)
  end.
Definition balancedb (u : coloring) : bool := counts u 0 0 0.

(** The 1680 colourings that use each colour three times. *)
Fixpoint colorings (n : nat) : list coloring :=
  match n with
  | 0 => [[]]
  | S n' => flat_map (λ l, [T0 :: l; T1 :: l; T2 :: l]) (colorings n')
  end.
Definition allCols : list coloring := filter (λ u, balancedb u = true) (colorings 9).

(** The 56 of them that differ from [c] at every entry. *)
Fixpoint differsb (c u : coloring) : bool :=
  match c, u with
  | a :: c', b :: u' => negb (triEqb a b) && differsb c' u'
  | [], [] => true
  | _, _ => false
  end.
Definition nbrs (c : coloring) : list coloring :=
  filter (λ u, differsb c u = true) allCols.

(** The rows and the columns of the first box, and their neighbours. *)
Definition rA : coloring := [T0;T0;T0;T1;T1;T1;T2;T2;T2].
Definition cA : coloring := [T0;T1;T2;T0;T1;T2;T0;T1;T2].
Definition FA : list coloring := nbrs rA.
Definition FcA : list coloring := nbrs cA.

Definition at3 (u : coloring) (k : nat) : tri := nth k u T0.

(** Every pair of colours is met at some index. *)
Definition Orth (u v : coloring) : Prop :=
  ∀ a b, ∃ k, k < 9 ∧ at3 u k = a ∧ at3 v k = b.

(** [u] has nine entries and differs from [c] at each of them. *)
Definition Differs (c u : coloring) : Prop :=
  length u = 9 ∧ ∀ k, k < 9 → at3 u k ≠ at3 c k.

(** The boxes (0,1), (2,1) and (2,0) can be filled with rows [u] in the
    first and columns [v] in the last, when the middle box has columns
    [cB] and the last box has rows [rC]. *)
Definition Path (cB rC u v : coloring) : Prop :=
  ∃ c01 r21, Differs cB c01 ∧ Differs rC r21 ∧
    Orth u c01 ∧ Orth (thirdL cB c01) r21 ∧ Orth (thirdL rC r21) v.

(** ** The pairs joined by a path, computed

    A set of column colourings [v] is a machine integer, one bit for each
    of the 56 neighbours of [cA]. *)

Fixpoint indexed {X} (l : list X) (j : int) : list (int * X) :=
  match l with
  | [] => []
  | x :: l' => (j, x) :: indexed l' (Uint63.add j 1)
  end.
Definition FcAix : list (int * coloring) := indexed FcA 0%uint63.

Fixpoint eqCol (u v : coloring) : bool :=
  match u, v with
  | [], [] => true
  | a :: u', b :: v' => triEqb a b && eqCol u' v'
  | _, _ => false
  end.
(** The bit of [v]. *)
Fixpoint indexOf (v : coloring) (l : list (int * coloring)) : int :=
  match l with
  | [] => 0%uint63
  | e :: l' => if eqCol v e.2 then Uint63.lsl 1 e.1 else indexOf v l'
  end.

(** A binary tree with a set at each leaf. *)
Inductive bt := Leaf (row : int) | Node (l r : bt).

Definition next3 (a : tri) : tri := match a with T0 => T1 | T1 => T2 | T2 => T0 end.
Definition prev3 (a : tri) : tri := match a with T0 => T2 | T1 => T0 | T2 => T1 end.

(** The tree over the colourings that differ from [base] everywhere: at
    each entry, left for the next colour and right for the one before. *)
Fixpoint buildTree (base : coloring) (f : coloring → int) : bt :=
  match base with
  | [] => Leaf (f [])
  | a :: base' =>
      Node (buildTree base' (λ r, f (next3 a :: r)))
           (buildTree base' (λ r, f (prev3 a :: r)))
  end.

Definition dirOf (a x : tri) : option bool :=
  match a, x with
  | T0, T1 | T1, T2 | T2, T0 => Some false
  | T0, T2 | T1, T0 | T2, T1 => Some true
  | _, _ => None
  end.

Definition sel3 {X} (i : tri) (l0 l1 l2 : X) : X :=
  match i with T0 => l0 | T1 => l1 | T2 => l2 end.

Definition popClass (i : tri) (l0 l1 l2 : list tri)
  : option (tri * (list tri * list tri * list tri)) :=
  match i with
  | T0 => match l0 with x :: l => Some (x, (l, l1, l2)) | [] => None end
  | T1 => match l1 with x :: l => Some (x, (l0, l, l2)) | [] => None end
  | T2 => match l2 with x :: l => Some (x, (l0, l1, l)) | [] => None end
  end.

(** The leaf reached by the colouring that gives the entries of colour [i]
    in [c] the colours [l_i], in order. *)
Fixpoint walkTree (t : bt) (c base : coloring) (l0 l1 l2 : list tri) : int :=
  match t, c, base with
  | Leaf row, [], [] =>
      match l0, l1, l2 with [], [], [] => row | _, _, _ => 0%uint63 end
  | Node tl tr, i :: c', a :: base' =>
      match popClass i l0 l1 l2 with
      | Some (x, (m0, m1, m2)) =>
          match dirOf a x with
          | Some false => walkTree tl c' base' m0 m1 m2
          | Some true => walkTree tr c' base' m0 m1 m2
          | None => 0%uint63
          end
      | None => 0%uint63
      end
  | _, _, _ => 0%uint63
  end.

Definition perms3 : list (list tri) :=
  [[T0;T1;T2]; [T0;T2;T1]; [T1;T0;T2]; [T1;T2;T0]; [T2;T0;T1]; [T2;T1;T0]].
Definition avoids (a b c : tri) (l : list tri) : bool :=
  match l with
  | [x; y; z] => negb (triEqb x a) && negb (triEqb y b) && negb (triEqb z c)
  | _ => false
  end.
(** The orders of the three colours that avoid [a], [b], [c] in turn. *)
Definition rainbows : tri → tri → tri → list (list tri) :=
  Eval cbv in λ a b c,
    match a, b, c with
    | T0, T0, T0 => filter (λ l, avoids T0 T0 T0 l = true) perms3
    | T0, T0, T1 => filter (λ l, avoids T0 T0 T1 l = true) perms3
    | T0, T0, T2 => filter (λ l, avoids T0 T0 T2 l = true) perms3
    | T0, T1, T0 => filter (λ l, avoids T0 T1 T0 l = true) perms3
    | T0, T1, T1 => filter (λ l, avoids T0 T1 T1 l = true) perms3
    | T0, T1, T2 => filter (λ l, avoids T0 T1 T2 l = true) perms3
    | T0, T2, T0 => filter (λ l, avoids T0 T2 T0 l = true) perms3
    | T0, T2, T1 => filter (λ l, avoids T0 T2 T1 l = true) perms3
    | T0, T2, T2 => filter (λ l, avoids T0 T2 T2 l = true) perms3
    | T1, T0, T0 => filter (λ l, avoids T1 T0 T0 l = true) perms3
    | T1, T0, T1 => filter (λ l, avoids T1 T0 T1 l = true) perms3
    | T1, T0, T2 => filter (λ l, avoids T1 T0 T2 l = true) perms3
    | T1, T1, T0 => filter (λ l, avoids T1 T1 T0 l = true) perms3
    | T1, T1, T1 => filter (λ l, avoids T1 T1 T1 l = true) perms3
    | T1, T1, T2 => filter (λ l, avoids T1 T1 T2 l = true) perms3
    | T1, T2, T0 => filter (λ l, avoids T1 T2 T0 l = true) perms3
    | T1, T2, T1 => filter (λ l, avoids T1 T2 T1 l = true) perms3
    | T1, T2, T2 => filter (λ l, avoids T1 T2 T2 l = true) perms3
    | T2, T0, T0 => filter (λ l, avoids T2 T0 T0 l = true) perms3
    | T2, T0, T1 => filter (λ l, avoids T2 T0 T1 l = true) perms3
    | T2, T0, T2 => filter (λ l, avoids T2 T0 T2 l = true) perms3
    | T2, T1, T0 => filter (λ l, avoids T2 T1 T0 l = true) perms3
    | T2, T1, T1 => filter (λ l, avoids T2 T1 T1 l = true) perms3
    | T2, T1, T2 => filter (λ l, avoids T2 T1 T2 l = true) perms3
    | T2, T2, T0 => filter (λ l, avoids T2 T2 T0 l = true) perms3
    | T2, T2, T1 => filter (λ l, avoids T2 T2 T1 l = true) perms3
    | T2, T2, T2 => filter (λ l, avoids T2 T2 T2 l = true) perms3
    end.

(** The colours of [base] at the entries of colour 0, 1, 2 of [c]. *)
Fixpoint split3 (c base : coloring) : list tri * list tri * list tri :=
  match c, base with
  | i :: c', a :: base' =>
      let '(v0, v1, v2) := split3 c' base' in
      match i with
      | T0 => (a :: v0, v1, v2)
      | T1 => (v0, a :: v1, v2)
      | T2 => (v0, v1, a :: v2)
      end
  | _, _ => ([], [], [])
  end.

Fixpoint orMap {X} (f : X → int) (l : list X) : int :=
  match l with
  | [] => 0%uint63
  | x :: l' => Uint63.lor (f x) (orMap f l')
  end.

(** The union of the leaves at the colourings that differ from [base]
    everywhere and meet every colour within each colour class of [c]. *)
Definition rowVia (t : bt) (base c : coloring) : int :=
  match split3 c base with
  | ([a0; b0; c0], [a1; b1; c1], [a2; b2; c2]) =>
      let o1 := rainbows a1 b1 c1 in
      let o2 := rainbows a2 b2 c2 in
      orMap (λ l0, orMap (λ l1, orMap (λ l2, walkTree t c base l0 l1 l2) o2) o1)
        (rainbows a0 b0 c0)
  | _ => 0%uint63
  end.

(** The colourings of a set. *)
Definition members (row : int) : list coloring :=
  omap (λ e : int * coloring, if Uint63.bit row e.1 then Some e.2 else None) FcAix.

(** The three steps of a path, from its end: the columns [v] of box
    (2,0) for each choice of the rows of box (2,1), for each choice of the
    columns of box (0,1), and for each [u]. *)
Definition treeA : bt := buildTree cA (λ v, indexOf v FcAix).
Definition treeC (tA : bt) (rC : coloring) : bt :=
  buildTree rC (λ r21, rowVia tA cA (thirdL rC r21)).
Definition treeB (tC : bt) (cB rC : coloring) : bt :=
  buildTree cB (λ c01, rowVia tC rC (thirdL cB c01)).
Definition reachList (tB : bt) (cB : coloring) : list (coloring * coloring) :=
  FA ≫= (λ u, map (pair u) (members (rowVia tB cB u))).

(** Colourings with first colour 0 in which colour 1 comes before colour 2. *)
Fixpoint canonb (u : coloring) (seen1 : bool) : bool :=
  match u with
  | [] => true
  | T0 :: u' => canonb u' seen1
  | T1 :: u' => canonb u' true
  | T2 :: u' => seen1 && canonb u' seen1
  end.
Definition canonical (u : coloring) : bool :=
  match u with T0 :: _ => canonb u false | _ => false end.
Definition canon : list coloring := filter (λ u, canonical u = true) allCols.

(** One column colouring of the middle box in each class under the
    permutations of the rows and of the columns of the first box and the
    renaming of the colours. *)
Definition ofNat (n : nat) : tri := match n with 0 => T0 | 1 => T1 | _ => T2 end.
Definition repsB : list coloring := map (map ofNat) [
 [0;0;0;1;1;1;2;2;2]; [0;0;0;1;1;2;1;2;2]; [0;0;0;1;1;2;2;2;1]; [0;0;1;0;1;2;1;2;2];
 [0;0;1;0;1;2;2;1;2]; [0;0;1;0;1;2;2;2;1]; [0;0;1;0;2;1;2;1;2]; [0;0;1;0;2;1;2;2;1];
 [0;0;1;0;2;2;1;1;2]; [0;0;1;0;2;2;1;2;1]; [0;0;1;1;1;2;2;2;0]; [0;0;1;1;2;0;2;1;2];
 [0;1;2;0;1;2;0;1;2]; [0;1;2;0;1;2;0;2;1]; [0;1;2;0;1;2;1;2;0]; [0;1;2;0;2;1;1;0;2];
 [0;1;2;1;2;0;2;0;1] ].

(** More than half of the 3136 pairs. *)
Definition half : nat := 1569.
Definition atLeast {X} (n : nat) (l : list X) : bool := n <=? length l.
Definition rowOk (reps : list coloring) (tA : bt) (rC : coloring) : bool :=
  let tC := treeC tA rC in
  forallb (λ cB, atLeast half (reachList (treeB tC cB rC) cB)) reps.

(** Tests used by the checks. *)
Fixpoint nodupInt (l : list int) : bool :=
  match l with
  | [] => true
  | x :: l' => forallb (λ y, negb (Uint63.eqb x y)) l' && nodupInt l'
  end.
Definition memCol (u : coloring) (l : list coloring) : bool := existsb (eqCol u) l.
Fixpoint nodupCol (l : list coloring) : bool :=
  match l with
  | [] => true
  | u :: l' => negb (memCol u l') && nodupCol l'
  end.

(** ** Symmetries: renaming the colours, permuting the digits *)

Definition allPairs : list (tri * tri) := zip rA cA.

Definition perm3 : Type := tri * tri * tri.
Definition applyP (π : perm3) (a : tri) : tri :=
  match a with T0 => π.1.1 | T1 => π.1.2 | T2 => π.2 end.
Definition Sym3 : list perm3 :=
  [(T0,T1,T2); (T0,T2,T1); (T1,T0,T2); (T1,T2,T0); (T2,T0,T1); (T2,T1,T0)].
Definition relabel (π : perm3) (u : coloring) : coloring := map (applyP π) u.
Definition permute (τ : list nat) (u : coloring) : coloring := map (at3 u) τ.

Definition ti (a : tri) : nat := match a with T0 => 0 | T1 => 1 | T2 => 2 end.
(** The permutation of the nine cells of a box that permutes its rows by
    [p] and its columns by [q]. *)
Definition boxPerm (p q : perm3) : list nat :=
  map (λ k, 3 * ti (applyP p (ofNat (k / 3))) + ti (applyP q (ofNat (k mod 3))))
      (seq 0 9).
Definition Glist : list (list nat) := p ← Sym3; q ← Sym3; [boxPerm p q].

(** A permutation of the nine indices. *)
Definition good (τ : list nat) : Prop :=
  length τ = 9 ∧ Forall (λ k, k < 9) τ ∧ Forall (λ k, k ∈ τ) (seq 0 9).

(** A set of colourings as a ternary tree. *)
Inductive trie := Tip | Fork (here : bool) (t0 t1 t2 : trie).
Fixpoint insertT (c : coloring) (t : trie) : trie :=
  match c with
  | [] => match t with Tip => Fork true Tip Tip Tip | Fork _ a b d => Fork true a b d end
  | x :: c' =>
      match t with
      | Tip =>
          match x with
          | T0 => Fork false (insertT c' Tip) Tip Tip
          | T1 => Fork false Tip (insertT c' Tip) Tip
          | T2 => Fork false Tip Tip (insertT c' Tip)
          end
      | Fork h a b d =>
          match x with
          | T0 => Fork h (insertT c' a) b d
          | T1 => Fork h a (insertT c' b) d
          | T2 => Fork h a b (insertT c' d)
          end
      end
  end.
Fixpoint memT (c : coloring) (t : trie) {struct t} : bool :=
  match t with
  | Tip => false
  | Fork h a b d =>
      match c with
      | [] => h
      | T0 :: c' => memT c' a
      | T1 :: c' => memT c' b
      | T2 :: c' => memT c' d
      end
  end.
(** Every colouring is one of [imgs]. *)
Definition covered (imgs : list coloring) : bool :=
  let t := foldr insertT Tip imgs in forallb (λ c, memT c t) allCols.
Definition imagesB : list coloring :=
  τ ← Glist; π ← Sym3; c0 ← repsB; [permute τ (relabel π c0)].
Definition imagesC : list coloring := π ← Sym3; c0 ← canon; [relabel π c0].

(** ** From colourings to a grid *)

(** The index of the first occurrence. *)
Fixpoint locate {X} `{EqDecision X} (x : X) (l : list X) : nat :=
  match l with
  | [] => 0
  | y :: l' => if decide (y = x) then 0 else S (locate x l')
  end.

(** The digits of the diagonal box [k], row by row. *)
Definition boxValues (f : view) (k : nat) : list nat := valuesAt f (boxCells k k).

(** The row, and the column, that the digits [σ] have in the diagonal box
    [k] of [f]. *)
Definition rowsIn (f : view) (σ : list nat) (k : nat) : coloring :=
  map (λ d, ofNat (locate d (boxValues f k) / 3)) σ.
Definition colsIn (f : view) (σ : list nat) (k : nat) : coloring :=
  map (λ d, ofNat (locate d (boxValues f k) mod 3)) σ.

(** The entry that has row colour [a] and column colour [b]. *)
Definition entryAt (r c : coloring) (a b : tri) : nat := locate (a, b) (zip r c).

(** The grid in which the box [(I, J)] holds the digit [σ_p] in the row
    [R I J p] and the column [C I J p]. *)
Definition layoutGrid (σ : list nat) (R C : nat → nat → coloring) : view :=
  λ i j, nth (entryAt (R (i / 3) (j / 3)) (C (i / 3) (j / 3))
                (ofNat (i mod 3)) (ofNat (j mod 3))) σ 0.

(** The colourings of the nine boxes fit: in each box they meet every pair
    of colours, the rows differ along a band and the columns along a
    stack. *)
Definition lawful (R C : nat → nat → coloring) : Prop :=
  (∀ I J, I < 3 → J < 3 →
     length (R I J) = 9 ∧ length (C I J) = 9 ∧ Orth (R I J) (C I J)) ∧
  (∀ I J J' p, I < 3 → J < 3 → J' < 3 → J ≠ J' → p < 9 →
     at3 (R I J) p ≠ at3 (R I J') p) ∧
  (∀ I I' J p, I < 3 → I' < 3 → J < 3 → I ≠ I' → p < 9 →
     at3 (C I J) p ≠ at3 (C I' J) p).

(** The nine digits in some order. *)
Definition labels (σ : list nat) : Prop :=
  length σ = 9 ∧ NoDup σ ∧ ∀ d, d ∈ σ → 1 ≤ d ≤ 9.

(** The layout made of the colourings of the diagonal boxes and of one
    colouring for each band and each stack. *)
Definition layoutR (rB rC r01 r21 r12 : coloring) (I J : nat) : coloring :=
  match I, J with
  | 0, 0 => rA | 0, 1 => r01 | 0, _ => thirdL rA r01
  | 1, 0 => thirdL rB r12 | 1, 1 => rB | 1, _ => r12
  | _, 0 => thirdL rC r21 | _, 1 => r21 | _, _ => rC
  end.
Definition layoutC (cB cC c01 c20 c02 : coloring) (I J : nat) : coloring :=
  match I, J with
  | 0, 0 => cA | 0, 1 => c01 | 0, _ => c02
  | 1, 0 => thirdL cA c20 | 1, 1 => cB | 1, _ => thirdL cC c02
  | _, 0 => c20 | _, 1 => thirdL cB c01 | _, _ => cC
  end.


(** * Properties *)

(** ** Loops over a range *)

Lemma existsb_seq_false (f : nat → bool) (a n : nat) :
  existsb f (seq a n) = false ↔ ∀ x, a ≤ x < a + n → f x = false.
Proof.
  split.
  - intros E x Hx.
    destruct (f x) eqn:Fx; [|done].
    assert (existsb f (seq a n) = true) as E'; [|congruence].
    apply existsb_exists. exists x. split; [apply in_seq; lia | done].
  - intros A. destruct (existsb f (seq a n)) eqn:E; [|done].
    apply existsb_exists in E as (x & Hin & Fx).
    apply in_seq in Hin. rewrite A in Fx; [done | lia].
Qed.

Lemma box_origin (i : nat) : i - i mod 3 = 3 * (i / 3).
Proof. pose proof (Nat.div_mod_eq i 3). lia. Qed.

Lemma same_box_offset (i i' : nat) :
  i' / 3 = i / 3 ↔ ∃ k, k < 3 ∧ i' = k + (i - i mod 3).
Proof.
  rewrite box_origin. split.
  - intros E. exists (i' mod 3). split; [apply Nat.mod_upper_bound; lia|].
    pose proof (Nat.div_mod_eq i' 3). lia.
  - intros (k & Hk & ->).
    rewrite (Nat.mul_comm 3), Nat.div_add by lia.
    rewrite Nat.div_small by lia. done.
Qed.

Section IsValid.
Context {B : Type} `{Board B}.

(** What the three scans of [isValid] establish. *)
Lemma isValid_scans (b : B) (row col num : nat) :
  isValid b row col num = true ↔
    (∀ x, x < 9 → rd b row x ≠ num) ∧
    (∀ x, x < 9 → rd b x col ≠ num) ∧
    (∀ i j, i < 3 → j < 3 →
       rd b (i + (row - row mod 3)) (j + (col - col mod 3)) ≠ num).
Proof.
  unfold isValid.
  destruct (existsb _ (seq 0 9)) eqn:E1.
  { split; [done|]. intros (A & _). apply existsb_exists in E1 as (x & Hx & E).
    apply in_seq in Hx. apply Nat.eqb_eq in E. exfalso. apply (A x); [lia|done]. }
  destruct (existsb (λ x, rd b x col =? num) (seq 0 9)) eqn:E2.
  { split; [done|]. intros (_ & A & _).
    apply existsb_exists in E2 as (x & Hx & E).
    apply in_seq in Hx. apply Nat.eqb_eq in E. exfalso. apply (A x); [lia|done]. }
  cbv zeta.
  destruct (existsb _ (seq 0 3)) eqn:E3.
  { split; [done|]. intros (_ & _ & A).
    apply existsb_exists in E3 as (i & Hi & E).
    apply existsb_exists in E as (j & Hj & E).
    apply in_seq in Hi, Hj. apply Nat.eqb_eq in E.
    exfalso. apply (A i j); [lia|lia|done]. }
  split; [|done]. intros _.
  rewrite existsb_seq_false in E1, E2, E3.
  split; [|split].
  - intros x Hx. apply Nat.eqb_neq, E1. lia.
  - intros x Hx. apply Nat.eqb_neq, E2. lia.
  - intros i j Hi Hj. specialize (E3 i ltac:(lia)).
    rewrite existsb_seq_false in E3. apply Nat.eqb_neq, E3. lia.
Qed.

(** [isValid] accepts [num] exactly when no cell of the row, the column and
    the box of [(row, col)] holds it, the cell [(row, col)] included. *)
Lemma isValid_peers (b : B) (row col num : nat) :
  row < 9 → col < 9 →
  isValid b row col num = true ↔
    ∀ i j, i < 9 → j < 9 → peers row col i j → rd b i j ≠ num.
Proof.
  intros Hr Hc. rewrite isValid_scans. split.
  - intros (R & C & X) i j Hi Hj [->|[->|[Ei Ej]]]; [by apply R|by apply C|].
    symmetry in Ei, Ej.
    apply same_box_offset in Ei as (k & Hk & ->).
    apply same_box_offset in Ej as (l & Hl & ->).
    by apply X.
  - intros P. split; [|split].
    + intros x Hx. apply P; [done|done|by left].
    + intros x Hx. apply P; [done|done|by right; left].
    + intros i j Hi Hj.
      assert (i + (row - row mod 3) < 9 ∧ j + (col - col mod 3) < 9) as [? ?].
      { rewrite !box_origin.
        pose proof (Nat.div_mod_eq row 3). pose proof (Nat.div_mod_eq col 3).
        pose proof (Nat.mod_upper_bound row 3). pose proof (Nat.mod_upper_bound col 3).
        lia. }
      apply P; [done|done|]. right; right. split; symmetry.
      * apply same_box_offset. eauto.
      * apply same_box_offset. eauto.
Qed.

Lemma isSafeInBox_spec (b : B) (row col num : nat) :
  isSafeInBox b row col num = true ↔
    ∀ i j, i < 3 → j < 3 → rd b (row + i) (col + j) ≠ num.
Proof.
  unfold isSafeInBox.
  destruct (existsb _ (seq 0 3)) eqn:E.
  - split; [done|]. intros A.
    apply existsb_exists in E as (i & Hi & E).
    apply existsb_exists in E as (j & Hj & E).
    apply in_seq in Hi, Hj. apply Nat.eqb_eq in E.
    exfalso. apply (A i j); [lia|lia|done].
  - split; [|done]. intros _ i j Hi Hj.
    rewrite existsb_seq_false in E. specialize (E i ltac:(lia)).
    rewrite existsb_seq_false in E. apply Nat.eqb_neq, E. lia.
Qed.

End IsValid.

(** ** Units and peers *)

Lemma elem_of_cells (i j : nat) : (i, j) ∈ cells ↔ i < 9 ∧ j < 9.
Proof.
  unfold cells. rewrite list_elem_of_In, in_flat_map. split.
  - intros (x & Hx & Hin). apply in_map_iff in Hin as (y & E & Hy).
    apply in_seq in Hx, Hy. inversion E; subst. lia.
  - intros [Hi Hj]. exists i. split; [apply in_seq; lia|].
    apply in_map_iff. exists j. split; [done|apply in_seq; lia].
Qed.

Lemma NoDup_cells : NoDup cells.
Proof. apply (bool_decide_unpack _). by vm_compute. Qed.

Lemma length_cells : length cells = 81.
Proof. reflexivity. Qed.

(** The cells of a unit are distinct positions of the grid, and any two of
    them are peers. *)
Lemma units_shape :
  Forall (λ u, NoDup u ∧
               Forall (λ p, p ∈ cells ∧
                            Forall (λ q, peers p.1 p.2 q.1 q.2) u) u) units.
Proof. apply (bool_decide_unpack _). by vm_compute. Qed.

(** Any two peers lie in a common unit. *)
Lemma peers_share_unit :
  Forall (λ p, Forall (λ q, peers p.1 p.2 q.1 q.2 →
                            Exists (λ u, p ∈ u ∧ q ∈ u) units) cells) cells.
Proof. apply (bool_decide_unpack _). by vm_compute. Qed.

Lemma unit_NoDup u : u ∈ units → NoDup u.
Proof.
  intros Hu. pose proof units_shape as S.
  rewrite Forall_forall in S. by destruct (S u Hu).
Qed.

Lemma unit_peers u i j i' j' :
  u ∈ units → (i, j) ∈ u → (i', j') ∈ u →
  i < 9 ∧ j < 9 ∧ i' < 9 ∧ j' < 9 ∧ peers i j i' j'.
Proof.
  intros Hu Hp Hq. pose proof units_shape as S.
  rewrite Forall_forall in S. destruct (S u Hu) as [_ S'].
  rewrite Forall_forall in S'.
  destruct (S' _ Hp) as [Cp Pp]. destruct (S' _ Hq) as [Cq _].
  rewrite Forall_forall in Pp. specialize (Pp _ Hq).
  apply elem_of_cells in Cp, Cq. simpl in *. tauto.
Qed.

Lemma peers_unit i j i' j' :
  i < 9 → j < 9 → i' < 9 → j' < 9 → peers i j i' j' →
  ∃ u, u ∈ units ∧ (i, j) ∈ u ∧ (i', j') ∈ u.
Proof.
  intros Hi Hj Hi' Hj' P. pose proof peers_share_unit as S.
  rewrite Forall_forall in S.
  specialize (S (i, j) ltac:(by apply elem_of_cells)).
  rewrite Forall_forall in S.
  specialize (S (i', j') ltac:(by apply elem_of_cells) P).
  apply Exists_exists in S as (u & Hu & ? & ?). eauto.
Qed.

Lemma peers_sym i j i' j' : peers i j i' j' → peers i' j' i j.
Proof. unfold peers. intuition. Qed.

(** ** Counting occurrences *)

Lemma occurrences_le_1 {A} (g : A → nat) (d : nat) (l : list A) :
  NoDup l →
  occurrences d (map g l) ≤ 1 ↔
    ∀ p q, p ∈ l → q ∈ l → g p = d → g q = d → p = q.
Proof.
  unfold occurrences. induction 1 as [|x l Hx ND IH]; simpl.
  { split; [|lia]. intros _ p q Hp. by apply elem_of_nil in Hp. }
  rewrite filter_cons. destruct (decide (g x = d)) as [E|NE]; simpl.
  - split.
    + intros L p q Hp Hq Ep Eq.
      assert (∀ y, y ∈ l → g y = d → False) as No.
      { intros y Hy Ey.
        assert (g y ∈ filter (λ v, v = d) (map g l)) as Hin.
        { apply list_elem_of_filter. split; [done|].
          apply list_elem_of_fmap. eauto. }
        destruct (filter (λ v, v = d) (map g l)); [by apply elem_of_nil in Hin|].
        simpl in L. lia. }
      apply elem_of_cons in Hp as [->|Hp]; apply elem_of_cons in Hq as [->|Hq];
        [done|by destruct (No q)|by destruct (No p)|by destruct (No p)].
    + intros U.
      destruct (filter (λ v, v = d) (map g l)) as [|v r] eqn:F; [simpl; lia|].
      assert (v ∈ filter (λ v, v = d) (map g l)) as Hin by (rewrite F; left).
      apply list_elem_of_filter in Hin as [Ev Hin].
      apply list_elem_of_fmap in Hin as (y & -> & Hy).
      exfalso. apply Hx.
      rewrite (U x y); [done|left|by right|done|done].
  - rewrite IH. split.
    + intros U p q Hp Hq Ep Eq.
      apply elem_of_cons in Hp as [->|Hp]; [done|].
      apply elem_of_cons in Hq as [->|Hq]; [done|]. by apply U.
    + intros U p q Hp Hq. apply U; by right.
Qed.

(** [consistent], cell against cell: a digit never equals the value of a
    distinct peer. *)
Lemma consistent_peers (f : view) :
  consistent f ↔
    ∀ i j i' j', i < 9 → j < 9 → i' < 9 → j' < 9 → (i, j) ≠ (i', j') →
      peers i j i' j' → 1 ≤ f i j ≤ 9 → f i j ≠ f i' j'.
Proof.
  split.
  - intros C i j i' j' Hi Hj Hi' Hj' NE P D E.
    destruct (peers_unit i j i' j') as (u & Hu & Hp & Hq); [done..|].
    specialize (C u (f i j) Hu D). unfold valuesAt in C.
    rewrite occurrences_le_1 in C by by apply unit_NoDup.
    apply NE. apply (C (i, j) (i', j')); simpl; auto.
  - intros P u d Hu D. unfold valuesAt.
    apply occurrences_le_1; [by apply unit_NoDup|].
    intros [i j] [i' j'] Hp Hq Ep Eq. simpl in *.
    destruct (decide ((i, j) = (i', j'))) as [|NE]; [done|exfalso].
    destruct (unit_peers u i j i' j') as (? & ? & ? & ? & ?); [done..|].
    apply (P i j i' j'); try done; lia.
Qed.

Lemma unit_length u : u ∈ units → length u = 9.
Proof.
  assert (Forall (λ u, length u = 9) units) as L
    by (apply (bool_decide_unpack _); by vm_compute).
  rewrite Forall_forall in L. apply L.
Qed.

(** A full grid of digits without a clash is a solution: in a unit, nine
    distinct digits are all of 1-9. *)
Lemma full_consistent_isSolution (f : view) :
  full f → digits f → consistent f → isSolution f.
Proof.
  intros F D C. split; [done|]. intros u d Hu Hd.
  pose proof (C u d Hu Hd) as Le.
  enough (1 ≤ occurrences d (valuesAt f u)) by lia.
  assert (NoDup (valuesAt f u)) as ND.
  { unfold valuesAt. apply (NoDup_fmap_2_strong (λ p, f p.1 p.2)).
    - intros [i j] [i' j'] Hp Hq E. simpl in E.
      destruct (decide ((i, j) = (i', j'))) as [|NE]; [done|exfalso].
      destruct (unit_peers u i j i' j') as (Hi & Hj & Hi' & Hj' & P); [done..|].
      rewrite consistent_peers in C.
      apply (C i j i' j'); try done.
      specialize (F i j Hi Hj). specialize (D i j Hi Hj). lia.
    - by apply unit_NoDup. }
  assert (incl (valuesAt f u) (seq 1 9)) as Inc.
  { intros v Hv. apply in_map_iff in Hv as ([i j] & <- & Hin). cbn [fst snd].
    apply list_elem_of_In in Hin.
    destruct (unit_peers u i j i j) as (Hi & Hj & _); [done..|].
    specialize (F i j Hi Hj). specialize (D i j Hi Hj). apply in_seq. lia. }
  assert (In d (valuesAt f u)) as Hin.
  { apply (NoDup_length_incl (l := valuesAt f u) (l' := seq 1 9)).
    - by apply NoDup_ListNoDup.
    - unfold valuesAt. rewrite length_map, length_seq, (unit_length u) by done. lia.
    - done.
    - apply in_seq. lia. }
  unfold occurrences.
  assert (d ∈ filter (λ x, x = d) (valuesAt f u)) as Hf.
  { apply list_elem_of_filter. split; [done|by apply list_elem_of_In]. }
  destruct (filter _ _); [by apply elem_of_nil in Hf|simpl; lia].
Qed.

Lemma isSolution_consistent (f : view) : isSolution f → consistent f.
Proof. intros [_ S] u d Hu Hd. rewrite (S u d Hu Hd). lia. Qed.

(** ** Counting empty cells *)

Lemma zeros_le_81 (f : view) : zeros f ≤ 81.
Proof. unfold zeros. rewrite <- length_cells. apply length_filter. Qed.

Lemma count_update (f g : view) (i j : nat) (l : list (nat * nat)) :
  NoDup l →
  (∀ i' j', (i', j') ∈ l → (i', j') ≠ (i, j) → g i' j' = f i' j') →
  f i j = 0 → g i j ≠ 0 →
  length (filter (λ p, f p.1 p.2 = 0) l) =
  (if decide ((i, j) ∈ l) then 1 else 0) +
  length (filter (λ p, g p.1 p.2 = 0) l).
Proof.
  intros ND Same F0 G0. induction ND as [|[a c] l Hx ND IH].
  { destruct (decide ((i, j) ∈ [])) as [Hin|]; [by apply elem_of_nil in Hin|done]. }
  rewrite !filter_cons. cbn [fst snd].
  assert (∀ i' j', (i', j') ∈ l → (i', j') ≠ (i, j) → g i' j' = f i' j') as Same'
    by (intros i' j' Hin; apply Same; by right).
  specialize (IH Same').
  destruct (decide ((a, c) = (i, j))) as [E|NE].
  - inversion E; subst.
    destruct (decide (f i j = 0)); [|done].
    destruct (decide (g i j = 0)); [done|].
    destruct (decide ((i, j) ∈ (i, j) :: l)) as [_|No]; [|destruct No; left].
    destruct (decide ((i, j) ∈ l)); [done|].
    simpl in *. lia.
  - rewrite (Same a c) by (done || left).
    assert ((i, j) ∈ (a, c) :: l ↔ (i, j) ∈ l) as Iff.
    { rewrite elem_of_cons. split; [intros [E|?]; [congruence|done]|by right]. }
    destruct (decide (f a c = 0)); simpl;
      destruct (decide ((i, j) ∈ l)), (decide ((i, j) ∈ (a, c) :: l));
      simpl in *; try lia; tauto.
Qed.

Lemma filter_length_mono {A} (P Q : A → Prop)
  `{∀ x, Decision (P x)} `{∀ x, Decision (Q x)} (l : list A) :
  (∀ x, x ∈ l → P x → Q x) → length (filter P l) ≤ length (filter Q l).
Proof.
  induction l as [|x l IH]; intros Imp; [done|].
  rewrite !filter_cons.
  assert (length (filter P l) ≤ length (filter Q l)) as L
    by (apply IH; intros y Hy; apply Imp; by right).
  destruct (decide (P x)) as [Px|]; destruct (decide (Q x)) as [|NQ]; simpl; try lia.
  destruct NQ. apply Imp; [left|done].
Qed.

(** Filling an empty cell removes one empty cell. *)
Lemma zeros_update (f g : view) (i j : nat) :
  i < 9 → j < 9 →
  (∀ i' j', i' < 9 → j' < 9 → (i', j') ≠ (i, j) → g i' j' = f i' j') →
  f i j = 0 → g i j ≠ 0 → zeros f = S (zeros g).
Proof.
  intros Hi Hj Same F0 G0. unfold zeros.
  rewrite (count_update f g i j); [|apply NoDup_cells| |done|done].
  - rewrite decide_True; [done|]. by apply elem_of_cells.
  - intros i' j' Hin. apply elem_of_cells in Hin as [? ?]. by apply Same.
Qed.

(** ** The solver, on any lawful board *)

Section Solver.
Context {B : Type} `{BoardLaws B}.

Lemma nums_range (num : nat) : num ∈ seq 1 9 ↔ 1 ≤ num ≤ 9.
Proof. rewrite list_elem_of_In, in_seq. lia. Qed.

Lemma zeros_fill (b : B) i j num :
  ok b → i < 9 → j < 9 → rd b i j = 0 → num ≠ 0 →
  zeros (rd b) = S (zeros (rd (wr b i j num))).
Proof.
  intros Ok Hi Hj Z N. apply (zeros_update _ _ i j); try done.
  - intros i' j' Hi' Hj' NE. rewrite rd_wr_other; done.
  - by rewrite rd_wr_same.
Qed.

Lemma zeros_clear (b : B) i j :
  ok b → i < 9 → j < 9 → rd b i j ≠ 0 →
  zeros (rd (wr b i j 0)) = S (zeros (rd b)).
Proof.
  intros Ok Hi Hj N. apply (zeros_update _ _ i j); try done.
  - intros i' j' Hi' Hj' NE. rewrite rd_wr_other; done.
  - by rewrite rd_wr_same.
Qed.

(** *** Invariants of the writes *)

(** [solveBoard] writes in two places: a digit that [isValid] accepted into
    an empty cell, and 0 into a cell that was empty when the loop over the
    digits started.  A property kept by both is kept by the solver. *)
Section Invariant.
Variable Inv : B → Prop.
Hypothesis Inv_place : ∀ b i j num,
  ok b → Inv b → i < 9 → j < 9 → rd b i j = 0 → 1 ≤ num ≤ 9 →
  isValid b i j num = true → Inv (wr b i j num).
Hypothesis Inv_undo : ∀ b b1 i j,
  ok b → Inv b → i < 9 → j < 9 → rd b i j = 0 → ok b1 → Inv b1 →
  Inv (wr b1 i j 0).

Definition keeps (rec : B → option (bool * B)) : Prop :=
  ∀ b r b', ok b → Inv b → rec b = Some (r, b') → ok b' ∧ Inv b'.

Lemma tryNums_keeps rec i j nums :
  keeps rec → i < 9 → j < 9 → (∀ num, num ∈ nums → 1 ≤ num ≤ 9) →
  ∀ b r b', ok b → Inv b → rd b i j = 0 →
    tryNums rec i j nums b = Some (r, b') → ok b' ∧ Inv b'.
Proof.
  intros K Hi Hj. induction nums as [|num more IH]; intros R b r b' Ok I Z T.
  { simpl in T. by inversion T; subst. }
  assert (1 ≤ num ≤ 9) as Hn by (apply R; left).
  assert (∀ n, n ∈ more → 1 ≤ n ≤ 9) as R' by (intros n Hin; apply R; by right).
  simpl in T. destruct (isValid b i j num) eqn:V; [|by apply (IH R' b r)].
  destruct (rec (wr b i j num)) as [[solved b1]|] eqn:E; [|done]. simpl in T.
  destruct (K (wr b i j num) solved b1) as [Ok1 I1];
    [by apply wr_ok|by apply Inv_place|done|].
  destruct solved; [by inversion T; subst|].
  apply (IH R' (wr b1 i j 0) r); [by apply wr_ok|by apply (Inv_undo b)| |done].
  by apply rd_wr_same.
Qed.

Lemma scanCells_keeps rec todo :
  keeps rec → (∀ p, p ∈ todo → p ∈ cells) →
  ∀ b r b', ok b → Inv b →
    scanCells rec todo b = Some (r, b') → ok b' ∧ Inv b'.
Proof.
  intros K. induction todo as [|[i j] more IH]; intros Sub b r b' Ok I S.
  { simpl in S. by inversion S; subst. }
  cbn [scanCells] in S. destruct (rd b i j =? 0) eqn:Z.
  - apply Nat.eqb_eq in Z.
    assert ((i, j) ∈ cells) as Hc by (apply Sub; left).
    apply elem_of_cells in Hc as [Hi Hj].
    apply (tryNums_keeps rec i j (seq 1 9) K Hi Hj) with (b := b) (r := r);
      try done.
    intros num. apply nums_range.
  - apply (IH ltac:(intros p Hp; apply Sub; by right) b r); done.
Qed.

Lemma solveBoard_keeps depth : keeps (solveBoard depth).
Proof.
  induction depth as [|d IH]; intros b r b' Ok I S; [done|].
  cbn [solveBoard] in S. by apply (scanCells_keeps (solveBoard d) cells IH) with (b := b) (r := r).
Qed.

End Invariant.

Lemma solveBoard_ok depth (b b' : B) r :
  ok b → solveBoard depth b = Some (r, b') → ok b'.
Proof.
  intros Ok S.
  by destruct (solveBoard_keeps (λ _, True) ltac:(done) ltac:(done) depth b r b').
Qed.

(** *** Writes that keep the grid consistent *)

Lemma consistent_place (b : B) i j num :
  ok b → i < 9 → j < 9 → consistent (rd b) → rd b i j = 0 →
  isValid b i j num = true → consistent (rd (wr b i j num)).
Proof.
  intros Ok Hi Hj C Z V. rewrite consistent_peers in C |- *.
  rewrite isValid_peers in V by done.
  intros a c a' c' Ha Hc Ha' Hc' NE P D.
  destruct (decide ((i, j) = (a, c))) as [E|N1].
  - inversion E; subst a c. rewrite rd_wr_same by done.
    rewrite rd_wr_other by done. intros E'. by apply (V a' c').
  - rewrite (rd_wr_other b i j num a c) in * by done.
    destruct (decide ((i, j) = (a', c'))) as [E|N2].
    + inversion E; subst a' c'. rewrite rd_wr_same by done.
      apply (V a c); [done|done|by apply peers_sym].
    + rewrite rd_wr_other by done. by apply C.
Qed.

Lemma consistent_clear (b : B) i j :
  ok b → i < 9 → j < 9 → consistent (rd b) → consistent (rd (wr b i j 0)).
Proof.
  intros Ok Hi Hj C. rewrite consistent_peers in C |- *.
  intros a c a' c' Ha Hc Ha' Hc' NE P D.
  destruct (decide ((i, j) = (a, c))) as [E|N1].
  - inversion E; subst a c. rewrite rd_wr_same in D by done. lia.
  - rewrite (rd_wr_other b i j 0 a c) in * by done.
    destruct (decide ((i, j) = (a', c'))) as [E|N2].
    + inversion E; subst a' c'. rewrite rd_wr_same by done. lia.
    + rewrite rd_wr_other by done. by apply C.
Qed.

Lemma solveBoard_consistent depth (b b' : B) r :
  ok b → consistent (rd b) → solveBoard depth b = Some (r, b') →
  consistent (rd b').
Proof.
  intros Ok C S.
  destruct (solveBoard_keeps (λ b, consistent (rd b))) with depth b r b'
    as [_ C']; try done.
  - intros. by apply consistent_place.
  - intros. by apply consistent_clear.
Qed.

Lemma solveBoard_digits depth (b b' : B) r :
  ok b → digits (rd b) → solveBoard depth b = Some (r, b') → digits (rd b').
Proof.
  intros Ok D S.
  destruct (solveBoard_keeps (λ b, digits (rd b))) with depth b r b'
    as [_ D']; try done.
  - intros b0 i j num Ok0 D0 Hi Hj _ Hn _ a c Ha Hc.
    destruct (decide ((i, j) = (a, c))) as [E|NE].
    + inversion E; subst. rewrite rd_wr_same by done. lia.
    + rewrite rd_wr_other by done. by apply D0.
  - intros b0 b1 i j _ _ Hi Hj _ Ok1 D1 a c Ha Hc.
    destruct (decide ((i, j) = (a, c))) as [E|NE].
    + inversion E; subst. rewrite rd_wr_same by done. lia.
    + rewrite rd_wr_other by done. by apply D1.
Qed.

(** Cells that are filled when [solveBoard] is called are never written. *)
Lemma solveBoard_extends depth (b b' : B) r :
  ok b → solveBoard depth b = Some (r, b') → extends (rd b) (rd b').
Proof.
  intros Ok S.
  destruct (solveBoard_keeps (λ x, extends (rd b) (rd x))) with depth b r b'
    as [_ E]; try done.
  - intros b0 i j num Ok0 E0 Hi Hj Z _ _ a c Ha Hc NZ.
    destruct (decide ((i, j) = (a, c))) as [E|NE].
    + inversion E; subst. rewrite <- (E0 a c) in NZ by done. done.
    + rewrite rd_wr_other by done. by apply E0.
  - intros b0 b1 i j Ok0 E0 Hi Hj Z Ok1 E1 a c Ha Hc NZ.
    destruct (decide ((i, j) = (a, c))) as [E|NE].
    + inversion E; subst. by rewrite <- (E0 a c) in NZ.
    + rewrite rd_wr_other by done. by apply E1.
Qed.

(** *** Success fills the grid *)

Definition fills (rec : B → option (bool * B)) : Prop :=
  ∀ b b', rec b = Some (true, b') → full (rd b').

Lemma tryNums_fills rec i j nums :
  fills rec → ∀ b b', tryNums rec i j nums b = Some (true, b') → full (rd b').
Proof.
  intros F. induction nums as [|num more IH]; intros b b' T; [done|].
  simpl in T. destruct (isValid b i j num); [|by apply (IH b)].
  destruct (rec (wr b i j num)) as [[solved b1]|] eqn:E; [|done]. simpl in T.
  destruct solved; [|by apply (IH (wr b1 i j 0))].
  inversion T; subst. by apply (F (wr b i j num)).
Qed.

Lemma scanCells_fills rec todo :
  fills rec → ∀ b b', scanCells rec todo b = Some (true, b') →
    full (rd b') ∨ (b' = b ∧ ∀ i j, (i, j) ∈ todo → rd b i j ≠ 0).
Proof.
  intros F. induction todo as [|[i j] more IH]; intros b b' S.
  { simpl in S. inversion S; subst. right. split; [done|].
    intros i j Hin. by apply elem_of_nil in Hin. }
  cbn [scanCells] in S. destruct (rd b i j =? 0) eqn:Z.
  - left. by apply (tryNums_fills rec i j (seq 1 9) F b).
  - apply Nat.eqb_neq in Z. destruct (IH b b' S) as [|[-> Nz]]; [by left|].
    right. split; [done|]. intros a c Hin.
    apply elem_of_cons in Hin as [E|Hin]; [by inversion E; subst|by apply Nz].
Qed.

Lemma solveBoard_fills depth : fills (solveBoard depth).
Proof.
  induction depth as [|d IH]; intros b b' S; [done|]. cbn [solveBoard] in S.
  destruct (scanCells_fills _ cells IH b b' S) as [|[-> Nz]]; [done|].
  intros i j Hi Hj. apply Nz. by apply elem_of_cells.
Qed.

End Solver.

(** ** The solver, on boards where a write leaves no other trace *)

Section Backtracking.
Context {B : Type} `{BoardExact B}.

(** Undoing a placement gives back the board before it. *)
Lemma undo_place (b : B) i j num :
  ok b → i < 9 → j < 9 → rd b i j = 0 → wr (wr b i j num) i j 0 = b.
Proof. intros Ok Hi Hj Z. rewrite wr_wr by done. by apply wr_same. Qed.

(** *** Failure restores the board *)

Definition restores (rec : B → option (bool * B)) : Prop :=
  ∀ b b', ok b → rec b = Some (false, b') → b' = b.

Lemma tryNums_restores rec i j nums :
  restores rec → i < 9 → j < 9 →
  ∀ b b', ok b → rd b i j = 0 →
    tryNums rec i j nums b = Some (false, b') → b' = b.
Proof.
  intros R Hi Hj. induction nums as [|num more IH]; intros b b' Ok Z T.
  { simpl in T. by inversion T. }
  simpl in T. destruct (isValid b i j num); [|by apply IH].
  destruct (rec (wr b i j num)) as [[solved b1]|] eqn:E; [|done]. simpl in T.
  destruct solved; [done|].
  apply R in E; [|by apply wr_ok]. subst b1.
  rewrite undo_place in T by done. by apply IH.
Qed.

Lemma scanCells_restores rec todo :
  restores rec → (∀ p, p ∈ todo → p ∈ cells) →
  ∀ b b', ok b → scanCells rec todo b = Some (false, b') → b' = b.
Proof.
  intros R. induction todo as [|[i j] more IH]; intros Sub b b' Ok S; [done|].
  cbn [scanCells] in S. destruct (rd b i j =? 0) eqn:Z.
  - apply Nat.eqb_eq in Z.
    assert ((i, j) ∈ cells) as Hc by (apply Sub; left).
    apply elem_of_cells in Hc as [Hi Hj].
    by apply (tryNums_restores rec i j (seq 1 9)).
  - apply IH; [|done|done]. intros p Hp. apply Sub. by right.
Qed.

Lemma solveBoard_restores depth : restores (solveBoard depth).
Proof.
  induction depth as [|d IH]; intros b b' Ok S; [done|].
  by apply (scanCells_restores (solveBoard d) cells).
Qed.

(** *** Depth of the recursion *)

(** With room for [limit] empty cells below it, the loop over the digits
    comes to an end. *)
Definition returns (limit : nat) (rec : B → option (bool * B)) : Prop :=
  ∀ b, ok b → zeros (rd b) < limit → is_Some (rec b).

Lemma tryNums_returns limit rec i j nums :
  returns limit rec → restores rec → i < 9 → j < 9 →
  (∀ num, num ∈ nums → 1 ≤ num ≤ 9) →
  ∀ b, ok b → rd b i j = 0 → zeros (rd b) ≤ limit →
    is_Some (tryNums rec i j nums b).
Proof.
  intros T R Hi Hj. induction nums as [|num more IH]; intros Rg b Ok Z L.
  { by eexists. }
  assert (1 ≤ num ≤ 9) as Hn by (apply Rg; left).
  assert (∀ n, n ∈ more → 1 ≤ n ≤ 9) as Rg' by (intros n Hin; apply Rg; by right).
  simpl. destruct (isValid b i j num); [|by apply IH].
  destruct (T (wr b i j num)) as [[solved b1] E]; [by apply wr_ok| |].
  { pose proof (zeros_fill b i j num Ok Hi Hj Z). lia. }
  rewrite E. simpl. destruct solved; [by eexists|].
  apply R in E; [|by apply wr_ok]. subst b1.
  rewrite undo_place by done. by apply IH.
Qed.

Lemma scanCells_returns limit rec todo :
  returns limit rec → restores rec → (∀ p, p ∈ todo → p ∈ cells) →
  ∀ b, ok b → zeros (rd b) ≤ limit → is_Some (scanCells rec todo b).
Proof.
  intros T R. induction todo as [|[i j] more IH]; intros Sub b Ok L.
  { by eexists. }
  cbn [scanCells]. destruct (rd b i j =? 0) eqn:Z.
  - apply Nat.eqb_eq in Z.
    assert ((i, j) ∈ cells) as Hc by (apply Sub; left).
    apply elem_of_cells in Hc as [Hi Hj].
    apply (tryNums_returns limit); try done. intros num. apply nums_range.
  - apply IH; [|done|done]. intros p Hp. apply Sub. by right.
Qed.

(** One activation for the call and one for every empty cell is enough. *)
Lemma solveBoard_returns depth : returns depth (solveBoard depth).
Proof.
  induction depth as [|d IH]; intros b Ok L; [lia|].
  apply (scanCells_returns d); try done; [apply solveBoard_restores|lia].
Qed.

(** A larger bound on the depth does not change the result. *)
Lemma tryNums_mono (rec rec' : B → option (bool * B)) i j nums :
  (∀ b r, rec b = Some r → rec' b = Some r) →
  ∀ b r, tryNums rec i j nums b = Some r → tryNums rec' i j nums b = Some r.
Proof.
  intros M. induction nums as [|num more IH]; intros b r T; [done|].
  simpl in *. destruct (isValid b i j num); [|by apply IH].
  destruct (rec (wr b i j num)) as [[solved b1]|] eqn:E; [|done].
  rewrite (M _ _ E). simpl in *. destruct solved; [done|by apply IH].
Qed.

Lemma scanCells_mono (rec rec' : B → option (bool * B)) todo :
  (∀ b r, rec b = Some r → rec' b = Some r) →
  ∀ b r, scanCells rec todo b = Some r → scanCells rec' todo b = Some r.
Proof.
  intros M. induction todo as [|[i j] more IH]; intros b r S; [done|].
  cbn [scanCells] in *. destruct (rd b i j =? 0); [by apply (tryNums_mono rec)|by apply IH].
Qed.

Lemma solveBoard_mono d d' (b : B) r :
  d ≤ d' → solveBoard d b = Some r → solveBoard d' b = Some r.
Proof.
  revert d' b r. induction d as [|d IH]; intros d' b r L S; [done|].
  destruct d' as [|d']; [lia|]. cbn [solveBoard] in *.
  apply (scanCells_mono (solveBoard d)); [|done].
  intros b0 r0. apply IH. lia.
Qed.

(** *** Completeness of the search *)

(** If some solution keeps all the filled cells of the board, the search
    succeeds. *)
Definition finds (t : view) (limit : nat) (rec : B → option (bool * B)) : Prop :=
  ∀ b, ok b → zeros (rd b) < limit → extends (rd b) t →
    ∃ b', rec b = Some (true, b').

Lemma tryNums_finds (t : view) limit rec i j nums :
  full t → digits t → consistent t →
  finds t limit rec → returns limit rec → restores rec → i < 9 → j < 9 →
  (∀ num, num ∈ nums → 1 ≤ num ≤ 9) → t i j ∈ nums →
  ∀ b, ok b → rd b i j = 0 → zeros (rd b) ≤ limit → extends (rd b) t →
    ∃ b', tryNums rec i j nums b = Some (true, b').
Proof.
  intros Ft Dt Ct F T R Hi Hj.
  induction nums as [|num more IH]; intros Rg Hin b Ok Z L E.
  { by apply elem_of_nil in Hin. }
  assert (1 ≤ num ≤ 9) as Hn by (apply Rg; left).
  assert (∀ n, n ∈ more → 1 ≤ n ≤ 9) as Rg' by (intros n Hn'; apply Rg; by right).
  assert (zeros (rd (wr b i j num)) < limit) as L'.
  { pose proof (zeros_fill b i j num Ok Hi Hj Z). lia. }
  simpl. destruct (isValid b i j num) eqn:V.
  - destruct (T (wr b i j num)) as [[solved b1] E1]; [by apply wr_ok|done|].
    rewrite E1. simpl. destruct solved; [by eexists|].
    pose proof E1 as E2. apply R in E2; [|by apply wr_ok]. subst b1.
    rewrite undo_place by done.
    apply elem_of_cons in Hin as [Eq|Hin]; [|by apply IH].
    (* the digit of the solution itself cannot fail *)
    exfalso. destruct (F (wr b i j num)) as [b' E']; [by apply wr_ok|done| |congruence].
    intros a c Ha Hc NZ. destruct (decide ((i, j) = (a, c))) as [E2|NE].
    + inversion E2; subst. by rewrite rd_wr_same.
    + rewrite rd_wr_other in * by done. by apply E.
  - apply elem_of_cons in Hin as [Eq|Hin]; [|by apply IH].
    exfalso. subst num.
    assert (isValid b i j (t i j) = true) as V'; [|congruence].
    apply isValid_peers; [done|done|]. intros a c Ha Hc P Eq.
    destruct (decide ((i, j) = (a, c))) as [E2|NE].
    + inversion E2; subst. lia.
    + rewrite consistent_peers in Ct.
      apply (Ct i j a c); try done.
      rewrite <- Eq. symmetry. apply E; [done|done|]. rewrite Eq. lia.
Qed.

Lemma scanCells_finds (t : view) limit rec todo :
  full t → digits t → consistent t →
  finds t limit rec → returns limit rec → restores rec →
  (∀ p, p ∈ todo → p ∈ cells) →
  ∀ b, ok b → zeros (rd b) ≤ limit → extends (rd b) t →
    ∃ b', scanCells rec todo b = Some (true, b').
Proof.
  intros Ft Dt Ct F T R. induction todo as [|[i j] more IH]; intros Sub b Ok L E.
  { by eexists. }
  cbn [scanCells]. destruct (rd b i j =? 0) eqn:Z.
  - apply Nat.eqb_eq in Z.
    assert ((i, j) ∈ cells) as Hc by (apply Sub; left).
    apply elem_of_cells in Hc as [Hi Hj].
    apply (tryNums_finds t limit); try done.
    + intros num. apply nums_range.
    + apply nums_range. specialize (Ft i j Hi Hj). specialize (Dt i j Hi Hj). lia.
  - apply IH; try done. intros p Hp. apply Sub. by right.
Qed.

Lemma solveBoard_finds (t : view) depth :
  full t → digits t → consistent t → finds t depth (solveBoard depth).
Proof.
  intros Ft Dt Ct. induction depth as [|d IH]; intros b Ok L E; [lia|].
  cbn [solveBoard]. apply (scanCells_finds t d); try done.
  - apply solveBoard_returns.
  - apply solveBoard_restores.
  - lia.
Qed.

End Backtracking.

(** ** Seeding and removal, on any lawful board *)

Section Seeding.
Context {B : Type} `{BoardLaws B}.

Lemma drawSafe_spec (b : B) row col draws num rest :
  drawSafe b row col draws = Some (num, rest) →
  isSafeInBox b row col num = true ∧ 1 ≤ num ≤ 9.
Proof.
  induction draws as [|r more IH]; [done|]. cbn [drawSafe].
  destruct (isSafeInBox b row col (r mod 9 + 1)) eqn:S; [|exact IH].
  intros E. inversion E; subst. split; [done|].
  pose proof (Nat.mod_upper_bound r 9). lia.
Qed.

Lemma elem_of_boxOffsets i j : (i, j) ∈ boxOffsets ↔ i < 3 ∧ j < 3.
Proof.
  unfold boxOffsets. rewrite list_elem_of_In, in_flat_map. split.
  - intros (x & Hx & Hin). apply in_map_iff in Hin as (y & E & Hy).
    apply in_seq in Hx, Hy. inversion E; subst. lia.
  - intros [Hi Hj]. exists i. split; [apply in_seq; lia|].
    apply in_map_iff. exists j. split; [done|apply in_seq; lia].
Qed.

(** [fillBox] writes a digit that [isSafeInBox] accepted into a cell of the
    box.  A property kept by such writes is kept by the seeding. *)
Section Invariant.
Variable Inv : B → Prop.
Hypothesis Inv_seed : ∀ b k i j num,
  ok b → Inv b → k < 3 → i < 3 → j < 3 → 1 ≤ num ≤ 9 →
  isSafeInBox b (3 * k) (3 * k) num = true →
  Inv (wr b (3 * k + i) (3 * k + j) num).

Lemma fillCells_keeps k ij :
  k < 3 → (∀ p, p ∈ ij → p ∈ boxOffsets) →
  ∀ b draws b' rest, ok b → Inv b →
    fillCells (3 * k) (3 * k) ij b draws = Some (b', rest) → ok b' ∧ Inv b'.
Proof.
  intros Hk. induction ij as [|[i j] more IH]; intros Sub b draws b' rest Ok I F.
  { simpl in F. by inversion F; subst. }
  cbn [fillCells] in F. apply bind_Some in F as ([num rest1] & D & F).
  apply drawSafe_spec in D as [S Hn].
  assert ((i, j) ∈ boxOffsets) as Hin by (apply Sub; left).
  apply elem_of_boxOffsets in Hin as [Hi Hj].
  apply IH in F; [done| |by apply wr_ok|by apply Inv_seed].
  intros p Hp. apply Sub. by right.
Qed.

Lemma fillDiagonal_keeps (b : B) draws b' rest :
  ok b → Inv b → fillDiagonal b draws = Some (b', rest) → ok b' ∧ Inv b'.
Proof.
  intros Ok I F. unfold fillDiagonal, fillBox in F.
  apply bind_Some in F as ([b1 d1] & F1 & F).
  apply bind_Some in F as ([b2 d2] & F2 & F).
  apply (fillCells_keeps 0) in F1 as [Ok1 I1]; [|lia|done..].
  apply (fillCells_keeps 1) in F2 as [Ok2 I2]; [|lia|done..].
  apply (fillCells_keeps 2) in F as [Ok3 I3]; [done|lia|done..].
Qed.

End Invariant.

(** What the seeding keeps: the grid is consistent, holds digits, and is
    empty outside the three diagonal boxes. *)
Definition seed (f : view) : Prop :=
  consistent f ∧ digits f ∧ diagonalOnly f.

Lemma box_index k i : i < 3 → (3 * k + i) / 3 = k.
Proof.
  intros Hi. rewrite Nat.mul_comm, Nat.div_add_l, Nat.div_small by lia. lia.
Qed.

Lemma diagonal_box k a c i j :
  k < 3 → i < 3 → j < 3 → a < 9 → c < 9 →
  onDiagonal a c → peers (3 * k + i) (3 * k + j) a c →
  ∃ i' j', i' < 3 ∧ j' < 3 ∧ a = 3 * k + i' ∧ c = 3 * k + j'.
Proof.
  unfold onDiagonal, peers. intros Hk Hi Hj Ha Hc D P.
  pose proof (box_index k i Hi) as Ei. pose proof (box_index k j Hj) as Ej.
  assert (a / 3 = k ∧ c / 3 = k) as [Ea Ec].
  { destruct P as [<-|[<-|[E1 E2]]]; lia. }
  exists (a mod 3), (c mod 3).
  pose proof (Nat.div_mod_eq a 3). pose proof (Nat.div_mod_eq c 3).
  pose proof (Nat.mod_upper_bound a 3). pose proof (Nat.mod_upper_bound c 3).
  lia.
Qed.

Lemma seed_write (b : B) k i j num :
  ok b → seed (rd b) → k < 3 → i < 3 → j < 3 → 1 ≤ num ≤ 9 →
  isSafeInBox b (3 * k) (3 * k) num = true →
  seed (rd (wr b (3 * k + i) (3 * k + j) num)).
Proof.
  intros Ok (C & D & O) Hk Hi Hj Hn S.
  rewrite isSafeInBox_spec in S.
  assert (3 * k + i < 9 ∧ 3 * k + j < 9) as [Hr Hc] by lia.
  assert (∀ a c, a < 9 → c < 9 → (3 * k + i, 3 * k + j) ≠ (a, c) →
                 peers (3 * k + i) (3 * k + j) a c → rd b a c ≠ num) as Free.
  { intros a c Ha Hc' NE P E.
    assert (onDiagonal a c) as Da by (apply O; [done|done|lia]).
    destruct (diagonal_box k a c i j) as (i' & j' & Hi' & Hj' & -> & ->);
      try done.
    by apply (S i' j'). }
  split; [|split].
  - rewrite consistent_peers in C |- *.
    intros a c a' c' Ha Hc' Ha' Hc'' NE P Dg.
    destruct (decide ((3 * k + i, 3 * k + j) = (a, c))) as [E|N1].
    + inversion E; subst a c. rewrite rd_wr_same by done.
      rewrite rd_wr_other by done. intros E'. by apply (Free a' c').
    + rewrite (rd_wr_other b _ _ num a c) in * by done.
      destruct (decide ((3 * k + i, 3 * k + j) = (a', c'))) as [E|N2].
      * inversion E; subst a' c'. rewrite rd_wr_same by done.
        apply Free; [done|done|done|by apply peers_sym].
      * rewrite rd_wr_other by done. by apply C.
  - intros a c Ha Hc'.
    destruct (decide ((3 * k + i, 3 * k + j) = (a, c))) as [E|NE].
    + inversion E; subst. rewrite rd_wr_same by done. lia.
    + rewrite rd_wr_other by done. by apply D.
  - intros a c Ha Hc' NZ.
    destruct (decide ((3 * k + i, 3 * k + j) = (a, c))) as [E|NE].
    + assert (a = 3 * k + i ∧ c = 3 * k + j) as [-> ->] by (split; congruence).
      unfold onDiagonal. by rewrite !box_index.
    + rewrite rd_wr_other in NZ by done. by apply O.
Qed.

Lemma fillDiagonal_seed (b : B) draws b' rest :
  ok b → seed (rd b) → fillDiagonal b draws = Some (b', rest) →
  ok b' ∧ seed (rd b').
Proof.
  intros Ok S F.
  apply (fillDiagonal_keeps (λ x, seed (rd x))) with (b := b) (draws := draws)
    (rest := rest); try done.
  intros. by apply seed_write.
Qed.

Lemma empty_seed (f : view) :
  (∀ i j, i < 9 → j < 9 → f i j = 0) → seed f.
Proof.
  intros Z. split; [|split].
  - apply consistent_peers. intros i j i' j' Hi Hj _ _ _ _ D.
    rewrite Z in D by done. lia.
  - intros i j Hi Hj. rewrite Z by done. lia.
  - intros i j Hi Hj NZ. by rewrite Z in NZ.
Qed.

(** A seed leaves at least the 54 cells outside the diagonal boxes empty. *)
Lemma seed_zeros (f : view) : diagonalOnly f → 54 ≤ zeros f.
Proof.
  intros O.
  assert (length (filter (λ p, p.1 / 3 ≠ p.2 / 3) cells) = 54) as <-
    by by vm_compute.
  unfold zeros. apply filter_length_mono.
  intros [i j] Hin N. cbn [fst snd] in *.
  apply elem_of_cells in Hin as [Hi Hj].
  destruct (decide (f i j = 0)) as [|NZ]; [done|].
  destruct N. by apply O.
Qed.

(** *** removeDigits *)

Lemma cellId_range r : r mod 81 / 9 < 9 ∧ (r mod 81) mod 9 < 9.
Proof.
  pose proof (Nat.mod_upper_bound r 81). split.
  - apply Nat.Div0.div_lt_upper_bound. lia.
  - apply Nat.mod_upper_bound. lia.
Qed.

(** A property kept by clearing a cell is kept by [removeDigits]. *)
Lemma removeDigits_keeps (Inv : B → Prop) :
  (∀ b i j, ok b → Inv b → i < 9 → j < 9 → Inv (wr b i j 0)) →
  ∀ draws count b b' rest, ok b → Inv b →
    removeDigits draws count b = Some (b', rest) → ok b' ∧ Inv b'.
Proof.
  intros Clear. induction draws as [|r more IH]; intros count b b' rest Ok I R.
  { destruct count; [|done]. simpl in R. by inversion R; subst. }
  destruct count as [|count]; [simpl in R; by inversion R; subst|].
  cbn [removeDigits] in R. cbv zeta in R.
  destruct (cellId_range r) as [Hi Hj].
  destruct (rd b (r mod 81 / 9) ((r mod 81) mod 9) =? 0).
  - by apply (IH (S count) b b' rest).
  - apply (IH count (wr b (r mod 81 / 9) ((r mod 81) mod 9) 0) b' rest);
      [by apply wr_ok|by apply Clear|done].
Qed.

(** [removeDigits count] empties exactly [count] cells that were filled,
    and changes no other cell. *)
Lemma removeDigits_spec draws count (b b' : B) rest :
  ok b → removeDigits draws count b = Some (b', rest) →
  zeros (rd b') = zeros (rd b) + count ∧
  ∀ i j, i < 9 → j < 9 → rd b' i j ≠ 0 → rd b' i j = rd b i j.
Proof.
  revert count b. induction draws as [|r more IH]; intros count b Ok R.
  { destruct count; [|done]. simpl in R. inversion R; subst. split; [lia|done]. }
  destruct count as [|count].
  { simpl in R. inversion R; subst. split; [lia|done]. }
  cbn [removeDigits] in R. cbv zeta in R.
  destruct (cellId_range r) as [Hi Hj].
  destruct (rd b (r mod 81 / 9) ((r mod 81) mod 9) =? 0) eqn:Z.
  - by apply IH.
  - apply Nat.eqb_neq in Z. apply IH in R as [Zs Keep]; [|by apply wr_ok].
    rewrite zeros_clear in Zs by done. split; [lia|].
    intros i j Hi' Hj' NZ. rewrite (Keep i j Hi' Hj' NZ).
    destruct (decide ((r mod 81 / 9, (r mod 81) mod 9) = (i, j))) as [E|NE].
    + inversion E; subst. rewrite (Keep _ _ Hi' Hj' NZ) in NZ.
      by rewrite rd_wr_same in NZ.
    + by rewrite rd_wr_other.
Qed.

End Seeding.

(** ** Laws of the recording board *)

#[export] Instance loggedLaws {B} `{BoardLaws B} : BoardLaws (logged B).
Proof.
  refine {| ok := λ bl, ok bl.1 |}.
  - intros [b log] i j v Ok. simpl in *. by apply wr_ok.
  - intros [b log] i j v Ok Hi Hj. simpl in *. by apply rd_wr_same.
  - intros [b log] i j v i' j' Ok Hi Hj Hi' Hj' NE. simpl in *.
    by apply rd_wr_other.
Defined.

(** ** Laws of the tracing board *)

#[export] Instance tracedLaws {B} `{BoardLaws B} : BoardLaws (traced B).
Proof.
  refine {| ok := λ tb, ok (t_board tb) |}.
  - intros [b log] i j v Ok. simpl in *. by apply wr_ok.
  - intros [b log] i j v Ok Hi Hj. simpl in *. by apply rd_wr_same.
  - intros [b log] i j v i' j' Ok Hi Hj Hi' Hj' NE. simpl in *.
    by apply rd_wr_other.
Defined.

Section Traced.
Context {B : Type} `{BoardLaws B}.

(** *** A traced run is the run, with its writes listed *)

Definition follows (rec : B → option (bool * B))
  (trec : traced B → option (bool * traced B)) : Prop :=
  ∀ tb r b', rec (t_board tb) = Some (r, b') →
    ∃ log, trec tb = Some (r, Traced b' log).

Lemma tryNums_traced rec trec i j nums :
  follows rec trec →
  ∀ tb r b', tryNums rec i j nums (t_board tb) = Some (r, b') →
    ∃ log, tryNums trec i j nums tb = Some (r, Traced b' log).
Proof.
  intros F. induction nums as [|num more IH]; intros [b log] r b' T.
  { simpl in *. inversion T; subst. by exists log. }
  cbn [tryNums t_board] in *.
  change (isValid (Traced b log) i j num) with (isValid b i j num).
  destruct (isValid b i j num); [|by apply IH].
  destruct (rec (wr b i j num)) as [[solved b1]|] eqn:E; [|done].
  destruct (F (wr (Traced b log) i j num) solved b1) as [log1 E1]; [exact E|].
  rewrite E1. cbn [mbind option_bind] in *.
  destruct solved.
  - inversion T; subst. by exists log1.
  - by apply (IH (wr (Traced b1 log1) i j 0)).
Qed.

Lemma scanCells_traced rec trec todo :
  follows rec trec →
  ∀ tb r b', scanCells rec todo (t_board tb) = Some (r, b') →
    ∃ log, scanCells trec todo tb = Some (r, Traced b' log).
Proof.
  intros F. induction todo as [|[i j] more IH]; intros [b log] r b' S.
  { simpl in *. inversion S; subst. by exists log. }
  cbn [scanCells t_board] in *.
  change (rd (Traced b log) i j) with (rd b i j).
  destruct (rd b i j =? 0).
  - by apply (tryNums_traced rec trec i j _ F (Traced b log)).
  - by apply (IH (Traced b log)).
Qed.

Lemma solveBoard_traced depth : follows (solveBoard depth) (solveBoard depth).
Proof.
  induction depth as [|d IH]; intros tb r b' S; [done|].
  cbn [solveBoard] in *. by apply (scanCells_traced (solveBoard d)).
Qed.

(** *** The writes of the search *)

(** A digit goes into a cell that holds 0, and the only other write puts 0
    into a cell that holds a digit.  Either way the cell was empty in [f],
    the grid at the call. *)
Definition searchWrite (f : view) (w : write) : Prop :=
  w_row w < 9 ∧ w_col w < 9 ∧ f (w_row w) (w_col w) = 0 ∧
  ((w_old w = 0 ∧ 1 ≤ w_new w ≤ 9) ∨ (w_new w = 0 ∧ 1 ≤ w_old w ≤ 9)).

Definition listed (rec : traced B → option (bool * traced B)) : Prop :=
  ∀ tb r tb', ok tb → rec tb = Some (r, tb') →
    ok tb' ∧
    (∃ writes, t_log tb' = writes ++ t_log tb ∧ Forall (searchWrite (rd tb)) writes) ∧
    (∀ i j, i < 9 → j < 9 → rd tb i j ≠ 0 → rd tb' i j = rd tb i j).

Lemma searchWrite_mono (f f' : view) w :
  (∀ i j, i < 9 → j < 9 → f' i j = 0 → f i j = 0) →
  searchWrite f' w → searchWrite f w.
Proof. intros M (Hi & Hj & Z & K). repeat split; try done. by apply M. Qed.

Lemma tryNums_listed rec i j nums :
  listed rec → i < 9 → j < 9 → (∀ num, num ∈ nums → 1 ≤ num ≤ 9) →
  ∀ tb r tb', ok tb → rd tb i j = 0 →
    tryNums rec i j nums tb = Some (r, tb') →
    ok tb' ∧
    (∃ writes, t_log tb' = writes ++ t_log tb ∧ Forall (searchWrite (rd tb)) writes) ∧
    (∀ a c, a < 9 → c < 9 → rd tb a c ≠ 0 → rd tb' a c = rd tb a c).
Proof.
  intros L Hi Hj. induction nums as [|num more IH]; intros R tb r tb' Ok Z T.
  { simpl in T. inversion T; subst. split; [done|]. split; [by exists []|done]. }
  assert (1 ≤ num ≤ 9) as Hn by (apply R; left).
  assert (∀ n, n ∈ more → 1 ≤ n ≤ 9) as R' by (intros n Hin; apply R; by right).
  cbn [tryNums] in T. destruct (isValid tb i j num) eqn:V; [|by apply (IH R' tb r)].
  destruct (rec (wr tb i j num)) as [[solved b1]|] eqn:E; [|done].
  cbn [mbind option_bind] in T.
  assert (ok (wr tb i j num)) as Ok0 by by apply wr_ok.
  destruct (L (wr tb i j num) solved b1 Ok0 E) as (Ok1 & (ws1 & E1 & F1) & K1).
  assert (1 ≤ rd b1 i j ≤ 9) as Held.
  { rewrite (K1 i j Hi Hj); rewrite rd_wr_same by done; lia. }
  assert (∀ a c, a < 9 → c < 9 → rd tb a c ≠ 0 → rd b1 a c = rd tb a c) as Kept.
  { intros a c Ha Hc N.
    assert ((i, j) ≠ (a, c)) as NE by (intros Eq; inversion Eq; subst; done).
    rewrite (K1 a c Ha Hc); [by apply rd_wr_other|].
    by rewrite rd_wr_other. }
  assert (Forall (searchWrite (rd tb)) ws1) as F1'.
  { eapply Forall_impl; [exact F1|]. intros w. apply searchWrite_mono.
    intros a c Ha Hc Z'. destruct (decide ((i, j) = (a, c))) as [Eq|NE].
    - inversion Eq; subst. done.
    - by rewrite rd_wr_other in Z'. }
  assert (searchWrite (rd tb)
            {| w_row := i; w_col := j; w_old := rd (t_board tb) i j; w_new := num |})
    as W0.
  { repeat split; cbn; try done. left. split; [exact Z|done]. }
  destruct solved.
  { inversion T; subst. split; [done|]. split; [|done].
    exists (ws1 ++ [{| w_row := i; w_col := j; w_old := rd (t_board tb) i j;
                       w_new := num |}]).
    split; [rewrite E1; cbn [wr tracedBoard t_log]; by rewrite <- app_assoc|].
    apply Forall_app. split; [done|by constructor]. }
  assert (ok (wr b1 i j 0)) as Ok2 by by apply wr_ok.
  destruct (IH R' (wr b1 i j 0) r tb' Ok2) as (Ok' & (ws2 & E2 & F2) & K2);
    [by apply rd_wr_same|done|].
  assert (∀ a c, a < 9 → c < 9 → rd tb a c ≠ 0 →
            rd (wr b1 i j 0) a c = rd tb a c) as Kept2.
  { intros a c Ha Hc N.
    assert ((i, j) ≠ (a, c)) as NE by (intros Eq; inversion Eq; subst; done).
    rewrite rd_wr_other by done. by apply Kept. }
  split; [done|]. split.
  - exists (ws2 ++ {| w_row := i; w_col := j; w_old := rd (t_board b1) i j; w_new := 0 |}
              :: ws1 ++ [{| w_row := i; w_col := j; w_old := rd (t_board tb) i j;
                            w_new := num |}]).
    split.
    + rewrite E2. cbn [wr tracedBoard t_log]. rewrite E1. cbn [wr tracedBoard t_log].
      rewrite <- app_assoc. cbn [app]. by rewrite <- app_assoc.
    + apply Forall_app. split.
      * eapply Forall_impl; [exact F2|]. intros w. apply searchWrite_mono.
        intros a c Ha Hc Z'. destruct (decide (rd tb a c = 0)) as [|N]; [done|].
        rewrite Kept2 in Z' by done. done.
      * constructor.
        -- repeat split; cbn; try done. right. split; [done|].
           exact Held.
        -- apply Forall_app. split; [done|by constructor].
  - intros a c Ha Hc N. rewrite (K2 a c Ha Hc); [by apply Kept2|].
    by rewrite Kept2.
Qed.

Lemma scanCells_listed rec todo :
  listed rec → (∀ p, p ∈ todo → p ∈ cells) →
  ∀ tb r tb', ok tb → scanCells rec todo tb = Some (r, tb') →
    ok tb' ∧
    (∃ writes, t_log tb' = writes ++ t_log tb ∧ Forall (searchWrite (rd tb)) writes) ∧
    (∀ a c, a < 9 → c < 9 → rd tb a c ≠ 0 → rd tb' a c = rd tb a c).
Proof.
  intros L. induction todo as [|[i j] more IH]; intros Sub tb r tb' Ok S.
  { simpl in S. inversion S; subst. split; [done|]. split; [by exists []|done]. }
  cbn [scanCells] in S. destruct (rd tb i j =? 0) eqn:Z.
  - apply Nat.eqb_eq in Z.
    assert ((i, j) ∈ cells) as Hc by (apply Sub; left).
    apply elem_of_cells in Hc as [Hi Hj].
    apply (tryNums_listed rec i j (seq 1 9) L Hi Hj) with (r := r); try done.
    intros num. apply nums_range.
  - apply (IH ltac:(intros p Hp; apply Sub; by right) tb r); done.
Qed.

Lemma solveBoard_listed depth : listed (solveBoard depth).
Proof.
  induction depth as [|d IH]; intros tb r tb' Ok S; [done|].
  cbn [solveBoard] in S. by apply (scanCells_listed (solveBoard d) cells IH) with (r := r).
Qed.

End Traced.

(** ** Laws of the plain matrix *)

Definition gridOk (g : grid) : Prop :=
  length g = 9 ∧ Forall (λ row, length row = 9) g.

Lemma grid_row (g : grid) i :
  gridOk g → i < 9 → g !! i = Some (nth i g []) ∧ length (nth i g []) = 9.
Proof.
  intros [L R] Hi. destruct (lookup_lt_is_Some_2 g i) as [row E]; [lia|].
  rewrite nth_lookup, E. split; [done|].
  rewrite Forall_forall in R. apply R. by apply list_elem_of_lookup_2 in E.
Qed.

Lemma grid_rd_insert (g : grid) i row j :
  i < length g → rd (<[i := row]> g) i j = nth j row 0.
Proof.
  intros Hi. cbn [rd gridBoard].
  by rewrite (nth_lookup (<[i:=row]> g)), list_lookup_insert_eq.
Qed.

Lemma gridOk_wr (g : grid) i j v : gridOk g → gridOk (wr g i j v).
Proof.
  intros [L R]. cbn [wr gridBoard].
  destruct (decide (i < length g)) as [Hi|Hi];
    [|by rewrite list_insert_ge by lia].
  split; [by rewrite length_insert|].
  apply Forall_insert; [done|]. rewrite length_insert.
  by destruct (grid_row g i) as [_ ?]; [|lia|].
Qed.

Lemma grid_rd_wr_same (g : grid) i j v :
  gridOk g → i < 9 → j < 9 → rd (wr g i j v) i j = v.
Proof.
  intros Ok Hi Hj. destruct (grid_row g i Ok Hi) as [E Lr].
  cbn [wr gridBoard]. rewrite grid_rd_insert by (destruct Ok; lia).
  by rewrite nth_lookup, list_lookup_insert_eq by lia.
Qed.

Lemma grid_rd_wr_other (g : grid) i j v i' j' :
  gridOk g → i < 9 → j < 9 → i' < 9 → j' < 9 → (i, j) ≠ (i', j') →
  rd (wr g i j v) i' j' = rd g i' j'.
Proof.
  intros Ok Hi Hj Hi' Hj' NE. cbn [wr rd gridBoard].
  destruct (decide (i = i')) as [<-|Ni].
  - rewrite (nth_lookup (<[i:=_]> g)), list_lookup_insert_eq by (destruct Ok; lia).
    unfold default; cbn [from_option id]. rewrite (nth_lookup (<[j:=v]> _)).
    rewrite list_lookup_insert_ne by congruence. by rewrite <- nth_lookup.
  - by rewrite (nth_lookup (<[i:=_]> g)), list_lookup_insert_ne, <- nth_lookup.
Qed.

#[export] Instance gridLaws : BoardLaws grid := {|
  ok := gridOk;
  wr_ok := gridOk_wr;
  rd_wr_same := grid_rd_wr_same;
  rd_wr_other := grid_rd_wr_other
|}.

Lemma grid_wr_same (g : grid) i j v :
  gridOk g → i < 9 → j < 9 → rd g i j = v → wr g i j v = g.
Proof.
  intros Ok Hi Hj E. destruct (grid_row g i Ok Hi) as [Er Lr].
  cbn [wr rd gridBoard] in *. apply list_insert_id. rewrite Er. f_equal.
  symmetry. apply list_insert_id. rewrite <- E.
  destruct (lookup_lt_is_Some_2 (nth i g []) j) as [x Ex]; [lia|].
  by rewrite (nth_lookup (nth i g [])), Ex.
Qed.

Lemma grid_wr_wr (g : grid) i j v w :
  gridOk g → i < 9 → j < 9 → wr (wr g i j v) i j w = wr g i j w.
Proof.
  intros Ok Hi Hj. cbn [wr gridBoard].
  rewrite (nth_lookup (<[i:=_]> g)), list_lookup_insert_eq by (destruct Ok; lia).
  unfold default; cbn [from_option id]. by rewrite !list_insert_insert_eq.
Qed.

#[export] Instance gridExact : BoardExact grid := {|
  wr_same := grid_wr_same;
  wr_wr := grid_wr_wr
|}.

Lemma emptyGrid_ok : gridOk emptyGrid.
Proof. split; [done|]. by repeat constructor. Qed.

(** ** Laws of a board in the heap *)

(** [boardAt h b rows]: in [h], [b] is an outer array of the nine distinct
    row objects [rows], each an array of nine numbers. *)
Definition boardAt (h : heap) (b : loc) (rows : list loc) : Prop :=
  h !! b = Some (VRef <$> rows) ∧ length rows = 9 ∧ NoDup rows ∧ (b ∉ rows) ∧
  (∀ r, r ∈ rows → ∃ ns : list nat, h !! r = Some (VNum <$> ns) ∧ length ns = 9).

#[export] Instance VNum_inj : Inj (=) (=) VNum.
Proof. by intros x y [= ->]. Qed.

Lemma boardAt_row h b rows i :
  boardAt h b rows → i < 9 →
  ∃ r ns, rows !! i = Some r ∧ h !! r = Some (VNum <$> ns) ∧ length ns = 9.
Proof.
  intros (Hb & L & ND & Nb & Rows) Hi.
  destruct (lookup_lt_is_Some_2 rows i) as [r Er]; [lia|].
  destruct (Rows r) as (ns & Hr & Ln); [by apply list_elem_of_lookup_2 in Er|].
  eauto.
Qed.

Lemma heapRd_row h b rows i j r ns :
  boardAt h b rows → rows !! i = Some r → h !! r = Some (VNum <$> ns) →
  heapRd b h i j = default 0 (ns !! j).
Proof.
  intros (Hb & _) Er Hr. unfold heapRd.
  rewrite Hb, list_lookup_fmap, Er. cbn. rewrite Hr, list_lookup_fmap.
  by destruct (ns !! j).
Qed.

Lemma heapWr_row h b rows i j v r ns :
  boardAt h b rows → rows !! i = Some r → h !! r = Some (VNum <$> ns) →
  heapWr b h i j v = <[r := VNum <$> <[j := v]> ns]> h.
Proof.
  intros (Hb & _) Er Hr. unfold heapWr.
  rewrite Hb, list_lookup_fmap, Er. cbn. rewrite Hr.
  by rewrite list_fmap_insert.
Qed.

(** A write outside the nine rows changes nothing. *)
Lemma heapWr_out h b rows i j v :
  boardAt h b rows → 9 ≤ i → heapWr b h i j v = h.
Proof.
  intros (Hb & L & _) Hi. unfold heapWr.
  rewrite Hb, list_lookup_fmap, (lookup_ge_None_2 rows) by lia. done.
Qed.

Lemma boardAt_set_row h b rows r ns :
  boardAt h b rows → r ∈ rows → length ns = 9 →
  boardAt (<[r := VNum <$> ns]> h) b rows.
Proof.
  intros (Hb & L & ND & Nb & Rows) Hr Ln. repeat split; try done.
  - rewrite lookup_insert_ne; [done|]. intros ->. done.
  - intros r' Hr'. destruct (decide (r = r')) as [<-|NE].
    + exists ns. by rewrite lookup_insert_eq.
    + rewrite lookup_insert_ne by done. by apply Rows.
Qed.

Lemma heap_wr_ok b rows h i j v :
  boardAt h b rows → boardAt (heapWr b h i j v) b rows.
Proof.
  intros Ok. destruct (decide (i < 9)) as [Hi|Hi];
    [|by rewrite (heapWr_out h b rows) by (done || lia)].
  destruct (boardAt_row h b rows i Ok Hi) as (r & ns & Er & Hr & Ln).
  rewrite (heapWr_row h b rows i j v r ns) by done.
  apply boardAt_set_row; [done| |by rewrite length_insert].
  by apply list_elem_of_lookup_2 in Er.
Qed.

Lemma heap_rd_wr_same b rows h i j v :
  boardAt h b rows → i < 9 → j < 9 → heapRd b (heapWr b h i j v) i j = v.
Proof.
  intros Ok Hi Hj.
  destruct (boardAt_row h b rows i Ok Hi) as (r & ns & Er & Hr & Ln).
  pose proof (heap_wr_ok b rows h i j v Ok) as Ok'.
  rewrite (heapWr_row h b rows i j v r ns) in * by done.
  rewrite (heapRd_row _ b rows i j r (<[j := v]> ns)); try done.
  - by rewrite list_lookup_insert_eq by lia.
  - by rewrite lookup_insert_eq.
Qed.

Lemma heap_rd_wr_other b rows h i j v i' j' :
  boardAt h b rows → i < 9 → j < 9 → i' < 9 → j' < 9 → (i, j) ≠ (i', j') →
  heapRd b (heapWr b h i j v) i' j' = heapRd b h i' j'.
Proof.
  intros Ok Hi Hj Hi' Hj' NE.
  destruct (boardAt_row h b rows i Ok Hi) as (r & ns & Er & Hr & Ln).
  destruct (boardAt_row h b rows i' Ok Hi') as (r' & ns' & Er' & Hr' & Ln').
  pose proof (heap_wr_ok b rows h i j v Ok) as Ok'.
  rewrite (heapWr_row h b rows i j v r ns) in * by done.
  rewrite (heapRd_row h b rows i' j' r' ns') by done.
  destruct (decide (i = i')) as [<-|Ni].
  - assert (r' = r) as -> by congruence. assert (ns' = ns) as ->.
    { rewrite Hr in Hr'. inversion Hr' as [E]. by apply (inj (fmap VNum)) in E. }
    rewrite (heapRd_row _ b rows i j' r (<[j := v]> ns)); try done.
    + rewrite list_lookup_insert_ne; [done|congruence].
    + by rewrite lookup_insert_eq.
  - assert (r ≠ r') as Nr.
    { intros <-. destruct Ok as (_ & _ & ND & _).
      apply Ni. by apply (NoDup_lookup rows i i' r). }
    rewrite (heapRd_row _ b rows i' j' r' ns'); try done.
    by rewrite lookup_insert_ne.
Qed.

Definition heapLaws (b : loc) (rows : list loc) : @BoardLaws heap (heapBoard b) :=
  @Build_BoardLaws heap (heapBoard b) (λ h, boardAt h b rows)
    (heap_wr_ok b rows) (heap_rd_wr_same b rows) (heap_rd_wr_other b rows).

Lemma heap_wr_same b rows h i j v :
  boardAt h b rows → i < 9 → j < 9 → heapRd b h i j = v → heapWr b h i j v = h.
Proof.
  intros Ok Hi Hj E.
  destruct (boardAt_row h b rows i Ok Hi) as (r & ns & Er & Hr & Ln).
  rewrite (heapWr_row h b rows i j v r ns) by done.
  rewrite (heapRd_row h b rows i j r ns) in E by done.
  destruct (lookup_lt_is_Some_2 ns j) as [x Ex]; [lia|].
  rewrite Ex in E. cbn in E. subst x.
  rewrite list_insert_id by done. by apply insert_id.
Qed.

Lemma heap_wr_wr b rows h i j v w :
  boardAt h b rows → i < 9 → j < 9 →
  heapWr b (heapWr b h i j v) i j w = heapWr b h i j w.
Proof.
  intros Ok Hi Hj.
  destruct (boardAt_row h b rows i Ok Hi) as (r & ns & Er & Hr & Ln).
  pose proof (heap_wr_ok b rows h i j v Ok) as Ok'.
  rewrite (heapWr_row h b rows i j v r ns) in * by done.
  rewrite (heapWr_row _ b rows i j w r (<[j := v]> ns)); try done.
  - rewrite (heapWr_row h b rows i j w r ns) by done.
    by rewrite insert_insert_eq, list_insert_insert_eq.
  - by rewrite lookup_insert_eq.
Qed.

Definition heapExact (b : loc) (rows : list loc)
  : @BoardExact heap (heapBoard b) (heapLaws b rows) :=
  @Build_BoardExact heap (heapBoard b) (heapLaws b rows)
    (heap_wr_same b rows) (heap_wr_wr b rows).

(** Writes to a board change its row objects and nothing else. *)
Lemma heapWr_frame b rows h i j v l :
  boardAt h b rows → l ∉ rows → heapWr b h i j v !! l = h !! l.
Proof.
  intros Ok Nl. destruct (decide (i < 9)) as [Hi|Hi];
    [|by rewrite (heapWr_out h b rows) by (done || lia)].
  destruct (boardAt_row h b rows i Ok Hi) as (r & ns & Er & Hr & Ln).
  rewrite (heapWr_row h b rows i j v r ns) by done.
  apply lookup_insert_ne. intros <-. apply Nl.
  by apply list_elem_of_lookup_2 in Er.
Qed.

(** ** Allocation and copy *)

Lemma alloc_spec (h : heap) arr l h' :
  alloc h arr = (l, h') → h !! l = None ∧ h' = <[l := arr]> h.
Proof.
  unfold alloc. intros [= <- <-]. split; [|done].
  apply not_elem_of_dom, is_fresh.
Qed.

(** A board and its contents only depend on its own ten objects. *)
Lemma boardAt_frame (h h' : heap) b rows :
  boardAt h b rows → (∀ l, l = b ∨ l ∈ rows → h' !! l = h !! l) →
  boardAt h' b rows.
Proof.
  intros (Hb & L & ND & Nb & Rows) Same. repeat split; try done.
  - rewrite Same; [done|by left].
  - intros r Hr. rewrite Same by by right. by apply Rows.
Qed.

Lemma heapRd_frame (h h' : heap) b rows i j :
  boardAt h b rows → (∀ l, l = b ∨ l ∈ rows → h' !! l = h !! l) →
  heapRd b h' i j = heapRd b h i j.
Proof.
  intros Ok Same. destruct Ok as (Hb & L & ND & Nb & Rows).
  unfold heapRd. rewrite (Same b) by by left. rewrite Hb, list_lookup_fmap.
  destruct (rows !! i) as [r|] eqn:Er; [|done]. cbn.
  rewrite Same; [done|]. right. by apply list_elem_of_lookup_2 in Er.
Qed.

Lemma allocRows_spec n (h : heap) rs h' :
  allocRows n h = (rs, h') →
  length rs = n ∧ NoDup rs ∧
  (∀ r, r ∈ rs → h !! r = None ∧ h' !! r = Some (replicate 9 (VNum 0))) ∧
  (∀ l, l ∉ rs → h' !! l = h !! l).
Proof.
  revert h rs h'. induction n as [|n IH]; intros h rs h' A.
  { inversion A; subst. split; [done|]. split; [constructor|]. split; [|done].
    intros r Hr. by apply elem_of_nil in Hr. }
  cbn [allocRows] in A.
  destruct (alloc h (replicate 9 (VNum 0))) as [r h1] eqn:A1.
  destruct (allocRows n h1) as [rs' h2] eqn:A2.
  inversion A; subst rs h'. clear A.
  apply alloc_spec in A1 as [Fr ->].
  apply IH in A2 as (L & ND & New & Old).
  assert (r ∉ rs') as Nr.
  { intros Hin. destruct (New r Hin) as [E _]. by rewrite lookup_insert_eq in E. }
  split; [simpl; lia|]. split; [by constructor|]. split.
  - intros r0 Hr0. apply elem_of_cons in Hr0 as [->|Hin].
    + split; [done|]. by rewrite Old, lookup_insert_eq.
    + destruct (New r0 Hin) as [E E']. split; [|done].
      destruct (decide (r = r0)) as [->|NE]; [by rewrite lookup_insert_eq in E|].
      by rewrite lookup_insert_ne in E.
  - intros l Hl. rewrite not_elem_of_cons in Hl. destruct Hl as [N1 N2].
    rewrite Old by done. by rewrite lookup_insert_ne.
Qed.

(** The reset: a board of fresh objects, all cells 0, nothing else
    touched. *)
Lemma newBoard_spec (h : heap) b h' :
  newBoard h = (b, h') →
  ∃ rows, boardAt h' b rows ∧
    (∀ l, l = b ∨ l ∈ rows → h !! l = None) ∧
    (∀ l, l ≠ b → l ∉ rows → h' !! l = h !! l) ∧
    (∀ i j, i < 9 → j < 9 → heapRd b h' i j = 0).
Proof.
  unfold newBoard. destruct (allocRows 9 h) as [rows h1] eqn:A. intros N.
  apply alloc_spec in N as [Fr ->].
  apply allocRows_spec in A as (L & ND & New & Old).
  assert (b ∉ rows) as Nb.
  { intros Hin. destruct (New b Hin) as [_ E]. congruence. }
  assert (boardAt (<[b:=VRef <$> rows]> h1) b rows) as Ok.
  { repeat split; try done; [by rewrite lookup_insert_eq|].
    intros r Hr. exists (replicate 9 0). split; [|by rewrite length_replicate].
    rewrite lookup_insert_ne by (by intros ->).
    destruct (New r Hr) as [_ ->]. by rewrite fmap_replicate. }
  exists rows. split; [done|]. split; [|split].
  - intros l [->|Hin]; [|by destruct (New l Hin)].
    by rewrite <- Old.
  - intros l N1 N2. rewrite lookup_insert_ne by done. by apply Old.
  - intros i j Hi Hj.
    destruct (boardAt_row _ b rows i Ok Hi) as (r & ns & Er & Hr & Ln).
    rewrite (heapRd_row _ b rows i j r ns) by done.
    assert (r ∈ rows) as Hin by by apply list_elem_of_lookup_2 in Er.
    rewrite lookup_insert_ne in Hr by (by intros ->).
    destruct (New r Hin) as [_ E]. rewrite E in Hr.
    assert (ns = replicate 9 0) as ->.
    { apply (inj (fmap VNum)). rewrite fmap_replicate. congruence. }
    by rewrite lookup_replicate_2.
Qed.

Lemma copyRows_spec (rows : list loc) (h : heap) :
  (∀ r, r ∈ rows → is_Some (h !! r)) →
  ∃ rs h', copyRows (VRef <$> rows) h = Some (rs, h') ∧
    length rs = length rows ∧ NoDup rs ∧
    (∀ r, r ∈ rs → h !! r = None) ∧
    (∀ l, l ∉ rs → h' !! l = h !! l) ∧
    (∀ k r0, rows !! k = Some r0 → ∃ r, rs !! k = Some r ∧ h' !! r = h !! r0).
Proof.
  revert h. induction rows as [|r0 rows IH]; intros h Src.
  { exists [], h. split; [done|]. split; [done|]. split; [constructor|].
    split; [|done]. intros r Hr. by apply elem_of_nil in Hr. }
  destruct (Src r0) as [row Er0]; [left|].
  cbn [fmap list_fmap copyRows]. rewrite Er0. cbn [mbind option_bind].
  destruct (alloc h row) as [r h1] eqn:A. apply alloc_spec in A as [Fr ->].
  destruct (IH (<[r:=row]> h)) as (rs & h2 & C & L & ND & New & Old & Cp).
  { intros r1 Hr1. destruct (decide (r = r1)) as [->|NE].
    - by rewrite lookup_insert_eq.
    - rewrite lookup_insert_ne by done. apply Src. by right. }
  fold (fmap (M := list) VRef rows). rewrite C. cbn.
  assert (r ∉ rs) as Nr.
  { intros Hin. specialize (New r Hin). by rewrite lookup_insert_eq in New. }
  exists (r :: rs), h2.
  split; [done|]. split; [simpl; lia|]. split; [by constructor|].
  split; [|split].
  - intros r1 Hr1. apply elem_of_cons in Hr1 as [->|Hin]; [done|].
    specialize (New r1 Hin).
    destruct (decide (r = r1)) as [->|NE]; [by rewrite lookup_insert_eq in New|].
    by rewrite lookup_insert_ne in New.
  - intros l Hl. rewrite not_elem_of_cons in Hl. destruct Hl as [N1 N2].
    rewrite Old by done. by rewrite lookup_insert_ne.
  - intros [|k] r1 E.
    + cbn in E. injection E as <-. exists r. split; [done|].
      by rewrite Old, lookup_insert_eq.
    + cbn in E. destruct (Cp k r1 E) as (r' & E' & Hc).
      exists r'. split; [done|]. rewrite Hc.
      apply lookup_insert_ne. intros Heq.
      destruct (Src r1) as [x Ex]; [right; by apply list_elem_of_lookup_2 in E|].
      congruence.
Qed.

(** The copy: a board of fresh objects with the same contents; the board
    copied and everything else stay as they are. *)
Lemma copyBoard_spec (h : heap) b rows :
  boardAt h b rows →
  ∃ s h' rows', copyBoard b h = Some (s, h') ∧ boardAt h' s rows' ∧
    (∀ l, l = s ∨ l ∈ rows' → h !! l = None) ∧
    (∀ l, l ≠ s → l ∉ rows' → h' !! l = h !! l) ∧
    (∀ i j, heapRd s h' i j = heapRd b h i j).
Proof.
  intros Ok. pose proof Ok as (Hb & L & ND & Nb & Rows).
  destruct (copyRows_spec rows h) as (rs & h1 & C & Lr & NDr & New & Old & Cp).
  { intros r Hr. destruct (Rows r Hr) as (ns & -> & _). by eexists. }
  unfold copyBoard. rewrite Hb. cbn [mbind option_bind]. rewrite C. cbn.
  destruct (alloc h1 (VRef <$> rs)) as [s h2] eqn:A.
  apply alloc_spec in A as [Fr ->].
  assert (s ∉ rs) as Ns.
  { intros Hin. destruct (list_elem_of_lookup_1 rs s Hin) as [k Ek].
    destruct (lookup_lt_is_Some_2 rows k) as [r0 E0].
    { rewrite <- Lr. by apply lookup_lt_Some in Ek. }
    destruct (Cp k r0 E0) as (r & Er & Hc). assert (r = s) as -> by congruence.
    destruct (Rows r0) as (ns & E & _); [by apply list_elem_of_lookup_2 in E0|].
    congruence. }
  assert (h !! s = None) as Fs by by rewrite <- Old.
  exists s, (<[s:=VRef <$> rs]> h1), rs.
  assert (boardAt (<[s:=VRef <$> rs]> h1) s rs) as Ok'.
  { repeat split; try done; [by rewrite lookup_insert_eq|lia|].
    intros r Hr. destruct (list_elem_of_lookup_1 rs r Hr) as [k Ek].
    destruct (lookup_lt_is_Some_2 rows k) as [r0 E0].
    { rewrite <- Lr. by apply lookup_lt_Some in Ek. }
    destruct (Cp k r0 E0) as (r' & Er & Hc). assert (r' = r) as -> by congruence.
    destruct (Rows r0) as (ns & E & Ln); [by apply list_elem_of_lookup_2 in E0|].
    exists ns. split; [|done].
    rewrite lookup_insert_ne by (by intros ->). by rewrite Hc. }
  split; [done|]. split; [done|]. split; [|split].
  - intros l [->|Hin]; [done|by apply New].
  - intros l N1 N2. rewrite lookup_insert_ne by done. by apply Old.
  - intros i j. unfold heapRd at 1. rewrite lookup_insert_eq, list_lookup_fmap.
    unfold heapRd. rewrite Hb, list_lookup_fmap.
    destruct (rows !! i) as [r0|] eqn:E0.
    + destruct (Cp i r0 E0) as (r & Er & Hc). rewrite Er. cbn.
      rewrite lookup_insert_ne, Hc; [done|].
      intros <-. apply Ns. by apply list_elem_of_lookup_2 in Er.
    + rewrite (lookup_ge_None_2 rs); [done|].
      rewrite Lr. by apply lookup_ge_None.
Qed.

(** ** Views that agree *)

Lemma valuesAt_ext (f g : view) u :
  (∀ i j, f i j = g i j) → valuesAt f u = valuesAt g u.
Proof. intros E. unfold valuesAt. apply map_ext. intros [i j]. apply E. Qed.

Lemma isSolution_ext (f g : view) :
  (∀ i j, f i j = g i j) → isSolution f → isSolution g.
Proof.
  intros E [F S]. split.
  - intros i j Hi Hj. rewrite <- E. by apply F.
  - intros u d Hu Hd. rewrite <- (valuesAt_ext f g u E). by apply S.
Qed.

Lemma consistent_ext (f g : view) :
  (∀ i j, f i j = g i j) → consistent f → consistent g.
Proof.
  intros E C u d Hu Hd. rewrite <- (valuesAt_ext f g u E). by apply C.
Qed.

Lemma zeros_ext (f g : view) : (∀ i j, f i j = g i j) → zeros f = zeros g.
Proof.
  intros E. unfold zeros. f_equal. apply list_filter_iff.
  intros [i j]. cbn. by rewrite E.
Qed.

Lemma full_zeros (f : view) : full f → zeros f = 0.
Proof.
  intros F.
  assert (length (filter (λ _ : nat * nat, False) cells) = 0) as E by done.
  enough (zeros f ≤ length (filter (λ _ : nat * nat, False) cells)) by lia.
  apply filter_length_mono. intros [i j] Hin Z.
  apply elem_of_cells in Hin as [Hi Hj]. by apply (F i j).
Qed.

Lemma attemptsFor_range d : 30 ≤ attemptsFor d ≤ 50.
Proof.
  unfold attemptsFor.
  destruct (strictEqStr d "Easy"), (strictEqStr d "Hard"); lia.
Qed.

(** ** The generator's functions touch the rows of its board only *)

Section HeapFrame.
Variables (b : loc) (rows : list loc).

Let sameOutside (h0 h : heap) : Prop := ∀ l, l ∉ rows → h !! l = h0 !! l.

Lemma sameOutside_wr h0 h i j v :
  boardAt h b rows → sameOutside h0 h → sameOutside h0 (heapWr b h i j v).
Proof.
  intros Ok Same l Hl. rewrite (heapWr_frame b rows) by done. by apply Same.
Qed.

Lemma heap_fill_frame h draws h' rest :
  boardAt h b rows →
  fillDiagonal (H := heapBoard b) h draws = Some (h', rest) →
  boardAt h' b rows ∧ ∀ l, l ∉ rows → h' !! l = h !! l.
Proof.
  intros Ok F.
  apply (fillDiagonal_keeps (H0 := heapLaws b rows) (sameOutside h))
    with (b := h) (draws := draws) (rest := rest); try done.
  intros. by apply sameOutside_wr.
Qed.

Lemma heap_solve_frame depth h r h' :
  boardAt h b rows →
  solveBoard (H := heapBoard b) depth h = Some (r, h') →
  boardAt h' b rows ∧ ∀ l, l ∉ rows → h' !! l = h !! l.
Proof.
  intros Ok S.
  apply (solveBoard_keeps (H0 := heapLaws b rows) (sameOutside h))
    with (depth := depth) (b := h) (r := r); try done.
  - intros. by apply sameOutside_wr.
  - intros. by apply sameOutside_wr.
Qed.

Lemma heap_remove_frame draws count h h' rest :
  boardAt h b rows →
  removeDigits (H := heapBoard b) draws count h = Some (h', rest) →
  boardAt h' b rows ∧ ∀ l, l ∉ rows → h' !! l = h !! l.
Proof.
  intros Ok R.
  apply (removeDigits_keeps (H0 := heapLaws b rows) (sameOutside h))
    with (draws := draws) (count := count) (b := h) (rest := rest); try done.
  intros. by apply sameOutside_wr.
Qed.

End HeapFrame.

(** ** Anatomy of a run of generateNewGame *)

(** What a completed call leaves behind: the two boards returned are made
    of twenty objects created by the call; the solution is the result of a
    successful search, and the puzzle is the solution with cells cleared. *)
Lemma generateNewGame_run d draws this h g this' h' rest :
  generateNewGame d draws this h = Some (g, this', h', rest) →
  ∃ rowsB rowsS,
    this' = {| this_size := this_size this; this_board := initial g;
               this_solution := Some (solution g) |} ∧
    boardAt h' (initial g) rowsB ∧ boardAt h' (solution g) rowsS ∧
    (∀ l, l = initial g ∨ l ∈ rowsB ∨ l = solution g ∨ l ∈ rowsS →
          h !! l = None) ∧
    (initial g ≠ solution g ∧ (initial g ∉ rowsS) ∧ (solution g ∉ rowsB) ∧
     (∀ l, l ∈ rowsB → l ∉ rowsS)) ∧
    (∀ l, is_Some (h !! l) → h' !! l = h !! l) ∧
    isSolution (heapRd (solution g) h') ∧
    zeros (heapRd (initial g) h') = attemptsFor (defaultMedium d) ∧
    (∀ i j, i < 9 → j < 9 → heapRd (initial g) h' i j ≠ 0 →
            heapRd (initial g) h' i j = heapRd (solution g) h' i j).
Proof.
  unfold generateNewGame. destruct (newBoard h) as [b h1] eqn:N.
  cbn [this_board this_size this_solution]. intros G.
  apply bind_Some in G as ([h2 d2] & FD & G).
  apply bind_Some in G as ([r h3] & SB & G).
  apply bind_Some in G as ([s h4] & CB & G).
  apply bind_Some in G as ([h5 d5] & RD & G).
  cbn in G. inversion G; subst g this' h' rest. clear G. cbn [initial solution].
  (* reset *)
  apply newBoard_spec in N as (rowsB & Ok1 & Fresh1 & Old1 & Zero1).
  pose proof (empty_seed _ Zero1) as Seed1.
  (* seeding *)
  destruct (fillDiagonal_seed (H0 := heapLaws b rowsB) h1 draws h2 d2)
    as [Ok2 Seed2]; try done.
  destruct (heap_fill_frame b rowsB h1 draws h2 d2) as [_ Fr2]; try done.
  (* search *)
  destruct Seed2 as (C2 & D2 & O2).
  pose proof (solveBoard_consistent (H0 := heapLaws b rowsB)
                callDepth h2 h3 r Ok2 C2 SB) as C3.
  pose proof (solveBoard_digits (H0 := heapLaws b rowsB)
                callDepth h2 h3 r Ok2 D2 SB) as D3.
  destruct (heap_solve_frame b rowsB callDepth h2 r h3) as [Ok3 Fr3]; try done.
  (* copy *)
  destruct (copyBoard_spec h3 b rowsB Ok3)
    as (s' & h4' & rowsS & CB' & OkS & FreshS & OldS & Copy).
  rewrite CB in CB'. inversion CB'; subst s' h4'. clear CB'.
  assert (s ≠ b) as Nsb.
  { intros ->. destruct Ok3 as (Hb & _). rewrite FreshS in Hb; [done|by left]. }
  assert (∀ l, l ∈ rowsB → l ≠ s ∧ l ∉ rowsS) as Sep.
  { intros l Hl. destruct Ok3 as (_ & _ & _ & _ & Rows).
    destruct (Rows l Hl) as (ns & E & _).
    split; [intros ->|intros Hin]; rewrite FreshS in E; auto; done. }
  assert (b ∉ rowsS) as NbS.
  { intros Hin. destruct Ok3 as (Hb & _). rewrite FreshS in Hb; [done|by right]. }
  assert (boardAt h4 b rowsB) as Ok4.
  { apply (boardAt_frame h3); [done|]. intros l [->|Hl]; apply OldS; try done.
    - by apply Sep. - by apply Sep. }
  assert (∀ i j, heapRd b h4 i j = heapRd b h3 i j) as Same4.
  { intros i j. apply (heapRd_frame h3 h4 b rowsB); [done|].
    intros l [->|Hl]; apply OldS; try done.
    - by apply Sep. - by apply Sep. }
  (* removal *)
  destruct (heap_remove_frame b rowsB d2 (attemptsFor (defaultMedium d)) h4 h5 d5)
    as [Ok5 Fr5]; try done.
  destruct (removeDigits_spec (H0 := heapLaws b rowsB) d2
              (attemptsFor (defaultMedium d)) h4 h5 d5 Ok4 RD) as [Zs Keep].
  change (zeros (heapRd b h5) =
          zeros (heapRd b h4) + attemptsFor (defaultMedium d)) in Zs.
  change (∀ i j, i < 9 → j < 9 → heapRd b h5 i j ≠ 0 →
                 heapRd b h5 i j = heapRd b h4 i j) in Keep.
  change (consistent (heapRd b h3)) in C3. change (digits (heapRd b h3)) in D3.
  change (diagonalOnly (heapRd b h2)) in O2.
  assert (boardAt h5 s rowsS) as OkS5.
  { apply (boardAt_frame h4); [done|]. intros l [->|Hl]; apply Fr5.
    - intros Hin. by destruct (Sep s Hin).
    - intros Hin. by destruct (Sep l Hin). }
  assert (∀ i j, heapRd s h5 i j = heapRd b h3 i j) as SameS.
  { intros i j. rewrite <- Copy. apply (heapRd_frame h4 h5 s rowsS); [done|].
    intros l [->|Hl]; apply Fr5.
    - intros Hin. by destruct (Sep s Hin).
    - intros Hin. by destruct (Sep l Hin). }
  (* the search cannot have failed: too few cells would be left to clear *)
  assert (r = true) as ->.
  { destruct r; [done|exfalso].
    apply (solveBoard_restores (H1 := heapExact b rowsB)) in SB; [|done]. subst h3.
    pose proof (seed_zeros _ O2) as Z2.
    rewrite (zeros_ext _ _ Same4) in Zs.
    pose proof (zeros_le_81 (heapRd b h5)).
    pose proof (attemptsFor_range (defaultMedium d)). lia. }
  pose proof (solveBoard_fills callDepth h2 h3 SB) as F3.
  change (full (heapRd b h3)) in F3.
  assert (isSolution (heapRd b h3)) as Sol
    by by apply full_consistent_isSolution.
  exists rowsB, rowsS. split; [done|]. split; [done|]. split; [done|].
  split; [|split; [|split; [|split; [|split]]]].
  - intros l [->|[Hl|[->|Hl]]].
    + apply Fresh1. by left.
    + apply Fresh1. by right.
    + rewrite <- Old1, <- Fr2, <- Fr3; [apply FreshS; by left|..];
        try (intros Hin; by destruct (Sep s Hin)). done.
    + assert (l ≠ b) by (by intros ->).
      assert (l ∉ rowsB) by (intros Hin; by destruct (Sep l Hin)).
      rewrite <- Old1, <- Fr2, <- Fr3 by done. apply FreshS. by right.
  - split; [done|]. split; [done|]. split.
    + intros Hin. by destruct (Sep s Hin).
    + intros l Hl. by destruct (Sep l Hl).
  - intros l [x Hx].
    assert (l ≠ b ∧ l ∉ rowsB) as [? ?].
    { split; [intros ->|intros Hin]; rewrite Fresh1 in Hx; auto; done. }
    assert (h3 !! l = h !! l) as E3 by (rewrite Fr3, Fr2, Old1; done).
    assert (l ≠ s ∧ l ∉ rowsS) as [? ?].
    { split; [intros ->|intros Hin]; rewrite FreshS in E3; auto; congruence. }
    by rewrite Fr5, OldS.
  - apply (isSolution_ext (heapRd b h3)); [|done]. intros i j. by rewrite SameS.
  - by rewrite Zs, (zeros_ext _ _ Same4), (full_zeros _ F3).
  - intros i j Hi Hj NZ. rewrite SameS, <- Same4. by apply Keep.
Qed.

(** ** States of the working grid during a run *)

Section Recorded.
Context {B : Type} `{BoardLaws B}.

Definition allConsistent (log : list B) : Prop :=
  Forall (λ s, consistent (rd s)) log.

Lemma fillDiagonal_recorded (bl : logged B) draws bl' rest :
  ok bl.1 → seed (rd bl.1) → allConsistent bl.2 →
  fillDiagonal bl draws = Some (bl', rest) →
  ok bl'.1 ∧ seed (rd bl'.1) ∧ allConsistent bl'.2.
Proof.
  intros Ok S L F.
  enough (ok bl' ∧ seed (rd bl'.1) ∧ allConsistent bl'.2) as (? & ? & ?) by done.
  apply (fillDiagonal_keeps (B := logged B)
           (λ x, seed (rd x.1) ∧ allConsistent x.2))
    with (b := bl) (draws := draws) (rest := rest); try done.
  intros [b log] k i j num Ok' [S' L'] Hk Hi Hj Hn Safe. cbn in *.
  assert (seed (rd (wr b (3 * k + i) (3 * k + j) num))) as S''
    by by apply seed_write.
  split; [done|]. constructor; [by destruct S''|done].
Qed.

Lemma solveBoard_recorded depth (bl : logged B) r bl' :
  ok bl.1 → consistent (rd bl.1) → allConsistent bl.2 →
  solveBoard depth bl = Some (r, bl') →
  consistent (rd bl'.1) ∧ allConsistent bl'.2.
Proof.
  intros Ok C L S.
  enough (ok bl' ∧ consistent (rd bl'.1) ∧ allConsistent bl'.2) as (? & ? & ?)
    by done.
  apply (solveBoard_keeps (B := logged B)
           (λ x, consistent (rd x.1) ∧ allConsistent x.2))
    with (depth := depth) (b := bl) (r := r); try done.
  - intros [b log] i j num Ok' [C' L'] Hi Hj Z Hn V. cbn in *.
    assert (consistent (rd (wr b i j num))) by by apply consistent_place.
    split; [done|]. by constructor.
  - intros [b log] [b1 log1] i j _ _ Hi Hj _ Ok1 [C1 L1]. cbn in *.
    assert (consistent (rd (wr b1 i j 0))) by by apply consistent_clear.
    split; [done|]. by constructor.
Qed.

End Recorded.

(** * The claims *)

(** ** C1 *)

(** C1.  For every game that [generateNewGame] returns, whatever the
    difficulty, the draws and the state of the generator before the call,
    the grid referenced by [solution] is a full Sudoku solution: it has no
    empty cell, and every row, every column and every 3x3 box contains each
    digit 1-9 exactly once. *)
Theorem generated_solution_valid d draws this h g this' h' rest :
  generateNewGame d draws this h = Some (g, this', h', rest) →
  isSolution (heapRd (solution g) h').
Proof.
  intros G. apply generateNewGame_run in G as (rowsB & rowsS & G). tauto.
Qed.

Lemma generated_solution_valid_witness :
  ∃ g this' h' rest,
    generateNewGame (JStr "Hard") sampleDraws freshGenerator freshHeap
      = Some (g, this', h', rest) ∧
    isSolution (heapRd (solution g) h').
Proof.
  do 4 eexists. split; [vm_compute; reflexivity|].
  eapply (generated_solution_valid (JStr "Hard") sampleDraws freshGenerator
            freshHeap).
  vm_compute. reflexivity.
Defined.

(** ** C2 *)

(** C2.  For every game that [generateNewGame] returns at difficulty [d],
    the puzzle grid [initial] has exactly the removal count of [d] empty
    cells (30 for Easy, 40 for Medium, 50 for Hard), and every filled cell
    of the puzzle equals the cell of the solution at the same position. *)
Theorem generated_puzzle_cleared d draws this h g this' h' rest :
  generateNewGame d draws this h = Some (g, this', h', rest) →
  zeros (heapRd (initial g) h') = attemptsFor (defaultMedium d) ∧
  (d = JStr "Easy" → zeros (heapRd (initial g) h') = 30) ∧
  (d = JStr "Medium" → zeros (heapRd (initial g) h') = 40) ∧
  (d = JStr "Hard" → zeros (heapRd (initial g) h') = 50) ∧
  (∀ i j, i < 9 → j < 9 → heapRd (initial g) h' i j ≠ 0 →
     heapRd (initial g) h' i j = heapRd (solution g) h' i j).
Proof.
  intros G. apply generateNewGame_run in G
    as (rowsB & rowsS & _ & _ & _ & _ & _ & _ & _ & Z & Keep).
  split; [done|]. split; [|split; [|split]]; try done.
  all: intros ->; by rewrite Z.
Qed.

Lemma generated_puzzle_cleared_witness :
  ∃ g this' h' rest,
    generateNewGame (JStr "Hard") sampleDraws freshGenerator freshHeap
      = Some (g, this', h', rest) ∧
    zeros (heapRd (initial g) h') = 50 ∧
    (∀ i j, i < 9 → j < 9 → heapRd (initial g) h' i j ≠ 0 →
       heapRd (initial g) h' i j = heapRd (solution g) h' i j).
Proof.
  do 4 eexists. split; [vm_compute; reflexivity|].
  edestruct (generated_puzzle_cleared (JStr "Hard") sampleDraws freshGenerator
               freshHeap) as (_ & _ & _ & Z & Keep); [vm_compute; reflexivity|].
  split; [by apply Z|exact Keep].
Defined.

(** ** C3 *)

Lemma emptyGrid_zero i j : rd emptyGrid i j = 0.
Proof.
  cbn [rd gridBoard]. unfold emptyGrid.
  destruct (decide (i < 9)) as [Hi|Hi].
  - rewrite (nth_lookup (replicate 9 _)), lookup_replicate_2 by done.
    unfold default; cbn [from_option id].
    destruct (decide (j < 9)) as [Hj|Hj].
    + by rewrite nth_lookup, lookup_replicate_2.
    + rewrite nth_overflow; [done|]. rewrite length_replicate. lia.
  - rewrite (nth_overflow (replicate 9 _)) by (rewrite length_replicate; lia).
    by destruct j.
Qed.

(** C3, as stated, fails: [isValid] does not leave the cell [(row, col)]
    out of its scans.  On the grid whose only filled cell is a 5 at (0,0),
    writing 5 at (0,0) creates no duplicate, and yet [isValid] answers
    [false]. *)
Lemma isValid_counts_own_cell :
  ¬ (∀ (g : grid) row col num, ok g → row < 9 → col < 9 → 1 ≤ num ≤ 9 →
       (isValid g row col num = true ↔ introducesNoDuplicate (rd g) row col num)).
Proof.
  intros Claim.
  assert (isValid fiveAtOrigin 0 0 5 = true) as V; [|done].
  apply Claim; [apply gridOk_wr, emptyGrid_ok|lia..|].
  intros i j Hi Hj NE _. unfold fiveAtOrigin.
  rewrite rd_wr_other; [|apply emptyGrid_ok|lia..|congruence].
  by rewrite emptyGrid_zero.
Qed.

(** C3, amended.  For every board, every cell [(row, col)] and every
    [num], [isValid] returns [true] if and only if no cell of that row, of
    that column and of that cell's 3x3 box holds [num], the cell
    [(row, col)] itself included; so when [(row, col)] does not hold [num]
    already, exactly when placing [num] there creates no duplicate.  With a
    5 at (0,0), [isValid] rejects 5 at (0,3), at (3,0) and at (1,1), and it
    accepts 5 at (4,4) exactly when row 4, column 4 and the central box
    hold no 5. *)
Theorem isValid_scans_whole_units {B} `{Board B} (b : B) row col num :
  row < 9 → col < 9 →
  (isValid b row col num = true ↔
     ∀ i j, i < 9 → j < 9 → peers row col i j → rd b i j ≠ num) ∧
  (rd b row col ≠ num →
     (isValid b row col num = true ↔ introducesNoDuplicate (rd b) row col num)) ∧
  (rd b 0 0 = 5 →
     isValid b 0 3 5 = false ∧ isValid b 3 0 5 = false ∧
     isValid b 1 1 5 = false ∧
     (isValid b 4 4 5 = true ↔
        ∀ i j, i < 9 → j < 9 → peers 4 4 i j → rd b i j ≠ 5)).
Proof.
  intros Hr Hc. split; [by apply isValid_peers|]. split.
  - intros Own. rewrite isValid_peers by done. split.
    + intros P i j Hi Hj _ Pe. by apply P.
    + intros P i j Hi Hj Pe.
      destruct (decide ((i, j) = (row, col))) as [E|NE]; [by inversion E; subst|].
      by apply P.
  - intros Five.
    assert (∀ r c, r < 9 → c < 9 → peers r c 0 0 → isValid b r c 5 = false) as Rej.
    { intros r c Hr' Hc' Pe. destruct (isValid b r c 5) eqn:V; [|done].
      rewrite isValid_peers in V by done. destruct (V 0 0); [lia|lia|done|done]. }
    split; [|split; [|split]].
    + apply Rej; [lia|lia|by left].
    + apply Rej; [lia|lia|by right; left].
    + apply Rej; [lia|lia|by right; right].
    + apply isValid_peers; lia.
Qed.

Lemma isValid_scans_whole_units_witness :
  (isValid fiveAtOrigin 4 4 5 = true ↔
     ∀ i j, i < 9 → j < 9 → peers 4 4 i j → rd fiveAtOrigin i j ≠ 5) ∧
  isValid fiveAtOrigin 0 3 5 = false ∧ isValid fiveAtOrigin 3 0 5 = false ∧
  isValid fiveAtOrigin 1 1 5 = false ∧ isValid fiveAtOrigin 4 4 5 = true.
Proof.
  destruct (isValid_scans_whole_units fiveAtOrigin 4 4 5) as (Iff & _ & Ex);
    [lia|lia|].
  destruct Ex as (E1 & E2 & E3 & _); [reflexivity|].
  split; [exact Iff|]. split; [exact E1|]. split; [exact E2|].
  split; [exact E3|reflexivity].
Defined.

(** ** C4 *)

(** C4.  Take a board after the reset (all cells 0) and run the seeding and
    then the search on it, recording the working grid after every write:
    each assignment of [fillBox], each placement and each undo of
    [solveBoard].  In the reset grid and in every recorded grid, no digit
    1-9 occurs twice in a row, a column or a box. *)
Theorem generation_states_consistent {B} `{BoardLaws B}
  (b0 : B) draws depth (seeded : logged B) rest r (final : logged B) :
  ok b0 → (∀ i j, i < 9 → j < 9 → rd b0 i j = 0) →
  fillDiagonal (b0, []) draws = Some (seeded, rest) →
  solveBoard depth seeded = Some (r, final) →
  Forall (λ s, consistent (rd s)) (b0 :: seeded.2 ++ final.2).
Proof.
  intros Ok Z F S. pose proof (empty_seed _ Z) as Seed0.
  destruct (fillDiagonal_recorded (b0, []) draws seeded rest)
    as (Ok1 & (C1 & _) & L1); try done; [constructor|].
  destruct (solveBoard_recorded depth seeded r final) as (_ & L2); try done.
  constructor; [by destruct Seed0|]. by apply Forall_app.
Qed.

Lemma generation_states_consistent_witness :
  ∃ seeded rest r final,
    fillDiagonal (B := logged grid) (emptyGrid, []) sampleDraws
      = Some (seeded, rest) ∧
    solveBoard 82 seeded = Some (r, final) ∧
    length seeded.2 = 27 ∧ length final.2 = 395 ∧
    Forall (λ s, consistent (rd s)) (emptyGrid :: seeded.2 ++ final.2).
Proof.
  do 4 eexists. split; [vm_compute; reflexivity|].
  split; [vm_compute; reflexivity|].
  split; [reflexivity|]. split; [reflexivity|].
  eapply (generation_states_consistent emptyGrid sampleDraws 82).
  - apply emptyGrid_ok.
  - intros i j _ _. apply emptyGrid_zero.
  - vm_compute. reflexivity.
  - vm_compute. reflexivity.
Defined.

(** ** C5 *)

Lemma readGrid_ext (h h' : heap) b :
  (∀ i j, heapRd b h' i j = heapRd b h i j) → readGrid h' b = readGrid h b.
Proof.
  intros E. unfold readGrid, toGrid. apply map_ext. intros i.
  apply map_ext. intros j. apply E.
Qed.

(** C5, as stated, fails: the grid returned as [initial] is the generator's
    own [this.board], not a copy of it.  After a call, a write through the
    returned reference shows in what the generator reads through its
    field. *)
Lemma returned_puzzle_aliases_generator :
  ∃ g this' h' rest,
    generateNewGame (JStr "Easy") sampleDraws freshGenerator freshHeap
      = Some (g, this', h', rest) ∧
    this_board this' = initial g ∧
    heapRd (this_board this') h' 0 0 = 0 ∧
    heapRd (this_board this') (heapWr (initial g) h' 0 0 7) 0 0 = 7.
Proof.
  do 4 eexists. split; [vm_compute; reflexivity|].
  split; [reflexivity|]. split; vm_compute; reflexivity.
Qed.

(** C5, amended.  The two grids returned by a call share no storage with
    each other: writing any cell of the returned puzzle leaves every cell
    of the returned solution as it was, and conversely.  They are the
    objects that the generator keeps in [this.board] and [this.solution].
    All their arrays, the two outer arrays and the eighteen rows, were
    created by the call: none of them is an object of the heap before the
    call, no array belongs to both grids, and the call leaves every object
    that existed before it (the grids of earlier games among them)
    untouched. *)
Theorem returned_grids_separate d draws this h g this' h' rest :
  generateNewGame d draws this h = Some (g, this', h', rest) →
  (∀ i j v, readGrid (heapWr (initial g) h' i j v) (solution g)
            = readGrid h' (solution g)) ∧
  (∀ i j v, readGrid (heapWr (solution g) h' i j v) (initial g)
            = readGrid h' (initial g)) ∧
  this_board this' = initial g ∧ this_solution this' = Some (solution g) ∧
  h !! initial g = None ∧ h !! solution g = None ∧
  (∀ l, is_Some (h !! l) → h' !! l = h !! l) ∧
  ∃ rowsB rowsS,
    boardAt h' (initial g) rowsB ∧ boardAt h' (solution g) rowsS ∧
    (∀ l, l = initial g ∨ l ∈ rowsB → l ≠ solution g ∧ l ∉ rowsS) ∧
    (∀ l, l = initial g ∨ l ∈ rowsB ∨ l = solution g ∨ l ∈ rowsS → h !! l = None).
Proof.
  intros G. apply generateNewGame_run in G
    as (rowsB & rowsS & -> & OkB & OkS & Fresh & (N1 & N2 & N3 & Sep) & Old & _).
  split; [|split; [|split; [|split; [|split; [|split; [|split]]]]]]; try done.
  - intros i j v. apply readGrid_ext. intros a c.
    apply (heapRd_frame h' _ (solution g) rowsS); [done|].
    intros l Hl. apply (heapWr_frame _ rowsB); [done|].
    destruct Hl as [->|Hl]; [done|]. intros Hin. by apply (Sep l).
  - intros i j v. apply readGrid_ext. intros a c.
    apply (heapRd_frame h' _ (initial g) rowsB); [done|].
    intros l Hl. apply (heapWr_frame _ rowsS); [done|].
    destruct Hl as [->|Hl]; [done|]. by apply Sep.
  - apply Fresh. by left.
  - apply Fresh. by right; right; left.
  - exists rowsB, rowsS. split; [done|]. split; [done|]. split; [|done].
    intros l [->|Hl]; [done|]. split; [|by apply Sep].
    intros ->. done.
Qed.

Lemma returned_grids_separate_witness :
  ∃ g this' h' rest,
    generateNewGame (JStr "Easy") sampleDraws freshGenerator freshHeap
      = Some (g, this', h', rest) ∧
    readGrid (heapWr (initial g) h' 0 0 7) (solution g) = readGrid h' (solution g) ∧
    readGrid (heapWr (solution g) h' 0 0 7) (initial g) = readGrid h' (initial g).
Proof.
  do 4 eexists. split; [vm_compute; reflexivity|].
  edestruct (returned_grids_separate (JStr "Easy") sampleDraws freshGenerator
               freshHeap) as (P & S & _); [vm_compute; reflexivity|].
  split; [apply P|apply S].
Defined.

(** ** C6 *)




(** ** C8 *)

(** C8, as stated, fails at one grid: on the grid with all 81 cells empty
    the search is 82 activations deep (the call, and one recursive call
    for every cell), so a bound of 81 is reached. *)
Lemma empty_grid_depth_82 :
  solveBoard 81 emptyGrid = None ∧ zeros (rd emptyGrid) + 1 = 82 ∧
  ∃ g, solveBoard 82 emptyGrid = Some (true, g).
Proof.
  split; [vm_compute; reflexivity|]. split; [reflexivity|].
  eexists. vm_compute. reflexivity.
Qed.

(** C8, amended.  [solveBoard] returns on every 9x9 grid, and the number
    of its nested activations is at most the number of empty cells plus
    one: at most 82, the call and one recursive call for each of at most
    81 empty cells. *)
Theorem solveBoard_depth {B} `{BoardExact B} (b : B) :
  ok b →
  is_Some (solveBoard (zeros (rd b) + 1) b) ∧
  zeros (rd b) ≤ 81 ∧
  is_Some (solveBoard 82 b) ∧
  ∀ depth r, solveBoard depth b = Some r → solveBoard 82 b = Some r.
Proof.
  intros Ok.
  assert (is_Some (solveBoard (zeros (rd b) + 1) b)) as [r E]
    by (apply solveBoard_returns; [done|lia]).
  pose proof (zeros_le_81 (rd b)) as L.
  split; [by eexists|]. split; [done|].
  assert (solveBoard 82 b = Some r) as E82
    by (apply (solveBoard_mono (zeros (rd b) + 1)); [lia|done]).
  split; [by eexists|].
  intros depth r' E'.
  destruct (Nat.le_ge_cases depth 82) as [Le|Ge].
  - by apply (solveBoard_mono depth).
  - pose proof (solveBoard_mono 82 depth b r Ge E82). congruence.
Qed.

Lemma solveBoard_depth_witness :
  is_Some (solveBoard (zeros (rd deadEndGrid) + 1) deadEndGrid) ∧
  zeros (rd deadEndGrid) = 74.
Proof.
  assert (ok deadEndGrid) as Ok by (split; [reflexivity|by repeat constructor]).
  destruct (solveBoard_depth deadEndGrid Ok) as (Returns & _).
  split; [exact Returns|reflexivity].
Defined.

(** ** C9 *)

(** C9.  Whenever [solveBoard] returns [false], the board is exactly what
    it was before the call: every cell filled during the failed search has
    been reset to 0. *)
Theorem solveBoard_failure_restores {B} `{BoardExact B} depth (b b' : B) :
  ok b → solveBoard depth b = Some (false, b') → b' = b.
Proof. intros Ok S. by apply (solveBoard_restores depth). Qed.

Lemma solveBoard_failure_restores_witness :
  solveBoard 82 deadEndGrid = Some (false, deadEndGrid).
Proof.
  assert (∃ g, solveBoard 82 deadEndGrid = Some (false, g)) as [g E]
    by (eexists; vm_compute; reflexivity).
  rewrite E. f_equal. f_equal.
  apply (solveBoard_failure_restores 82 deadEndGrid g); [|exact E].
  split; [reflexivity|]. by repeat constructor.
Defined.

(** ** C10 *)

(** C10, as stated, fails in its first clause: the reset of line 76 writes
    to a cell that holds a digit.  On [deadEndGrid] the search puts 2 into
    the cell (0,1), fails further on, and overwrites that 2 with 0. *)
Lemma solveBoard_undo_overwrites_digit :
  ∃ writes,
    solveBoard 82 (Traced deadEndGrid []) = Some (false, Traced deadEndGrid writes) ∧
    {| w_row := 0; w_col := 1; w_old := 2; w_new := 0 |} ∈ writes.
Proof.
  eexists. split; [vm_compute; reflexivity|].
  apply (bool_decide_unpack _). by vm_compute.
Qed.

(** C10, amended.  Every write of [solveBoard] goes to a cell that was
    empty when [solveBoard] was called, and is one of two kinds: a digit
    1-9 written into a cell that holds 0 at that moment, or the reset of
    line 76, a 0 written over the digit that the search had put there.  So
    every cell that is filled at the call is never written and holds the
    same value when the call returns, whether it returns [true] or
    [false]; a completion of a seeded grid keeps the 27 cells of the
    diagonal boxes as they were.  The writes are those of the same run on
    the board that lists them. *)
Theorem solveBoard_keeps_filled_cells {B} `{BoardLaws B} depth (b b' : B) r :
  ok b → solveBoard depth b = Some (r, b') →
  (∃ writes,
     solveBoard depth (Traced b []) = Some (r, Traced b' writes) ∧
     Forall (λ w, w_row w < 9 ∧ w_col w < 9 ∧ rd b (w_row w) (w_col w) = 0 ∧
                  ((w_old w = 0 ∧ 1 ≤ w_new w ≤ 9) ∨
                   (w_new w = 0 ∧ 1 ≤ w_old w ≤ 9))) writes) ∧
  ∀ i j, i < 9 → j < 9 → rd b i j ≠ 0 → rd b' i j = rd b i j.
Proof.
  intros Ok S. split; [|by apply (solveBoard_extends depth b b' r)].
  destruct (solveBoard_traced depth (Traced b []) r b' S) as [writes T].
  exists writes. split; [done|].
  destruct (solveBoard_listed depth (Traced b []) r _ Ok T) as (_ & (ws & E & F) & _).
  cbn in E. rewrite app_nil_r in E. by subst ws.
Qed.

Lemma solveBoard_keeps_filled_cells_witness :
  ∃ seeded rest g,
    fillDiagonal emptyGrid sampleDraws = Some (seeded, rest) ∧
    solveBoard 82 seeded = Some (true, g) ∧
    (∃ writes,
       solveBoard 82 (Traced seeded []) = Some (true, Traced g writes) ∧
       Forall (λ w, w_row w < 9 ∧ w_col w < 9 ∧ rd seeded (w_row w) (w_col w) = 0 ∧
                    ((w_old w = 0 ∧ 1 ≤ w_new w ≤ 9) ∨
                     (w_new w = 0 ∧ 1 ≤ w_old w ≤ 9))) writes) ∧
    ∀ i j, i < 9 → j < 9 → rd seeded i j ≠ 0 → rd g i j = rd seeded i j.
Proof.
  do 3 eexists. split; [vm_compute; reflexivity|].
  split; [vm_compute; reflexivity|].
  eapply (solveBoard_keeps_filled_cells 82).
  - split; [reflexivity|]. by repeat constructor.
  - vm_compute. reflexivity.
Defined.

(** * Further properties of the generator

    Beyond the claims: what the seeding, the solver and the removal do on
    their own, and when they come to an end. *)

(** ** Units *)

(** In a unit whose cells hold nine digits without a clash, every digit
    occurs. *)
Lemma unit_complete (f : view) u d :
  u ∈ units → consistent f → (∀ i j, (i, j) ∈ u → 1 ≤ f i j ≤ 9) → 1 ≤ d ≤ 9 →
  occurrences d (valuesAt f u) = 1.
Proof.
  intros Hu C F Hd. pose proof (C u d Hu Hd) as Le.
  enough (1 ≤ occurrences d (valuesAt f u)) by lia.
  assert (NoDup (valuesAt f u)) as ND.
  { unfold valuesAt. apply (NoDup_fmap_2_strong (λ p, f p.1 p.2)); [|by apply unit_NoDup].
    intros [i j] [i' j'] Hp Hq E. cbn [fst snd] in E.
    destruct (decide ((i, j) = (i', j'))) as [|NE]; [done|exfalso].
    destruct (unit_peers u i j i' j') as (Hi & Hj & Hi' & Hj' & P); [done..|].
    rewrite consistent_peers in C. apply (C i j i' j'); try done. by apply F. }
  assert (valuesAt f u ⊆+ seq 1 9) as Sub.
  { apply NoDup_submseteq; [done|]. intros v Hv.
    apply list_elem_of_fmap in Hv as ([i j] & -> & Hin). cbn [fst snd].
    apply nums_range. by apply F. }
  assert (valuesAt f u ≡ₚ seq 1 9) as P.
  { apply submseteq_length_Permutation; [done|].
    unfold valuesAt. rewrite length_map, length_seq, (unit_length u) by done. lia. }
  assert (d ∈ valuesAt f u) as Hin by (rewrite P; by apply nums_range).
  unfold occurrences.
  assert (d ∈ filter (λ x, x = d) (valuesAt f u)) as Hf
    by (by apply list_elem_of_filter).
  destruct (filter _ _); [by apply elem_of_nil in Hf|simpl; lia].
Qed.

Lemma boxCells_unit k l : k < 3 → l < 3 → boxCells k l ∈ units.
Proof.
  intros Hk Hl. unfold units. rewrite !elem_of_app. right; right.
  apply list_elem_of_In, in_flat_map. exists k. split; [apply in_seq; lia|].
  apply in_map. apply in_seq. lia.
Qed.

Lemma elem_of_boxCells k l a c :
  (a, c) ∈ boxCells k l ↔ ∃ i j, i < 3 ∧ j < 3 ∧ a = 3 * k + i ∧ c = 3 * l + j.
Proof.
  unfold boxCells. rewrite list_elem_of_In, in_flat_map. split.
  - intros (i & Hi & Hin). apply in_map_iff in Hin as (j & E & Hj).
    apply in_seq in Hi, Hj. inversion E; subst. exists i, j. lia.
  - intros (i & j & Hi & Hj & -> & ->). exists i. split; [apply in_seq; lia|].
    apply in_map_iff. exists j. split; [done|apply in_seq; lia].
Qed.

(** ** Seeding *)

Section SeedingMore.
Context {B : Type} `{BoardLaws B}.

(** A box with an empty cell has room for one more digit: nine digits and a
    zero do not fit in nine cells. *)
Lemma box_has_safe_digit (b : B) row col i j :
  i < 3 → j < 3 → rd b (row + i) (col + j) = 0 →
  ∃ d, 1 ≤ d ≤ 9 ∧ isSafeInBox b row col d = true.
Proof.
  intros Hi Hj Z.
  destruct (decide (Exists (λ d, isSafeInBox b row col d = true) (seq 1 9)))
    as [E|NE].
  { apply Exists_exists in E as (d & Hd & S). exists d. by apply nums_range in Hd. }
  exfalso.
  set (vals := map (λ p, rd b (row + p.1) (col + p.2)) boxOffsets).
  assert (seq 0 10 ⊆+ vals) as Sub.
  { apply NoDup_submseteq; [apply NoDup_seq|]. intros v Hv.
    apply list_elem_of_In, in_seq in Hv.
    destruct (decide (v = 0)) as [->|Nz].
    - apply list_elem_of_fmap. exists (i, j). split; [done|].
      by apply elem_of_boxOffsets.
    - destruct (isSafeInBox b row col v) eqn:S.
      + destruct NE. apply Exists_exists. exists v. split; [apply nums_range; lia|done].
      + assert (¬ ∀ i j, i < 3 → j < 3 → rd b (row + i) (col + j) ≠ v) as N.
        { intros A. apply isSafeInBox_spec in A. congruence. }
        destruct (decide (Exists (λ p, rd b (row + p.1) (col + p.2) = v) boxOffsets))
          as [E|NE'].
        * apply Exists_exists in E as ([a c] & Hin & E).
          apply list_elem_of_fmap. by exists (a, c).
        * destruct N. intros a c Ha Hc E. apply NE'. apply Exists_exists.
          exists (a, c). split; [by apply elem_of_boxOffsets|done]. }
  apply submseteq_length in Sub. unfold vals in Sub.
  rewrite length_map, length_seq in Sub. cbn in Sub. lia.
Qed.

(** No draw is accepted when the box already holds every digit. *)
Lemma drawSafe_none (b : B) row col draws :
  (∀ d, 1 ≤ d ≤ 9 → isSafeInBox b row col d = false) →
  drawSafe b row col draws = None.
Proof.
  intros No. induction draws as [|r more IH]; [done|]. cbn [drawSafe].
  rewrite No; [done|]. pose proof (Nat.mod_upper_bound r 9). lia.
Qed.

(** What [fillCells] does to the board: the cells of the list hold digits
    afterwards, every other cell is as before. *)
Lemma fillCells_effect k ij :
  k < 3 → (∀ p, p ∈ ij → p ∈ boxOffsets) →
  ∀ (b : B) draws b' rest, ok b →
    fillCells (3 * k) (3 * k) ij b draws = Some (b', rest) →
    ok b' ∧
    (∀ a c, a < 9 → c < 9 →
       (∀ i j, (i, j) ∈ ij → (a, c) ≠ (3 * k + i, 3 * k + j)) →
       rd b' a c = rd b a c) ∧
    (∀ i j, (i, j) ∈ ij → 1 ≤ rd b' (3 * k + i) (3 * k + j) ≤ 9).
Proof.
  intros Hk. induction ij as [|[i j] more IH]; intros Sub b draws b' rest Ok F.
  { simpl in F. inversion F; subst. split; [done|]. split; [done|].
    intros i j Hin. by apply elem_of_nil in Hin. }
  cbn [fillCells] in F. apply bind_Some in F as ([num rest1] & D & F).
  apply drawSafe_spec in D as [_ Hn].
  assert ((i, j) ∈ boxOffsets) as Hin by (apply Sub; left).
  apply elem_of_boxOffsets in Hin as [Hi Hj].
  apply IH in F as (Ok' & Same & Dig);
    [|intros p Hp; apply Sub; by right|by apply wr_ok].
  split; [done|]. split.
  - intros a c Ha Hc Out. rewrite Same; [|done|done|].
    + apply rd_wr_other; [done|lia|lia|done|done|]. intros E. apply (Out i j); [left|done].
    + intros i' j' Hin. apply Out. by right.
  - intros i' j' Hin.
    destruct (decide ((i', j') ∈ more)) as [Hm|Hm]; [by apply Dig|].
    apply elem_of_cons in Hin as [E|Hin]; [|done]. inversion E; subst i' j'.
    rewrite Same; [|lia|lia|].
    + rewrite rd_wr_same by (done || lia). done.
    + intros i' j' Hin E'. apply Hm.
      assert (i' = i ∧ j' = j) as [-> ->] by (inversion E'; lia). done.
Qed.

Lemma fillDiagonal_effect (b : B) draws b' rest :
  ok b → fillDiagonal b draws = Some (b', rest) →
  ok b' ∧
  (∀ a c, a < 9 → c < 9 → ¬ onDiagonal a c → rd b' a c = rd b a c) ∧
  (∀ a c, a < 9 → c < 9 → onDiagonal a c → 1 ≤ rd b' a c ≤ 9).
Proof.
  intros Ok F. unfold fillDiagonal, fillBox in F.
  apply bind_Some in F as ([b1 d1] & F1 & F).
  apply bind_Some in F as ([b2 d2] & F2 & F).
  apply (fillCells_effect 0) in F1 as (Ok1 & S1 & D1); [|lia|done..].
  apply (fillCells_effect 1) in F2 as (Ok2 & S2 & D2); [|lia|done..].
  apply (fillCells_effect 2) in F as (Ok3 & S3 & D3); [|lia|done..].
  assert (∀ k a c, k < 3 → a < 9 → c < 9 → a / 3 ≠ k ∨ c / 3 ≠ k →
            ∀ i j, (i, j) ∈ boxOffsets → (a, c) ≠ (3 * k + i, 3 * k + j)) as Out.
  { intros k a c Hk Ha Hc N i j Hin E. apply elem_of_boxOffsets in Hin as [Hi Hj].
    assert (a = 3 * k + i ∧ c = 3 * k + j) as [-> ->] by (split; congruence).
    rewrite !box_index in N by done. lia. }
  split; [done|]. split.
  - intros a c Ha Hc N. unfold onDiagonal in N.
    rewrite S3, S2, S1; try done; apply Out; try lia.
  - intros a c Ha Hc D. unfold onDiagonal in D.
    assert (a = 3 * (a / 3) + a mod 3 ∧ c = 3 * (a / 3) + c mod 3) as [Ea Ec].
    { rewrite D at 2. split; apply Nat.div_mod_eq. }
    pose proof (Nat.mod_upper_bound a 3 ltac:(lia)) as Ma.
    pose proof (Nat.mod_upper_bound c 3 ltac:(lia)) as Mc.
    assert ((a mod 3, c mod 3) ∈ boxOffsets) as Hin by (by apply elem_of_boxOffsets).
    assert (a / 3 < 3) as Hk by (apply Nat.Div0.div_lt_upper_bound; lia).
    destruct (a / 3) as [|[|[|k]]] eqn:K; [| | |lia].
    + rewrite S3, S2 by (done || apply Out; lia).
      rewrite Ea, Ec. by apply D1.
    + rewrite S3 by (done || apply Out; lia). rewrite Ea, Ec. by apply D2.
    + rewrite Ea, Ec. by apply D3.
Qed.

End SeedingMore.

(** ** Draws from an endless source *)

Lemma drawsFrom_S rnd k n : drawsFrom rnd k (S n) = rnd k :: drawsFrom rnd (S k) n.
Proof. reflexivity. Qed.

Lemma prefix_drawsFrom rnd n : prefix rnd n = drawsFrom rnd 0 n.
Proof. reflexivity. Qed.

Lemma fair_digit rnd k d :
  fair rnd → 1 ≤ d ≤ 9 → ∃ k', k ≤ k' ∧ rnd k' mod 9 + 1 = d.
Proof.
  intros F Hd. destruct (F k (d - 1)) as (k' & Le & E); [lia|].
  exists k'. split; [done|].
  pose proof (Nat.Div0.mod_mul_r (rnd k') 9 9) as M. change (9 * 9) with 81 in M.
  pose proof (Nat.mod_upper_bound (rnd k') 9 ltac:(lia)).
  pose proof (Nat.mod_upper_bound (rnd k' / 9) 9 ltac:(lia)). lia.
Qed.

Lemma fair_cell rnd k i j :
  fair rnd → i < 9 → j < 9 →
  ∃ k', k ≤ k' ∧ rnd k' mod 81 / 9 = i ∧ (rnd k' mod 81) mod 9 = j.
Proof.
  intros F Hi Hj. destruct (F k (9 * i + j)) as (k' & Le & E); [lia|].
  exists k'. split; [done|]. rewrite E. split.
  - rewrite Nat.mul_comm, Nat.div_add_l, Nat.div_small by lia. lia.
  - rewrite Nat.add_comm, Nat.mul_comm, Nat.Div0.mod_add. by apply Nat.mod_small.
Qed.

Section Fair.
Context {B : Type} `{BoardLaws B}.
Variable rnd : source.
Hypothesis Fair : fair rnd.

(** The loop of [fillBox] stops at the first safe digit drawn; one comes
    when the box is not full. *)
Lemma drawSafe_fair (b : B) row col :
  (∃ d, 1 ≤ d ≤ 9 ∧ isSafeInBox b row col d = true) →
  ∀ k, ∃ k' num, k < k' ∧
    ∀ n, k' ≤ k + n →
      drawSafe b row col (drawsFrom rnd k n) = Some (num, drawsFrom rnd k' (k + n - k')).
Proof.
  intros (d & Hd & Safe) k.
  destruct (fair_digit rnd k d Fair Hd) as (k0 & Le & E).
  assert (∃ gap, k0 = k + gap) as [gap ->] by (exists (k0 - k); lia). clear Le.
  revert k E. induction gap as [|gap IH]; intros k E.
  - exists (S k), d. split; [lia|]. intros [|n] Hn; [lia|].
    rewrite drawsFrom_S. cbn [drawSafe]. rewrite Nat.add_0_r in E. rewrite E, Safe.
    do 3 f_equal. lia.
  - destruct (isSafeInBox b row col (rnd k mod 9 + 1)) eqn:Sf.
    + exists (S k), (rnd k mod 9 + 1). split; [lia|]. intros [|n] Hn; [lia|].
      rewrite drawsFrom_S. cbn [drawSafe]. rewrite Sf. do 3 f_equal. lia.
    + destruct (IH (S k)) as (k' & num & Lt & Run);
        [by replace (S k + gap) with (k + S gap) by lia|].
      exists k', num. split; [lia|]. intros [|n] Hn; [lia|].
      rewrite drawsFrom_S. cbn [drawSafe]. rewrite Sf.
      rewrite Run by lia. do 3 f_equal. lia.
Qed.

Lemma fillCells_fair k ij :
  k < 3 → NoDup ij → (∀ p, p ∈ ij → p ∈ boxOffsets) →
  ∀ (b : B), ok b → (∀ i j, (i, j) ∈ ij → rd b (3 * k + i) (3 * k + j) = 0) →
  ∀ pos, ∃ pos' b', pos ≤ pos' ∧
    ∀ n, pos' ≤ pos + n →
      fillCells (3 * k) (3 * k) ij b (drawsFrom rnd pos n)
      = Some (b', drawsFrom rnd pos' (pos + n - pos')).
Proof.
  intros Hk ND. induction ND as [|[i j] more Hx ND IH]; intros Sub b Ok Z pos.
  { exists pos, b. split; [done|]. intros n _.
    replace (pos + n - pos) with n by lia. reflexivity. }
  assert ((i, j) ∈ boxOffsets) as Hin by (apply Sub; left).
  apply elem_of_boxOffsets in Hin as [Hi Hj].
  destruct (drawSafe_fair b (3 * k) (3 * k)) with (k := pos)
    as (pos1 & num & Lt & Draw).
  { apply (box_has_safe_digit b _ _ i j); [done|done|]. apply Z. left. }
  destruct (IH ltac:(intros p Hp; apply Sub; by right)
              (wr b (3 * k + i) (3 * k + j) num) ltac:(by apply wr_ok)) with (pos := pos1)
    as (pos2 & b' & Le & Run).
  { intros i' j' Hin'.
    assert ((i', j') ∈ boxOffsets) as Hb by (apply Sub; by right).
    apply elem_of_boxOffsets in Hb as [Hi' Hj'].
    rewrite rd_wr_other; [apply Z; by right|done|lia..|].
    intros E. apply Hx.
    assert (i' = i ∧ j' = j) as [-> ->] by (inversion E; lia). done. }
  exists pos2, b'. split; [lia|]. intros n Hn.
  cbn [fillCells]. rewrite Draw by lia. cbn [mbind option_bind].
  rewrite Run by lia. do 3 f_equal. lia.
Qed.

Lemma NoDup_boxOffsets : NoDup boxOffsets.
Proof. apply (bool_decide_unpack _). by vm_compute. Qed.

Lemma fillDiagonal_fair (b : B) :
  ok b → (∀ a c, a < 9 → c < 9 → onDiagonal a c → rd b a c = 0) →
  ∀ pos, ∃ pos' b', pos ≤ pos' ∧
    ∀ n, pos' ≤ pos + n →
      fillDiagonal b (drawsFrom rnd pos n) = Some (b', drawsFrom rnd pos' (pos + n - pos')).
Proof.
  intros Ok Z pos.
  assert (∀ k i j, k < 3 → (i, j) ∈ boxOffsets →
            3 * k + i < 9 ∧ 3 * k + j < 9 ∧ onDiagonal (3 * k + i) (3 * k + j)) as Dg.
  { intros k i j Hk Hin. apply elem_of_boxOffsets in Hin as [Hi Hj].
    unfold onDiagonal. rewrite !box_index by done. lia. }
  assert (∀ k k' i j i' j', k < 3 → k' < 3 → k ≠ k' → (i, j) ∈ boxOffsets →
            (i', j') ∈ boxOffsets → (3 * k + i, 3 * k + j) ≠ (3 * k' + i', 3 * k' + j'))
    as Apart.
  { intros k k' i j i' j' Hk Hk' N Hin Hin' E.
    apply elem_of_boxOffsets in Hin as [Hi Hj], Hin' as [Hi' Hj'].
    inversion E. lia. }
  destruct (fillCells_fair 0 boxOffsets ltac:(lia) NoDup_boxOffsets ltac:(done) b Ok)
    with (pos := pos) as (p1 & b1 & L1 & R1).
  { intros i j Hin. destruct (Dg 0 i j) as (? & ? & ?); [lia|done|]. by apply Z. }
  pose proof (R1 (p1 - pos) ltac:(lia)) as F1.
  apply (fillCells_effect 0) in F1 as (Ok1 & S1 & _); [|lia|done..].
  destruct (fillCells_fair 1 boxOffsets ltac:(lia) NoDup_boxOffsets ltac:(done) b1 Ok1)
    with (pos := p1) as (p2 & b2 & L2 & R2).
  { intros i j Hin. destruct (Dg 1 i j) as (? & ? & ?); [lia|done|].
    rewrite S1; [by apply Z|done|done|].
    intros i' j' Hin'. apply Apart; [lia..|done|done]. }
  pose proof (R2 (p2 - p1) ltac:(lia)) as F2.
  apply (fillCells_effect 1) in F2 as (Ok2 & S2 & _); [|lia|done..].
  destruct (fillCells_fair 2 boxOffsets ltac:(lia) NoDup_boxOffsets ltac:(done) b2 Ok2)
    with (pos := p2) as (p3 & b3 & L3 & R3).
  { intros i j Hin. destruct (Dg 2 i j) as (? & ? & ?); [lia|done|].
    rewrite S2, S1; [by apply Z|done|done| |done|done|].
    - intros i' j' Hin'. apply Apart; [lia..|done|done].
    - intros i' j' Hin'. apply Apart; [lia..|done|done]. }
  exists p3, b3. split; [lia|]. intros n Hn.
  change (3 * 0) with 0 in R1. change (3 * 1) with 3 in R2.
  change (3 * 2) with 6 in R3.
  unfold fillDiagonal, fillBox. rewrite R1 by lia. cbn [mbind option_bind].
  rewrite R2 by lia. cbn [mbind option_bind]. rewrite R3 by lia. do 3 f_equal. lia.
Qed.

(** As long as a filled cell is left, [removeDigits] finds one to clear. *)
Lemma zeros_filled (f : view) : zeros f < 81 → ∃ i j, i < 9 ∧ j < 9 ∧ f i j ≠ 0.
Proof.
  intros L.
  destruct (decide (Exists (λ p, f p.1 p.2 ≠ 0) cells)) as [E|NE].
  - apply Exists_exists in E as ([i j] & Hin & NZ).
    apply elem_of_cells in Hin as [? ?]. by exists i, j.
  - exfalso. unfold zeros in L.
    assert (length (filter (λ p : nat * nat, True) cells)
            ≤ length (filter (λ p, f p.1 p.2 = 0) cells)) as Le.
    { apply filter_length_mono. intros p Hp _.
      destruct (decide (f p.1 p.2 = 0)) as [|NZ]; [done|].
      destruct NE. apply Exists_exists. by exists p. }
    assert (filter (λ p : nat * nat, True) cells = cells) as E by by vm_compute.
    rewrite E, length_cells in Le. lia.
Qed.

Lemma removeDigits_fair count :
  ∀ (b : B), ok b → count + zeros (rd b) ≤ 81 →
  ∀ pos, ∃ pos' b', pos ≤ pos' ∧
    ∀ n, pos' ≤ pos + n →
      removeDigits (drawsFrom rnd pos n) count b
      = Some (b', drawsFrom rnd pos' (pos + n - pos')).
Proof.
  induction count as [|count IH]; intros b Ok L pos.
  { exists pos, b. split; [done|]. intros n _.
    replace (pos + n - pos) with n by lia. by destruct n. }
  destruct (zeros_filled (rd b)) as (i & j & Hi & Hj & NZ); [lia|].
  destruct (fair_cell rnd pos i j Fair Hi Hj) as (k0 & Le & Ei & Ej).
  assert (∃ gap, k0 = pos + gap) as [gap ->] by (exists (k0 - pos); lia). clear Le.
  revert pos Ei Ej. induction gap as [|gap IHg]; intros pos Ei Ej.
  - rewrite Nat.add_0_r in Ei, Ej.
    destruct (IH (wr b i j 0) ltac:(by apply wr_ok)) with (pos := S pos)
      as (pos' & b' & Le & Run).
    { rewrite zeros_clear by done. lia. }
    exists pos', b'. split; [lia|]. intros [|n] Hn; [lia|].
    rewrite drawsFrom_S. cbn [removeDigits]. cbv zeta. rewrite Ei, Ej.
    apply Nat.eqb_neq in NZ. rewrite NZ. rewrite Run by lia. do 3 f_equal. lia.
  - destruct (cellId_range (rnd pos)) as [Ri Rj].
    destruct (rd b (rnd pos mod 81 / 9) ((rnd pos mod 81) mod 9) =? 0) eqn:Z.
    + destruct (IHg (S pos)) as (pos' & b' & Le & Run).
      { by replace (S pos + gap) with (pos + S gap) by lia. }
      { by replace (S pos + gap) with (pos + S gap) by lia. }
      exists pos', b'. split; [lia|]. intros [|n] Hn; [lia|].
      rewrite drawsFrom_S. cbn [removeDigits]. cbv zeta. rewrite Z.
      rewrite Run by lia. do 3 f_equal. lia.
    + apply Nat.eqb_neq in Z.
      destruct (IH (wr b (rnd pos mod 81 / 9) ((rnd pos mod 81) mod 9) 0)
                  ltac:(by apply wr_ok)) with (pos := S pos)
        as (pos' & b' & Le & Run).
      { rewrite zeros_clear by done. lia. }
      exists pos', b'. split; [lia|]. intros [|n] Hn; [lia|].
      rewrite drawsFrom_S. cbn [removeDigits]. cbv zeta.
      apply Nat.eqb_neq in Z. rewrite Z. rewrite Run by lia. do 3 f_equal. lia.
Qed.

End Fair.

Lemma countingSource_fair : fair countingSource.
Proof.
  intros k m Hm. exists (m + k * 81). split; [lia|].
  unfold countingSource. rewrite Nat.Div0.mod_add. by apply Nat.mod_small.
Qed.

Lemma consistent_units (f : view) :
  Forall (λ u, Forall (λ d, occurrences d (valuesAt f u) ≤ 1) (seq 1 9)) units →
  consistent f.
Proof.
  intros F u d Hu Hd. rewrite Forall_forall in F. specialize (F u Hu).
  rewrite Forall_forall in F. apply F. by apply nums_range.
Qed.

Lemma digits_cells (f : view) : Forall (λ p, f p.1 p.2 ≤ 9) cells → digits f.
Proof.
  intros F i j Hi Hj. rewrite Forall_forall in F.
  apply (F (i, j)). by apply elem_of_cells.
Qed.

Lemma full_cells (f : view) : Forall (λ p, f p.1 p.2 ≠ 0) cells → full f.
Proof.
  intros F i j Hi Hj. rewrite Forall_forall in F.
  apply (F (i, j)). by apply elem_of_cells.
Qed.

Lemma seededGrid_ok : ok seededGrid.
Proof. split; [reflexivity|]. by repeat constructor. Qed.

(** ** Seeding *)

(** X1.  On a board that is all zeros, a [fillDiagonal] that returns has
    put each digit 1-9 exactly once into each of the three diagonal boxes
    and has left the 54 other cells empty. *)
Theorem fillDiagonal_boxes_complete {B} `{BoardLaws B} (b : B) draws b' rest :
  ok b → (∀ i j, i < 9 → j < 9 → rd b i j = 0) →
  fillDiagonal b draws = Some (b', rest) →
  (∀ k d, k < 3 → 1 ≤ d ≤ 9 →
     occurrences d (valuesAt (rd b') (boxCells k k)) = 1) ∧
  (∀ i j, i < 9 → j < 9 → ¬ onDiagonal i j → rd b' i j = 0) ∧
  zeros (rd b') = 54.
Proof.
  intros Ok Z F.
  destruct (fillDiagonal_seed b draws b' rest Ok (empty_seed _ Z) F)
    as (Ok' & C & _ & _).
  destruct (fillDiagonal_effect b draws b' rest Ok F) as (_ & Same & Dig).
  assert (∀ i j, i < 9 → j < 9 → rd b' i j = 0 ↔ ¬ onDiagonal i j) as Iff.
  { intros i j Hi Hj. split.
    - intros E D. specialize (Dig i j Hi Hj D). lia.
    - intros N. rewrite Same by done. by apply Z. }
  split; [|split].
  - intros k d Hk Hd. apply unit_complete; [by apply boxCells_unit|done| |done].
    intros i j Hin. apply elem_of_boxCells in Hin as (a & c & Ha & Hc & -> & ->).
    apply Dig; [lia|lia|]. unfold onDiagonal. by rewrite !box_index.
  - intros i j Hi Hj N. by apply Iff.
  - assert (length (filter (λ p, p.1 / 3 ≠ p.2 / 3) cells) = 54) as <-
      by by vm_compute.
    unfold zeros, onDiagonal in *. apply Nat.le_antisymm; apply filter_length_mono;
      intros [i j] Hin; cbn [fst snd]; apply elem_of_cells in Hin as [Hi Hj];
      by apply Iff.
Qed.

Lemma fillDiagonal_boxes_complete_witness :
  (∀ k d, k < 3 → 1 ≤ d ≤ 9 →
     occurrences d (valuesAt (rd seededGrid) (boxCells k k)) = 1) ∧
  zeros (rd seededGrid) = 54.
Proof.
  destruct (fillDiagonal_boxes_complete emptyGrid sampleDraws seededGrid (seq 0 81))
    as (Boxes & _ & Zs).
  - apply emptyGrid_ok.
  - intros i j _ _. apply emptyGrid_zero.
  - vm_compute. reflexivity.
  - split; [exact Boxes|exact Zs].
Defined.

(** X2.  With a source of draws in which every value keeps coming,
    [fillDiagonal] returns on every board whose diagonal boxes are empty:
    from some number of draws on, it has the same result and leaves the
    draws it did not use. *)
Theorem fillDiagonal_returns {B} `{BoardLaws B} (rnd : source) (b : B) :
  fair rnd → ok b → (∀ i j, i < 9 → j < 9 → onDiagonal i j → rd b i j = 0) →
  ∃ n b', ∀ m, n ≤ m →
    fillDiagonal b (prefix rnd m) = Some (b', drawsFrom rnd n (m - n)).
Proof.
  intros Fair Ok Z.
  destruct (fillDiagonal_fair rnd Fair b Ok Z 0) as (n & b' & _ & Run).
  exists n, b'. intros m Hm. rewrite prefix_drawsFrom. by apply Run.
Qed.

Lemma fillDiagonal_returns_witness :
  ∃ n b', ∀ m, n ≤ m →
    fillDiagonal emptyGrid (prefix countingSource m)
    = Some (b', drawsFrom countingSource n (m - n)).
Proof.
  apply (fillDiagonal_returns countingSource emptyGrid).
  - exact countingSource_fair.
  - apply emptyGrid_ok.
  - intros i j _ _ _. apply emptyGrid_zero.
Defined.

(** X3.  When [isSafeInBox] rejects every digit 1-9 for a box, that is,
    when the box holds them all, [fillBox] on that box never returns: no
    sequence of draws, however long, ends its first loop. *)
Theorem fillBox_full_box_never_returns {B} `{Board B} (b : B) row col draws :
  (∀ d, 1 ≤ d ≤ 9 → isSafeInBox b row col d = false) →
  fillBox row col b draws = None.
Proof.
  intros Full. unfold fillBox. cbn [boxOffsets flat_map seq map app fillCells].
  by rewrite drawSafe_none.
Qed.

Lemma fillBox_full_box_never_returns_witness :
  fillBox 0 0 seededGrid sampleDraws = None.
Proof.
  apply (fillBox_full_box_never_returns seededGrid 0 0 sampleDraws).
  intros d Hd. do 10 (destruct d as [|d]; [first [lia|reflexivity]|]). lia.
Defined.

(** ** The solver *)

Lemma solveBoard_solution {B} `{BoardLaws B} depth (b b' : B) :
  ok b → consistent (rd b) → digits (rd b) →
  solveBoard depth b = Some (true, b') →
  isSolution (rd b') ∧ extends (rd b) (rd b').
Proof.
  intros Ok C D S. split; [|by apply (solveBoard_extends depth b b' true)].
  apply full_consistent_isSolution.
  - by apply (solveBoard_fills depth b).
  - by apply (solveBoard_digits depth b b' true).
  - by apply (solveBoard_consistent depth b b' true).
Qed.

(** X4.  When [solveBoard] returns [true] on a grid of digits in which no
    digit occurs twice in a row, a column or a box, the grid it leaves is
    a solution (full, each digit once in every unit) and still holds
    every cell that was filled at the call. *)
Theorem solveBoard_true_is_solution {B} `{BoardLaws B} depth (b b' : B) :
  ok b → consistent (rd b) → digits (rd b) →
  solveBoard depth b = Some (true, b') →
  isSolution (rd b') ∧ extends (rd b) (rd b').
Proof. apply solveBoard_solution. Qed.

Lemma seededGrid_seed : consistent (rd seededGrid) ∧ digits (rd seededGrid).
Proof.
  split.
  - apply consistent_units. apply (bool_decide_unpack _). by vm_compute.
  - apply digits_cells. apply (bool_decide_unpack _). by vm_compute.
Qed.

Lemma solveBoard_true_is_solution_witness :
  ∃ g, solveBoard 82 seededGrid = Some (true, g) ∧
       isSolution (rd g) ∧ extends (rd seededGrid) (rd g).
Proof.
  eexists. split; [vm_compute; reflexivity|].
  apply (solveBoard_true_is_solution 82 seededGrid).
  - exact seededGrid_ok.
  - exact (proj1 seededGrid_seed).
  - exact (proj2 seededGrid_seed).
  - vm_compute. reflexivity.
Defined.

(** X5.  On such a grid [solveBoard] decides whether the grid can be
    completed: it returns [true] exactly when some full, valid grid keeps
    all the filled cells, and it returns [false] (with the grid as it
    was) exactly when there is none. *)
Theorem solveBoard_decides_completion {B} `{BoardExact B} (b : B) :
  ok b → consistent (rd b) → digits (rd b) →
  ((∃ b', solveBoard 82 b = Some (true, b')) ↔ ∃ t, completion (rd b) t) ∧
  (solveBoard 82 b = Some (false, b) ↔ ¬ ∃ t, completion (rd b) t).
Proof.
  intros Ok C D.
  assert ((∃ b', solveBoard 82 b = Some (true, b')) ↔ ∃ t, completion (rd b) t)
    as Iff.
  { split.
    - intros [b' S]. exists (rd b').
      destruct (solveBoard_solution 82 b b' Ok C D S) as [[F Sol] E].
      split; [done|]. split; [by apply (solveBoard_digits 82 b b' true)|].
      split; [by apply (solveBoard_consistent 82 b b' true)|done].
    - intros (t & Ft & Dt & Ct & E).
      apply (solveBoard_finds t 82 Ft Dt Ct b Ok); [|done].
      pose proof (zeros_le_81 (rd b)). lia. }
  split; [done|]. rewrite <- Iff.
  destruct (solveBoard_returns 82 b Ok) as [[r b1] S].
  { pose proof (zeros_le_81 (rd b)). lia. }
  split.
  - intros S' [b' S'']. congruence.
  - intros No. destruct r.
    + destruct No. by exists b1.
    + pose proof (solveBoard_restores 82 b b1 Ok S). by subst b1.
Qed.

Lemma deadEndGrid_ok : ok deadEndGrid.
Proof. split; [reflexivity|]. by repeat constructor. Qed.

Lemma solveBoard_decides_completion_witness :
  solveBoard 82 deadEndGrid = Some (false, deadEndGrid) ∧
  ¬ ∃ t, completion (rd deadEndGrid) t.
Proof.
  assert (solveBoard 82 deadEndGrid = Some (false, deadEndGrid)) as S
    by (vm_compute; reflexivity).
  split; [exact S|].
  apply (solveBoard_decides_completion deadEndGrid).
  - exact deadEndGrid_ok.
  - apply consistent_units. apply (bool_decide_unpack _). by vm_compute.
  - apply digits_cells. apply (bool_decide_unpack _). by vm_compute.
  - exact S.
Defined.

(** X6.  [solveBoard] does not check the cells it is given: on a grid
    without an empty cell it returns [true] at once and leaves the grid
    as it is, whether or not the grid is a valid solution. *)
Theorem solveBoard_full_grid_unchecked {B} `{Board B} depth (b : B) :
  full (rd b) → solveBoard (S depth) b = Some (true, b).
Proof.
  intros F. cbn [solveBoard].
  assert (∀ todo, (∀ p, p ∈ todo → p ∈ cells) →
            scanCells (solveBoard depth) todo b = Some (true, b)) as Scan.
  { induction todo as [|[i j] more IH]; intros Sub; [done|].
    cbn [scanCells].
    assert ((i, j) ∈ cells) as Hc by (apply Sub; left).
    apply elem_of_cells in Hc as [Hi Hj].
    specialize (F i j Hi Hj). apply Nat.eqb_neq in F. rewrite F.
    apply IH. intros p Hp. apply Sub. by right. }
  by apply Scan.
Qed.

Lemma solveBoard_full_grid_unchecked_witness :
  solveBoard 1 allOnes = Some (true, allOnes) ∧ ¬ consistent (rd allOnes).
Proof.
  split.
  - apply (solveBoard_full_grid_unchecked 0 allOnes).
    apply full_cells. apply (bool_decide_unpack _). by vm_compute.
  - intros C. rewrite consistent_peers in C.
    apply (C 0 0 0 1); [lia..|congruence|by left|cbn; lia|reflexivity].
Defined.

(** ** Removal *)

(** X7.  With a source of draws in which every value keeps coming,
    [removeDigits(count)] returns on every board that has at least
    [count] filled cells. *)
Theorem removeDigits_returns {B} `{BoardLaws B} (rnd : source) count (b : B) :
  fair rnd → ok b → count + zeros (rd b) ≤ 81 →
  ∃ n b', ∀ m, n ≤ m →
    removeDigits (prefix rnd m) count b = Some (b', drawsFrom rnd n (m - n)).
Proof.
  intros Fair Ok L.
  destruct (removeDigits_fair rnd Fair count b Ok L 0) as (n & b' & _ & Run).
  exists n, b'. intros m Hm. rewrite prefix_drawsFrom. by apply Run.
Qed.

Lemma removeDigits_returns_witness :
  ∃ n b', ∀ m, n ≤ m →
    removeDigits (prefix countingSource m) 27 seededGrid
    = Some (b', drawsFrom countingSource n (m - n)).
Proof.
  apply (removeDigits_returns countingSource 27 seededGrid).
  - exact countingSource_fair.
  - exact seededGrid_ok.
  - vm_compute. lia.
Defined.

(** X8.  On a board with fewer than [count] filled cells,
    [removeDigits(count)] never returns: whatever the draws, its loop has
    not counted down to zero when they are used up. *)
Theorem removeDigits_never_returns {B} `{BoardLaws B} draws count (b : B) :
  ok b → 81 < count + zeros (rd b) → removeDigits draws count b = None.
Proof.
  intros Ok L. destruct (removeDigits draws count b) as [[b' rest]|] eqn:R; [|done].
  apply removeDigits_spec in R as [Z _]; [|done].
  pose proof (zeros_le_81 (rd b')). lia.
Qed.

Lemma removeDigits_never_returns_witness :
  removeDigits sampleDraws 30 seededGrid = None.
Proof.
  apply (removeDigits_never_returns sampleDraws 30 seededGrid).
  - exact seededGrid_ok.
  - vm_compute. lia.
Defined.

(** ** The constructor *)

(** X9.  The constructor makes a generator of size 9 without a solution,
    whose board is a new object (no object of the heap is changed)
    holding 0 in all 81 cells, and whose nine rows are nine different
    arrays: a write to one cell changes that cell and no other. *)
Theorem constructor_fresh_board (h : heap) :
  let this := (constructor h).1 in
  let h' := (constructor h).2 in
  this_size this = 9 ∧ this_solution this = None ∧
  h !! this_board this = None ∧
  (∀ l, is_Some (h !! l) → h' !! l = h !! l) ∧
  (∀ i j, i < 9 → j < 9 → heapRd (this_board this) h' i j = 0) ∧
  (∀ i j v i' j', i < 9 → j < 9 → i' < 9 → j' < 9 →
     heapRd (this_board this) (heapWr (this_board this) h' i j v) i' j'
     = if decide ((i, j) = (i', j')) then v else 0).
Proof.
  unfold constructor. destruct (newBoard h) as [b h1] eqn:N. cbn.
  apply newBoard_spec in N as (rows & Ok & Fresh & Old & Zero).
  split; [done|]. split; [done|]. split; [apply Fresh; by left|].
  split; [|split; [done|]].
  - intros l [x Hx]. apply Old.
    + intros ->. rewrite Fresh in Hx; [done|by left].
    + intros Hin. rewrite Fresh in Hx; [done|by right].
  - intros i j v i' j' Hi Hj Hi' Hj'. destruct (decide ((i, j) = (i', j'))) as [E|NE].
    + inversion E; subst. by apply (heap_rd_wr_same b rows).
    + rewrite (heap_rd_wr_other b rows) by done. by apply Zero.
Qed.

(** ** The box check of the seeding *)

Lemma diagonalOnly_cells (f : view) :
  Forall (λ p, f p.1 p.2 ≠ 0 → p.1 / 3 = p.2 / 3) cells → diagonalOnly f.
Proof.
  intros F i j Hi Hj NZ. rewrite Forall_forall in F.
  apply (F (i, j)); [by apply elem_of_cells|done].
Qed.

(** X10.  On a grid that is empty outside the diagonal boxes, the box
    check of the seeding says what the full check would: for a cell of a
    diagonal box and a digit, [isSafeInBox] and [isValid] agree. *)
Theorem seed_box_check_is_full_check {B} `{Board B} (b : B) k i j num :
  diagonalOnly (rd b) → k < 3 → i < 3 → j < 3 → num ≠ 0 →
  isSafeInBox b (3 * k) (3 * k) num = isValid b (3 * k + i) (3 * k + j) num.
Proof.
  intros O Hk Hi Hj Nz.
  assert (3 * k + i < 9 ∧ 3 * k + j < 9) as [Hr Hc] by lia.
  destruct (isValid b (3 * k + i) (3 * k + j) num) eqn:V.
  - rewrite isValid_peers in V by done. apply isSafeInBox_spec.
    intros a c Ha Hc'. apply V; [lia|lia|].
    right; right. by rewrite !box_index.
  - destruct (isSafeInBox b (3 * k) (3 * k) num) eqn:S; [|done].
    rewrite isSafeInBox_spec in S.
    assert (isValid b (3 * k + i) (3 * k + j) num = true) as V'; [|congruence].
    apply isValid_peers; [done|done|]. intros a c Ha Hc' P E.
    assert (onDiagonal a c) as D by (apply O; [done|done|lia]).
    destruct (diagonal_box k a c i j) as (i' & j' & Hi' & Hj' & -> & ->); try done.
    by apply (S i' j').
Qed.

Lemma seed_box_check_is_full_check_witness :
  isSafeInBox seededGrid 3 3 5 = isValid seededGrid 4 5 5.
Proof.
  apply (seed_box_check_is_full_check seededGrid 1 1 2 5); try lia.
  apply diagonalOnly_cells. apply (bool_decide_unpack _). by vm_compute.
Defined.

(** * Properties of the controller *)

(** ** formatTime *)

Lemma padStart_table :
  forallb (λ n, String.eqb (padStart 2 "0" (pretty n))
                  (String (digitChar (n / 10))
                     (String (digitChar (n mod 10)) EmptyString)))
          (seq 0 100) = true.
Proof. by vm_compute. Qed.

Lemma two_digits n :
  n < 100 →
  padStart 2 "0" (pretty n)
  = String (digitChar (n / 10)) (String (digitChar (n mod 10)) EmptyString).
Proof.
  intros L. pose proof padStart_table as T. rewrite forallb_forall in T.
  apply String.eqb_eq, T, in_seq. lia.
Qed.

Lemma digitChar_value d : d < 10 → nat_of_ascii (digitChar d) - 48 = d.
Proof.
  intros L. unfold digitChar. rewrite nat_ascii_embedding by lia. lia.
Qed.

Lemma clockValue_clockText m s :
  m < 100 → s < 60 → clockValue (clockText m s) = 60 * m + s.
Proof.
  intros Lm Ls. unfold clockValue, clockText.
  pose proof (Nat.div_mod_eq m 10). pose proof (Nat.div_mod_eq s 10).
  pose proof (Nat.mod_upper_bound m 10 ltac:(lia)).
  pose proof (Nat.mod_upper_bound s 10 ltac:(lia)).
  assert (m / 10 < 10) by (apply Nat.Div0.div_lt_upper_bound; lia).
  assert (s / 10 < 10) by (apply Nat.Div0.div_lt_upper_bound; lia).
  rewrite !digitChar_value by done. lia.
Qed.

(** X11.  Below 100 minutes [formatTime] gives the five characters
    "mm:ss": two digits of minutes, a colon, two digits of seconds; two
    times below 100 minutes with the same text are equal. *)
Theorem formatTime_mm_ss (seconds : nat) :
  seconds < 100 * 60 →
  formatTime seconds = clockText (seconds / 60) (seconds mod 60) ∧
  String.length (formatTime seconds) = 5 ∧
  ∀ other, other < 100 * 60 → formatTime other = formatTime seconds →
    other = seconds.
Proof.
  assert (∀ n, n < 100 * 60 → formatTime n = clockText (n / 60) (n mod 60)) as Tab.
  { intros n Hn. unfold formatTime. cbv zeta.
    pose proof (Nat.mod_upper_bound n 60 ltac:(lia)).
    assert (n / 60 < 100) by (apply Nat.Div0.div_lt_upper_bound; lia).
    rewrite !two_digits by lia. reflexivity. }
  intros L. split; [by apply Tab|]. split; [by rewrite Tab|].
  intros other Lo Eq. rewrite !Tab in Eq by done.
  apply (f_equal clockValue) in Eq.
  pose proof (Nat.mod_upper_bound seconds 60 ltac:(lia)).
  pose proof (Nat.mod_upper_bound other 60 ltac:(lia)).
  assert (seconds / 60 < 100) by (apply Nat.Div0.div_lt_upper_bound; lia).
  assert (other / 60 < 100) by (apply Nat.Div0.div_lt_upper_bound; lia).
  rewrite !clockValue_clockText in Eq by done.
  pose proof (Nat.div_mod_eq seconds 60). pose proof (Nat.div_mod_eq other 60). lia.
Qed.

Lemma formatTime_mm_ss_witness :
  formatTime 754 = "12:34" ∧ String.length (formatTime 754) = 5.
Proof.
  destruct (formatTime_mm_ss 754) as (E & L & _); [lia|].
  split; [exact E|exact L].
Defined.

(** ** Selection *)



(** The boards of the controller and of its generator are 9x9, and the
    rows of [currentBoard] belong to no other board. *)
Definition uiBoards (app : App) (h : heap) : Prop :=
  ∃ rowsI rowsC rowsS rowsG,
    boardAt h (initialBoard app) rowsI ∧ boardAt h (currentBoard app) rowsC ∧
    boardAt h (solutionBoard app) rowsS ∧ boardAt h (this_board (csp app)) rowsG ∧
    ∀ l, l ∈ rowsC → (l ∉ rowsI) ∧ (l ∉ rowsS) ∧ (l ∉ rowsG).

(** ** moveSelection *)

Lemma clamped (key back forth : string) (x : nat) :
  back ≠ forth → x < 9 →
  let z := Z.of_nat x in
  let z := if String.eqb key back then Z.max 0 (z - 1) else z in
  let z := if String.eqb key forth then Z.min 8 (z + 1) else z in
  Z.to_nat z = (if String.eqb key back then x - 1
                else if String.eqb key forth then Nat.min 8 (x + 1) else x).
Proof.
  intros NE Hx. cbv zeta.
  destruct (String.eqb_spec key back) as [E1|N1];
    destruct (String.eqb_spec key forth) as [E2|N2]; try congruence; lia.
Qed.

(** X13.  While the game is active, [moveSelection] moves a selection
    on the board by one cell in the direction of the arrow and stops at
    the edges: the new selection is on the board, its element is the
    child of the board at index [row * 9 + col], and any other key selects
    the same cell again. *)
Theorem moveSelection_stays_on_board key app sel :
  isGameActive app = true → selectedCell app = Some sel →
  sel_row sel < 9 → sel_col sel < 9 →
  ∃ row col,
    selectedCell (moveSelection key app).1
    = Some {| sel_row := row; sel_col := col;
              sel_element := BoardChild (row * 9 + col) |} ∧
    row < 9 ∧ col < 9 ∧
    row = (if String.eqb key "ArrowUp" then sel_row sel - 1
           else if String.eqb key "ArrowDown" then Nat.min 8 (sel_row sel + 1)
           else sel_row sel) ∧
    col = (if String.eqb key "ArrowLeft" then sel_col sel - 1
           else if String.eqb key "ArrowRight" then Nat.min 8 (sel_col sel + 1)
           else sel_col sel).
Proof.
  intros Act Sel Hr Hc. unfold moveSelection. rewrite Sel. cbv zeta.
  unfold selectCell. rewrite Act. cbn [negb fst withSelected selectedCell].
  pose proof (clamped key "ArrowUp" "ArrowDown" (sel_row sel) ltac:(done) Hr) as Er.
  pose proof (clamped key "ArrowLeft" "ArrowRight" (sel_col sel) ltac:(done) Hc) as Ec.
  cbv zeta in Er, Ec.
  set (zr := if String.eqb key "ArrowDown" then _ else _) in *.
  set (zc := if String.eqb key "ArrowRight" then _ else _) in *.
  exists (Z.to_nat zr), (Z.to_nat zc).
  assert (Z.to_nat zr < 9 ∧ Z.to_nat zc < 9) as [Lr Lc].
  { rewrite Er, Ec.
    destruct (String.eqb key "ArrowUp"), (String.eqb key "ArrowDown"),
      (String.eqb key "ArrowLeft"), (String.eqb key "ArrowRight"); lia. }
  assert (0 ≤ zr ∧ 0 ≤ zc)%Z as [Pr Pc].
  { unfold zr, zc.
    destruct (String.eqb key "ArrowUp"), (String.eqb key "ArrowDown"),
      (String.eqb key "ArrowLeft"), (String.eqb key "ArrowRight"); lia. }
  split; [|done]. do 3 f_equal. lia.
Qed.

Lemma moveSelection_stays_on_board_witness :
  let app := {| csp := freshGenerator; initialBoard := 0; currentBoard := 0;
                solutionBoard := 0;
                selectedCell := Some {| sel_row := 0; sel_col := 8;
                                        sel_element := BoardChild 8 |};
                timerInterval := None; timeElapsed := 0; isGameActive := true |} in
  selectedCell (moveSelection "ArrowUp" app).1 = selectedCell app ∧
  selectedCell (moveSelection "ArrowLeft" app).1
  = Some {| sel_row := 0; sel_col := 7; sel_element := BoardChild 7 |}.
Proof.
  intros app.
  destruct (moveSelection_stays_on_board "ArrowUp" app
              {| sel_row := 0; sel_col := 8; sel_element := BoardChild 8 |})
    as (row & col & E & _ & _ & -> & ->); [reflexivity|reflexivity|cbn; lia..|].
  split; [exact E|reflexivity].
Defined.

(** ** Boards of the controller in the heap *)

(** An outer array is no row of a board: it holds references. *)
Lemma outer_not_row h b rows b' rows' :
  boardAt h b rows → boardAt h b' rows' → b ∉ rows'.
Proof.
  intros (Hb & L & _) (_ & _ & _ & _ & Rows) Hin.
  destruct (Rows b Hin) as (ns & E & Ln). rewrite Hb in E.
  destruct rows as [|r rows]; [done|]. destruct ns as [|n ns]; [done|]. done.
Qed.

(** A write to a cell of a board leaves a board that shares no row with it
    as it was. *)
Lemma write_elsewhere h b rows b' rows' i j v :
  boardAt h b rows → boardAt h b' rows' → (∀ l, l ∈ rows → l ∉ rows') →
  boardAt (heapWr b h i j v) b' rows' ∧
  ∀ a c, heapRd b' (heapWr b h i j v) a c = heapRd b' h a c.
Proof.
  intros Ok Ok' Sep.
  assert (∀ l, l = b' ∨ l ∈ rows' → heapWr b h i j v !! l = h !! l) as Same.
  { intros l Hl. apply (heapWr_frame b rows); [done|].
    destruct Hl as [->|Hl]; [by apply (outer_not_row h b' rows' b rows)|].
    intros Hin. by apply (Sep l). }
  split; [by apply (boardAt_frame h)|].
  intros a c. by apply (heapRd_frame h _ b' rows').
Qed.

(** ** fillCell *)

(** X14.  [fillCell] never changes a given: with a given selected it
    does nothing at all; with an empty cell of the puzzle selected it
    writes the number into that cell of the current board and changes no
    other cell.  In both cases the puzzle, the solution and the
    generator's grid stay as they are. *)
Theorem fillCell_protects_givens num app h sel :
  uiBoards app h → selectedCell app = Some sel →
  sel_row sel < 9 → sel_col sel < 9 →
  let h' := (fillCell num app h).1 in
  uiBoards app h' ∧
  readGrid h' (initialBoard app) = readGrid h (initialBoard app) ∧
  readGrid h' (solutionBoard app) = readGrid h (solutionBoard app) ∧
  readGrid h' (this_board (csp app)) = readGrid h (this_board (csp app)) ∧
  (heapRd (initialBoard app) h (sel_row sel) (sel_col sel) ≠ 0 →
     fillCell num app h = (h, [])) ∧
  (heapRd (initialBoard app) h (sel_row sel) (sel_col sel) = 0 →
     ∀ i j, i < 9 → j < 9 →
       heapRd (currentBoard app) h' i j
       = if decide ((i, j) = (sel_row sel, sel_col sel)) then num
         else heapRd (currentBoard app) h i j).
Proof.
  intros Ok Sel Hr Hc. cbv zeta. unfold fillCell. rewrite Sel. cbv zeta.
  destruct (heapRd (initialBoard app) h (sel_row sel) (sel_col sel) =? 0) eqn:Z.
  - apply Nat.eqb_eq in Z. cbn [negb].
    set (h' := heapWr (currentBoard app) h (sel_row sel) (sel_col sel) num).
    assert ((if num =? 0
             then (h', [SetText (sel_element sel) "";
                        RemoveClass (sel_element sel) ["user-input"; "error"]])
             else (h', [SetText (sel_element sel) (pretty num);
                        AddClass (sel_element sel) "user-input";
                        RemoveClass (sel_element sel) ["error"];
                        AddClass (sel_element sel) "success-pop";
                        After 400 (RemoveClass (sel_element sel) ["success-pop"])])).1
            = h') as -> by by destruct (num =? 0).
    destruct Ok as (rowsI & rowsC & rowsS & rowsG & OkI & OkC & OkS & OkG & Sep).
    destruct (write_elsewhere h _ rowsC _ rowsI (sel_row sel) (sel_col sel) num OkC OkI)
      as [OkI' SameI]; [intros l Hl; by apply Sep|].
    destruct (write_elsewhere h _ rowsC _ rowsS (sel_row sel) (sel_col sel) num OkC OkS)
      as [OkS' SameS]; [intros l Hl; by apply Sep|].
    destruct (write_elsewhere h _ rowsC _ rowsG (sel_row sel) (sel_col sel) num OkC OkG)
      as [OkG' SameG]; [intros l Hl; by apply Sep|].
    split; [|split; [|split; [|split; [|split]]]].
    + exists rowsI, rowsC, rowsS, rowsG.
      exact (conj OkI' (conj (heap_wr_ok _ rowsC h _ _ num OkC)
                          (conj OkS' (conj OkG' Sep)))).
    + apply readGrid_ext. intros i j. exact (SameI i j).
    + apply readGrid_ext. intros i j. exact (SameS i j).
    + apply readGrid_ext. intros i j. exact (SameG i j).
    + intros N. done.
    + intros _ i j Hi Hj. unfold h'.
      destruct (decide ((i, j) = (sel_row sel, sel_col sel))) as [E|NE].
      * inversion E; subst. by apply (heap_rd_wr_same _ rowsC).
      * by apply (heap_rd_wr_other _ rowsC).
  - apply Nat.eqb_neq in Z. cbn [negb fst].
    split; [done|]. split; [done|]. split; [done|]. split; [done|].
    split; [done|]. intros E. done.
Qed.

(** ** checkSolution *)

(** The updates of [checkSolution] at one cell. *)
Definition marksAt (app : App) (h : heap) (p : nat * nat) : list update :=
  if heapRd (currentBoard app) h p.1 p.2 =? 0 then []
  else if negb (heapRd (currentBoard app) h p.1 p.2
                =? heapRd (solutionBoard app) h p.1 p.2) then
    (if heapRd (initialBoard app) h p.1 p.2 =? 0
     then [AddClass (CellAt (p.1 * 9 + p.2)) "error"] else [])
  else [RemoveClass (CellAt (p.1 * 9 + p.2)) ["error"]].

(** The first flag of [checkSolution] at the end: no filled cell differs
    from the solution; the second: no cell is empty. *)
Definition allCorrect (app : App) (h : heap) (l : list (nat * nat)) : bool :=
  forallb (λ p, (heapRd (currentBoard app) h p.1 p.2 =? 0)
                || (heapRd (currentBoard app) h p.1 p.2
                    =? heapRd (solutionBoard app) h p.1 p.2)) l.

Definition allFilled (app : App) (h : heap) (l : list (nat * nat)) : bool :=
  forallb (λ p, negb (heapRd (currentBoard app) h p.1 p.2 =? 0)) l.

Lemma checkCell_fold (app : App) (h : heap) l : ∀ isCorrect isComplete ups,
  fold_left (checkCell app h) l (isCorrect, isComplete, ups)
  = (isCorrect && allCorrect app h l, isComplete && allFilled app h l,
     ups ++ flat_map (marksAt app h) l).
Proof.
  unfold allCorrect, allFilled.
  induction l as [|p l IH]; intros c k ups.
  { cbn. by rewrite !andb_true_r, app_nil_r. }
  cbn [fold_left]. unfold checkCell at 2. cbv zeta.
  cbn [forallb flat_map]. unfold marksAt at 1.
  destruct (heapRd (currentBoard app) h p.1 p.2 =? 0) eqn:Z.
  - rewrite IH. cbn. by rewrite andb_false_r.
  - destruct (heapRd (currentBoard app) h p.1 p.2
              =? heapRd (solutionBoard app) h p.1 p.2) eqn:E;
      cbn [negb]; rewrite IH; cbn.
    + by rewrite <- app_assoc.
    + rewrite andb_false_r, <- app_assoc. done.
Qed.

Lemma checkSolution_flags (app : App) (h : heap) :
  checkSolution app h
  = if allFilled app h cells && allCorrect app h cells
    then (withActive app false, flat_map (marksAt app h) cells ++ (gameWon app).2)
    else (app, flat_map (marksAt app h) cells).
Proof.
  unfold checkSolution. rewrite checkCell_fold. cbn [andb Datatypes.app].
  by destruct (_ && _).
Qed.

(** X15.  [checkSolution] ends the game exactly when the current board has
    no empty cell and holds the digit of the stored solution in every
    cell; if some cell is empty or differs from the stored solution, the
    state of the controller is unchanged. *)
Theorem checkSolution_win_condition (app : App) (h : heap) :
  ((∀ i j, i < 9 → j < 9 →
      heapRd (currentBoard app) h i j ≠ 0 ∧
      heapRd (currentBoard app) h i j = heapRd (solutionBoard app) h i j) →
   (checkSolution app h).1 = withActive app false) ∧
  (∀ i j, i < 9 → j < 9 →
     heapRd (currentBoard app) h i j = 0 ∨
     heapRd (currentBoard app) h i j ≠ heapRd (solutionBoard app) h i j →
     (checkSolution app h).1 = app).
Proof.
  rewrite checkSolution_flags. unfold allFilled, allCorrect. split.
  - intros Solved.
    assert (forallb (λ p, negb (heapRd (currentBoard app) h p.1 p.2 =? 0)) cells
            && forallb (λ p, (heapRd (currentBoard app) h p.1 p.2 =? 0)
                             || (heapRd (currentBoard app) h p.1 p.2
                                 =? heapRd (solutionBoard app) h p.1 p.2)) cells
            = true) as ->; [|done].
    apply andb_true_intro. split; apply forallb_forall; intros [i j] Hin;
      apply list_elem_of_In, elem_of_cells in Hin as [Hi Hj];
      destruct (Solved i j Hi Hj) as [NZ E]; cbn [fst snd].
    + apply negb_true_iff. by apply Nat.eqb_neq.
    + apply orb_true_iff. right. by apply Nat.eqb_eq.
  - intros i j Hi Hj Bad.
    assert (forallb (λ p, negb (heapRd (currentBoard app) h p.1 p.2 =? 0)) cells
            && forallb (λ p, (heapRd (currentBoard app) h p.1 p.2 =? 0)
                             || (heapRd (currentBoard app) h p.1 p.2
                                 =? heapRd (solutionBoard app) h p.1 p.2)) cells
            = false) as ->; [|done].
    apply andb_false_iff.
    assert (In (i, j) cells) as Hin by (by apply list_elem_of_In, elem_of_cells).
    destruct (heapRd (currentBoard app) h i j =? 0) eqn:Z.
    + left. apply not_true_is_false. intros F. rewrite forallb_forall in F.
      specialize (F (i, j) Hin). cbn [fst snd] in F. by rewrite Z in F.
    + right. apply not_true_is_false. intros F. rewrite forallb_forall in F.
      specialize (F (i, j) Hin). cbn [fst snd] in F. rewrite Z in F. cbn in F.
      apply Nat.eqb_eq in F. apply Nat.eqb_neq in Z. destruct Bad; done.
Qed.

(** X16.  [checkSolution] adds the class [error] to the cell number [k]
    of the page exactly when [k] is a cell of the board that the player
    filled (not a given) with a digit other than that of the stored
    solution. *)
Theorem checkSolution_marks_wrong_entries (app : App) (h : heap) k :
  AddClass (CellAt k) "error" ∈ (checkSolution app h).2 ↔
  ∃ i j, i < 9 ∧ j < 9 ∧ k = i * 9 + j ∧
    heapRd (currentBoard app) h i j ≠ 0 ∧
    heapRd (currentBoard app) h i j ≠ heapRd (solutionBoard app) h i j ∧
    heapRd (initialBoard app) h i j = 0.
Proof.
  rewrite checkSolution_flags.
  assert (AddClass (CellAt k) "error" ∈ flat_map (marksAt app h) cells ↔
          ∃ i j, i < 9 ∧ j < 9 ∧ k = i * 9 + j ∧
            heapRd (currentBoard app) h i j ≠ 0 ∧
            heapRd (currentBoard app) h i j ≠ heapRd (solutionBoard app) h i j ∧
            heapRd (initialBoard app) h i j = 0) as Marks.
  { rewrite list_elem_of_In, in_flat_map. split.
    - intros ([i j] & Hin & M). apply list_elem_of_In, elem_of_cells in Hin as [Hi Hj].
      unfold marksAt in M. cbn [fst snd] in M.
      destruct (heapRd (currentBoard app) h i j =? 0) eqn:Z; [done|].
      destruct (heapRd (currentBoard app) h i j =? heapRd (solutionBoard app) h i j)
        eqn:E; cbn [negb] in M.
      + destruct M as [M|[]]. done.
      + destruct (heapRd (initialBoard app) h i j =? 0) eqn:I; [|done].
        destruct M as [M|[]]. inversion M; subst k.
        apply Nat.eqb_neq in Z, E. apply Nat.eqb_eq in I. by exists i, j.
    - intros (i & j & Hi & Hj & -> & NZ & NE & I). exists (i, j).
      split; [by apply list_elem_of_In, elem_of_cells|].
      unfold marksAt. cbn [fst snd].
      apply Nat.eqb_neq in NZ, NE. apply Nat.eqb_eq in I. rewrite NZ, NE, I.
      by left. }
  destruct (_ && _); cbn [snd]; [|done].
  rewrite elem_of_app, Marks. split; [|by left].
  intros [M|M]; [done|]. cbn in M.
  repeat (apply elem_of_cons in M as [M|M]; [done|]). by apply elem_of_nil in M.
Qed.

(** ** startNewGame *)

Lemma readGrid_same (h h' : heap) b b' :
  (∀ i j, heapRd b h i j = heapRd b' h' i j) → readGrid h b = readGrid h' b'.
Proof.
  intros E. unfold readGrid, toGrid. apply map_ext. intros i.
  apply map_ext. intros j. apply E.
Qed.

(** What a completed [startNewGame] leaves behind. *)
Lemma startNewGame_run draws timerId app h app' h' rest ups :
  startNewGame draws timerId app h = Some (app', h', rest, ups) →
  uiBoards app' h' ∧
  this_solution (csp app') = Some (solutionBoard app') ∧
  initialBoard app' ≠ this_board (csp app') ∧
  readGrid h' (initialBoard app') = readGrid h' (this_board (csp app')) ∧
  readGrid h' (currentBoard app') = readGrid h' (initialBoard app') ∧
  isSolution (heapRd (solutionBoard app') h') ∧
  zeros (heapRd (currentBoard app') h') = 40 ∧
  (∀ i j, i < 9 → j < 9 → heapRd (initialBoard app') h' i j ≠ 0 →
     heapRd (initialBoard app') h' i j = heapRd (solutionBoard app') h' i j) ∧
  isGameActive app' = true ∧ selectedCell app' = None ∧
  timeElapsed app' = 0 ∧ timerInterval app' = Some timerId ∧
  (∀ l, is_Some (h !! l) → h' !! l = h !! l).
Proof.
  unfold startNewGame. intros S.
  apply bind_Some in S as ([[[g csp'] h1] d1] & G & S).
  apply bind_Some in S as ([ib h2] & C1 & S).
  apply bind_Some in S as ([cb h3] & C2 & S).
  cbv beta iota zeta delta [startTimer] in S.
  inversion S; subst app' h' rest ups. clear S.
  cbn [csp initialBoard currentBoard solutionBoard selectedCell timerInterval
       timeElapsed isGameActive withSelected withActive withTimer].
  apply generateNewGame_run in G
    as (rowsB & rowsS & -> & OkB & OkS & Fresh & (N1 & N2 & N3 & Sep) & Old
        & Sol & Zs & Keep).
  cbn [this_board this_solution].
  destruct (copyBoard_spec h1 (initial g) rowsB OkB)
    as (ib' & h2' & rowsI & C1' & OkI & FreshI & OldI & CopyI).
  rewrite C1 in C1'. inversion C1'; subst ib' h2'. clear C1'.
  destruct (copyBoard_spec h2 ib rowsI OkI)
    as (cb' & h3' & rowsC & C2' & OkC & FreshC & OldC & CopyC).
  rewrite C2 in C2'. inversion C2'; subst cb' h3'. clear C2'.
  (* what exists in an older heap is no new object *)
  assert (∀ (hh : heap) b rows l, boardAt hh b rows → l = b ∨ l ∈ rows →
            is_Some (hh !! l)) as Live.
  { intros hh b rows l (Hb & _ & _ & _ & Rows) [->|Hl]; [by eexists|].
    destruct (Rows l Hl) as (ns & E & _). by eexists. }
  assert (∀ l, is_Some (h1 !! l) → l ≠ ib ∧ l ∉ rowsI) as NewI.
  { intros l [x Hx]. split; [intros ->|intros Hin]; rewrite FreshI in Hx; auto; done. }
  assert (∀ l, is_Some (h2 !! l) → l ≠ cb ∧ l ∉ rowsC) as NewC.
  { intros l [x Hx]. split; [intros ->|intros Hin]; rewrite FreshC in Hx; auto; done. }
  assert (∀ b rows, boardAt h1 b rows →
            boardAt h3 b rows ∧ ∀ i j, heapRd b h3 i j = heapRd b h1 i j) as Keep1.
  { intros b rows Ok.
    assert (∀ l, l = b ∨ l ∈ rows → h3 !! l = h1 !! l) as Same.
    { intros l Hl. pose proof (Live h1 b rows l Ok Hl) as L1.
      destruct (NewI l L1) as [? ?].
      assert (is_Some (h2 !! l)) as L2 by (rewrite OldI; done).
      destruct (NewC l L2) as [? ?]. rewrite OldC, OldI; done. }
    split; [by apply (boardAt_frame h1)|].
    intros i j. by apply (heapRd_frame h1 h3 b rows). }
  assert (boardAt h3 ib rowsI ∧ ∀ i j, heapRd ib h3 i j = heapRd ib h2 i j)
    as [OkI3 SameI].
  { assert (∀ l, l = ib ∨ l ∈ rowsI → h3 !! l = h2 !! l) as Same.
    { intros l Hl. destruct (NewC l (Live h2 ib rowsI l OkI Hl)) as [? ?].
      by apply OldC. }
    split; [by apply (boardAt_frame h2)|].
    intros i j. by apply (heapRd_frame h2 h3 ib rowsI). }
  destruct (Keep1 _ _ OkB) as [OkB3 SameB]. destruct (Keep1 _ _ OkS) as [OkS3 SameS].
  assert (∀ i j, heapRd ib h3 i j = heapRd (initial g) h1 i j) as EqI
    by (intros i j; by rewrite SameI, CopyI).
  split; [|split; [done|split; [|split; [|split; [|split; [|split; [|split]]]]]]].
  - exists rowsI, rowsC, rowsS, rowsB.
    split; [done|]. split; [done|]. split; [done|]. split; [done|].
    intros l Hl.
    assert (h2 !! l = None) as Nl by (apply FreshC; by right).
    assert (∀ hh b rows, boardAt hh b rows → (∀ x, x ∈ rows → is_Some (h2 !! x)) →
              l ∉ rows) as Out.
    { intros hh b rows _ L Hin. destruct (L l Hin) as [x Hx]. congruence. }
    split; [|split].
    + apply (Out h2 ib rowsI OkI). intros x Hx. apply (Live h2 ib rowsI); auto.
    + apply (Out h1 (solution g) rowsS OkS). intros x Hx.
      pose proof (Live h1 (solution g) rowsS x OkS (or_intror Hx)) as L1.
      destruct (NewI x L1) as [? ?]. rewrite OldI; done.
    + apply (Out h1 (initial g) rowsB OkB). intros x Hx.
      pose proof (Live h1 (initial g) rowsB x OkB (or_intror Hx)) as L1.
      destruct (NewI x L1) as [? ?]. rewrite OldI; done.
  - intros E. destruct (NewI (initial g)) as [Ne _]; [|congruence].
    apply (Live h1 (initial g) rowsB); auto.
  - apply readGrid_same. intros i j. by rewrite EqI, SameB.
  - apply readGrid_same. intros i j. by rewrite CopyC, SameI.
  - apply (isSolution_ext (heapRd (solution g) h1)); [|done].
    intros i j. by rewrite SameS.
  - change 40 with (attemptsFor (defaultMedium JUndefined)).
    rewrite <- Zs. apply zeros_ext. intros i j. by rewrite CopyC, CopyI.
  - intros i j Hi Hj. rewrite EqI, SameS. by apply Keep.
  - split; [done|]. split; [done|]. split; [done|]. split; [done|].
    intros l Hl. pose proof Hl as [x Hx].
    assert (h1 !! l = h !! l) as E1 by by apply Old.
    assert (is_Some (h1 !! l)) as L1 by (rewrite E1; done).
    destruct (NewI l L1) as [? ?].
    assert (is_Some (h2 !! l)) as L2 by (rewrite OldI; done).
    destruct (NewC l L2) as [? ?]. rewrite OldC, OldI; done.
Qed.



Lemma sampleGame_started :
  ∃ rest ups,
    startNewGame sampleDraws 1 (newApp ∅).1 (newApp ∅).2
    = Some (sampleGame.1, sampleGame.2, rest, ups).
Proof. do 2 eexists. vm_compute. reflexivity. Qed.

Lemma sampleGame_facts :
  uiBoards sampleGame.1 sampleGame.2 ∧
  isSolution (heapRd (solutionBoard sampleGame.1) sampleGame.2).
Proof.
  destruct sampleGame_started as (rest & ups & E).
  destruct (startNewGame_run sampleDraws 1 (newApp ∅).1 (newApp ∅).2
              sampleGame.1 sampleGame.2 rest ups E)
    as (Ok & _ & _ & _ & _ & Sol & _).
  by split.
Qed.

Lemma sampleGame_boards : uiBoards sampleGame.1 sampleGame.2.
Proof. exact (proj1 sampleGame_facts). Qed.


Lemma fillCell_protects_givens_witness :
  heapRd (currentBoard sampleAtEmpty) (fillCell 5 sampleAtEmpty sampleGame.2).1 0 0 = 5 ∧
  fillCell 5 sampleAtGiven sampleGame.2 = (sampleGame.2, []).
Proof.
  split.
  - destruct (fillCell_protects_givens 5 sampleAtEmpty sampleGame.2
                {| sel_row := 0; sel_col := 0; sel_element := BoardChild 0 |})
      as (_ & _ & _ & _ & _ & W); [exact sampleGame_boards|reflexivity|cbn; lia..|].
    rewrite (W ltac:(vm_compute; reflexivity) 0 0) by lia. reflexivity.
  - destruct (fillCell_protects_givens 5 sampleAtGiven sampleGame.2
                {| sel_row := 8; sel_col := 8; sel_element := BoardChild 80 |})
      as (_ & _ & _ & _ & G & _); [exact sampleGame_boards|reflexivity|cbn; lia..|].
    apply G. vm_compute. lia.
Defined.

Lemma checkSolution_win_condition_witness :
  (checkSolution sampleGame.1 sampleGame.2).1 = sampleGame.1 ∧
  (checkSolution sampleSolved sampleGame.2).1 = withActive sampleSolved false.
Proof.
  destruct (checkSolution_win_condition sampleGame.1 sampleGame.2) as [_ Lose].
  destruct (checkSolution_win_condition sampleSolved sampleGame.2) as [Win _].
  split.
  - apply (Lose 0 0); [lia|lia|]. left. vm_compute. reflexivity.
  - apply Win. intros i j Hi Hj. split; [|reflexivity].
    destruct sampleGame_facts as (_ & [F _]). by apply F.
Defined.

Lemma checkSolution_marks_wrong_entries_witness :
  AddClass (CellAt 0) "error"
    ∈ (checkSolution sampleAtEmpty (fillCell 5 sampleAtEmpty sampleGame.2).1).2.
Proof.
  apply checkSolution_marks_wrong_entries. exists 0, 0.
  split; [lia|]. split; [lia|]. split; [reflexivity|].
  split; [|split]; vm_compute; [lia|lia|reflexivity].
Defined.

(** ** A game in play *)

(** [app'], [h'] continue the game of [app], [h]: the same boards, the
    puzzle, the solution and the generator's grid as they were, and the
    givens still in place on the current board. *)
Definition sameGame (app : App) (h : heap) (app' : App) (h' : heap) : Prop :=
  initialBoard app' = initialBoard app ∧ currentBoard app' = currentBoard app ∧
  solutionBoard app' = solutionBoard app ∧ csp app' = csp app ∧
  (∀ i j, heapRd (initialBoard app) h' i j = heapRd (initialBoard app) h i j) ∧
  (∀ i j, heapRd (solutionBoard app) h' i j = heapRd (solutionBoard app) h i j) ∧
  (∀ i j, heapRd (this_board (csp app)) h' i j
          = heapRd (this_board (csp app)) h i j) ∧
  (∀ i j, i < 9 → j < 9 → heapRd (initialBoard app) h i j ≠ 0 →
     heapRd (currentBoard app) h' i j = heapRd (currentBoard app) h i j).

Lemma uiBoards_fields app app' h :
  initialBoard app' = initialBoard app → currentBoard app' = currentBoard app →
  solutionBoard app' = solutionBoard app → csp app' = csp app →
  uiBoards app h → uiBoards app' h.
Proof. unfold uiBoards. by intros -> -> -> ->. Qed.

Lemma sameGame_fields app app' h :
  initialBoard app' = initialBoard app → currentBoard app' = currentBoard app →
  solutionBoard app' = solutionBoard app → csp app' = csp app →
  sameGame app h app' h.
Proof. intros. by repeat split. Qed.

Lemma sameGame_trans app h app1 h1 app2 h2 :
  sameGame app h app1 h1 → sameGame app1 h1 app2 h2 → sameGame app h app2 h2.
Proof.
  intros (I1 & C1 & S1 & G1 & RI1 & RS1 & RG1 & K1)
         (I2 & C2 & S2 & G2 & RI2 & RS2 & RG2 & K2).
  rewrite I1 in I2, RI2, K2. rewrite C1 in C2, K2. rewrite S1 in S2, RS2.
  rewrite G1 in G2, RG2.
  split; [done|]. split; [done|]. split; [done|]. split; [done|].
  split; [|split; [|split]].
  - intros i j. by rewrite RI2.
  - intros i j. by rewrite RS2.
  - intros i j. by rewrite RG2.
  - intros i j Hi Hj NZ. rewrite K2; [by apply K1|done|done|]. by rewrite RI1.
Qed.

Lemma selectCell_fields cell row col app :
  let app' := (selectCell cell row col app).1 in
  initialBoard app' = initialBoard app ∧ currentBoard app' = currentBoard app ∧
  solutionBoard app' = solutionBoard app ∧ csp app' = csp app ∧
  (selectedCell app' = selectedCell app ∨
   selectedCell app' = Some {| sel_row := row; sel_col := col; sel_element := cell |}).
Proof.
  unfold selectCell. destruct (isGameActive app); cbn; auto 10.
Qed.

Lemma moveSelection_fields key app :
  selectionOnBoard app →
  let app' := (moveSelection key app).1 in
  initialBoard app' = initialBoard app ∧ currentBoard app' = currentBoard app ∧
  solutionBoard app' = solutionBoard app ∧ csp app' = csp app ∧
  selectionOnBoard app'.
Proof.
  intros On. cbv zeta. unfold moveSelection.
  destruct (selectedCell app) as [sel|] eqn:Sel; [|by cbn [fst]].
  cbv zeta. destruct (On sel Sel) as [Hr Hc].
  pose proof (clamped key "ArrowUp" "ArrowDown" (sel_row sel) ltac:(done) Hr) as Er.
  pose proof (clamped key "ArrowLeft" "ArrowRight" (sel_col sel) ltac:(done) Hc) as Ec.
  cbv zeta in Er, Ec.
  set (zr := if String.eqb key "ArrowDown" then _ else _) in *.
  set (zc := if String.eqb key "ArrowRight" then _ else _) in *.
  destruct (selectCell_fields (BoardChild (Z.to_nat (zr * 9 + zc)))
              (Z.to_nat zr) (Z.to_nat zc) app) as (? & ? & ? & ? & S).
  do 4 (split; [done|]). intros s Hs.
  destruct S as [S|S]; rewrite S in Hs.
  - by apply On.
  - inversion Hs; subst s. cbn. rewrite Er, Ec.
    destruct (String.eqb key "ArrowUp"), (String.eqb key "ArrowDown"),
      (String.eqb key "ArrowLeft"), (String.eqb key "ArrowRight"); lia.
Qed.

Lemma checkSolution_fields app h :
  let app' := (checkSolution app h).1 in
  initialBoard app' = initialBoard app ∧ currentBoard app' = currentBoard app ∧
  solutionBoard app' = solutionBoard app ∧ csp app' = csp app ∧
  selectedCell app' = selectedCell app.
Proof. rewrite checkSolution_flags. cbv zeta. by destruct (_ && _). Qed.

Lemma fillCell_boards num app h :
  uiBoards app h → selectionOnBoard app →
  let h' := (fillCell num app h).1 in
  uiBoards app h' ∧ sameGame app h app h'.
Proof.
  intros Ok On. cbv zeta. unfold fillCell.
  destruct (selectedCell app) as [sel|] eqn:Sel;
    [|split; [done|by apply sameGame_fields]].
  destruct (On sel Sel) as [Hr Hc]. cbv zeta.
  destruct (heapRd (initialBoard app) h (sel_row sel) (sel_col sel) =? 0) eqn:Z;
    [|split; [done|by apply sameGame_fields]].
  apply Nat.eqb_eq in Z. cbn [negb].
  set (h' := heapWr (currentBoard app) h (sel_row sel) (sel_col sel) num).
  assert ((if num =? 0
           then (h', [SetText (sel_element sel) "";
                      RemoveClass (sel_element sel) ["user-input"; "error"]])
           else (h', [SetText (sel_element sel) (pretty num);
                      AddClass (sel_element sel) "user-input";
                      RemoveClass (sel_element sel) ["error"];
                      AddClass (sel_element sel) "success-pop";
                      After 400 (RemoveClass (sel_element sel) ["success-pop"])])).1
          = h') as -> by by destruct (num =? 0).
  destruct Ok as (rowsI & rowsC & rowsS & rowsG & OkI & OkC & OkS & OkG & Sep).
  destruct (write_elsewhere h _ rowsC _ rowsI (sel_row sel) (sel_col sel) num OkC OkI)
    as [OkI' SameI]; [intros l Hl; by apply Sep|].
  destruct (write_elsewhere h _ rowsC _ rowsS (sel_row sel) (sel_col sel) num OkC OkS)
    as [OkS' SameS]; [intros l Hl; by apply Sep|].
  destruct (write_elsewhere h _ rowsC _ rowsG (sel_row sel) (sel_col sel) num OkC OkG)
    as [OkG' SameG]; [intros l Hl; by apply Sep|].
  split.
  - exists rowsI, rowsC, rowsS, rowsG.
    exact (conj OkI' (conj (heap_wr_ok _ rowsC h _ _ num OkC)
                        (conj OkS' (conj OkG' Sep)))).
  - do 4 (split; [done|]). split; [done|]. split; [done|]. split; [done|].
    intros i j Hi Hj NZ. apply (heap_rd_wr_other _ rowsC); try done.
    intros E. inversion E; subst. done.
Qed.

Lemma perform_step app h c :
  uiBoards app h → selectionOnBoard app → onBoard c →
  let s := perform (app, h) c in
  uiBoards s.1 s.2 ∧ selectionOnBoard s.1 ∧ sameGame app h s.1 s.2.
Proof.
  intros Ok On Hc. cbv zeta. destruct c as [row col|key|num| | |]; cbn [perform fst snd].
  - destruct (selectCell_fields (BoardChild (row * 9 + col)) row col app)
      as (I & C & S & G & Sel).
    split; [by apply (uiBoards_fields app)|]. split; [|by apply sameGame_fields].
    intros s Hs. destruct Sel as [E|E]; rewrite E in Hs; [by apply On|].
    inversion Hs; subst s. exact Hc.
  - destruct (isGameActive app); cbn [negb fst snd];
      [|split; [done|]; split; [done|]; by apply sameGame_fields].
    destruct (moveSelection_fields key app On) as (I & C & S & G & On').
    split; [by apply (uiBoards_fields app)|]. split; [done|by apply sameGame_fields].
  - destruct (isGameActive app); cbn [negb fst snd];
      [|split; [done|]; split; [done|]; by apply sameGame_fields].
    destruct (fillCell_boards num app h Ok On) as [Ok' Same]. done.
  - destruct (checkSolution_fields app h) as (I & C & S & G & Sel).
    split; [by apply (uiBoards_fields app)|]. split; [|by apply sameGame_fields].
    intros s Hs. rewrite Sel in Hs. by apply On.
  - split; [done|]. split; [done|]. by apply sameGame_fields.
  - split; [done|]. split; [done|]. by apply sameGame_fields.
Qed.

Lemma play_run calls : ∀ app h,
  uiBoards app h → selectionOnBoard app → Forall onBoard calls →
  let s := fold_left perform calls (app, h) in
  uiBoards s.1 s.2 ∧ selectionOnBoard s.1 ∧ sameGame app h s.1 s.2.
Proof.
  induction calls as [|c calls IH]; intros app h Ok On F; cbv zeta.
  { cbn. split; [done|]. split; [done|]. by apply sameGame_fields. }
  apply Forall_cons in F as [Hc F]. cbn [fold_left].
  destruct (perform_step app h c Ok On Hc) as (Ok1 & On1 & Same1).
  destruct (perform (app, h) c) as [app1 h1]. cbn [fst snd] in *.
  destruct (IH app1 h1 Ok1 On1 F) as (Ok2 & On2 & Same2).
  split; [done|]. split; [done|]. by apply (sameGame_trans app h app1 h1).
Qed.

(** X18.  Whatever the player does in a game (clicks on cells, arrow
    keys, digits and clears, checks, ticks of the timer), the puzzle, the
    solution and the generator's grid stay as they were, and every given
    of the puzzle is still in its cell of the current board. *)
Theorem play_keeps_givens calls app h :
  uiBoards app h → selectionOnBoard app → Forall onBoard calls →
  let s := fold_left perform calls (app, h) in
  readGrid s.2 (initialBoard s.1) = readGrid h (initialBoard app) ∧
  readGrid s.2 (solutionBoard s.1) = readGrid h (solutionBoard app) ∧
  readGrid s.2 (this_board (csp s.1)) = readGrid h (this_board (csp app)) ∧
  ∀ i j, i < 9 → j < 9 → heapRd (initialBoard app) h i j ≠ 0 →
    heapRd (currentBoard s.1) s.2 i j = heapRd (currentBoard app) h i j.
Proof.
  intros Ok On F. cbv zeta.
  destruct (play_run calls app h Ok On F)
    as (_ & _ & I & C & S & G & RI & RS & RG & K).
  rewrite I, C, S, G.
  split; [by apply readGrid_ext|]. split; [by apply readGrid_ext|].
  split; [by apply readGrid_ext|done].
Qed.

Lemma play_keeps_givens_witness :
  heapRd (currentBoard (fold_left perform samplePlay (sampleGame.1, sampleGame.2)).1)
         (fold_left perform samplePlay (sampleGame.1, sampleGame.2)).2 8 8
  = heapRd (currentBoard sampleGame.1) sampleGame.2 8 8 ∧
  heapRd (currentBoard sampleGame.1) sampleGame.2 8 8 = 9 ∧
  heapRd (currentBoard (fold_left perform samplePlay (sampleGame.1, sampleGame.2)).1)
         (fold_left perform samplePlay (sampleGame.1, sampleGame.2)).2 0 0 = 3.
Proof.
  destruct (play_keeps_givens samplePlay sampleGame.1 sampleGame.2) as (_ & _ & _ & K).
  - exact sampleGame_boards.
  - intros sel Hsel. discriminate Hsel.
  - repeat constructor; cbn; lia.
  - split; [|split; vm_compute; reflexivity].
    apply K; [lia|lia|]. vm_compute. lia.
Defined.

(** * Every seed can be completed *)

(** ** Colourings *)

Lemma third_neq a b : a ≠ b → third a b ≠ a ∧ third a b ≠ b.
Proof. by destruct a, b. Qed.

Lemma triEqb_eq a b : triEqb a b = true ↔ a = b.
Proof. by destruct a, b. Qed.

Lemma thirdL_length c u : length c = length u → length (thirdL c u) = length u.
Proof.
  revert u. induction c as [|a c IH]; intros [|b u] E; simpl in *; try done.
  f_equal. apply IH. lia.
Qed.

Lemma at3_thirdL c u k :
  length c = length u → at3 (thirdL c u) k = third (at3 c k) (at3 u k).
Proof.
  unfold at3. revert u k. induction c as [|a c IH]; intros [|b u] k E; simpl in *; try done.
  - by destruct k.
  - destruct k; [done|]. apply IH. lia.
Qed.

Lemma differsb_spec c u :
  differsb c u = true → length c = length u ∧ ∀ k, k < length u → at3 u k ≠ at3 c k.
Proof.
  unfold at3. revert u. induction c as [|a c IH]; intros [|b u] D; simpl in *; try done.
  - split; [done|]. intros k Hk. lia.
  - apply andb_prop in D as [N D]. apply IH in D as [E P]. split; [lia|].
    intros [|k] Hk.
    + intros ->. apply negb_true_iff in N.
      assert (triEqb a a = true) by by apply triEqb_eq. congruence.
    + apply P. lia.
Qed.

Lemma differsb_complete c u :
  length c = length u → (∀ k, k < length u → at3 u k ≠ at3 c k) → differsb c u = true.
Proof.
  unfold at3. revert u. induction c as [|a c IH]; intros [|b u] E D; simpl in *; try done.
  apply andb_true_intro. split.
  - apply negb_true_iff. destruct (triEqb a b) eqn:Eq; [|done].
    apply triEqb_eq in Eq. subst. by destruct (D 0); [lia|].
  - apply IH; [lia|]. intros k Hk. apply (D (S k)). lia.
Qed.

Lemma Orth_sym u v : Orth u v → Orth v u.
Proof. intros O a b. destruct (O b a) as (k & Hk & E1 & E2). by exists k. Qed.

Lemma at3_lookup u k : k < length u → u !! k = Some (at3 u k).
Proof.
  intros Hk. unfold at3. destruct (nth_lookup_or_length u k T0); [done|lia].
Qed.

Lemma lookup_at3 u k a : u !! k = Some a → at3 u k = a.
Proof. intros E. unfold at3. by apply nth_lookup_Some. Qed.

Lemma eqCol_eq u v : eqCol u v = true ↔ u = v.
Proof.
  revert v. induction u as [|a u IH]; intros [|b v]; simpl; try done.
  rewrite andb_true_iff, triEqb_eq, IH. split; [by intros [-> ->]|].
  intros E. by inversion E.
Qed.

Lemma memCol_elem u l : memCol u l = true ↔ u ∈ l.
Proof.
  unfold memCol. rewrite existsb_exists. split.
  - intros (v & Hin & E). apply eqCol_eq in E as ->. by apply list_elem_of_In.
  - intros Hin. exists u. split; [by apply list_elem_of_In|by apply eqCol_eq].
Qed.

Lemma nodupCol_NoDup l : nodupCol l = true → NoDup l.
Proof.
  induction l as [|u l IH]; simpl; [constructor|].
  rewrite andb_true_iff, negb_true_iff. intros [M N]. constructor; [|by apply IH].
  intros Hin. apply memCol_elem in Hin. congruence.
Qed.

Lemma nodupInt_NoDup l : nodupInt l = true → NoDup l.
Proof.
  induction l as [|x l IH]; simpl; [constructor|].
  rewrite andb_true_iff. intros [M N]. constructor; [|by apply IH].
  intros Hin. apply list_elem_of_In in Hin.
  pose proof (proj1 (forallb_forall _ _) M x Hin) as E. cbv beta in E.
  apply negb_true_iff in E. by rewrite Uint63.eqb_refl in E.
Qed.

(** *** Enumerations *)

Lemma colorings_length n u : u ∈ colorings n → length u = n.
Proof.
  revert u. induction n as [|n IH]; intros u Hin; simpl in Hin.
  - apply list_elem_of_singleton in Hin. by subst.
  - apply list_elem_of_In, in_flat_map in Hin as (l & Hl & Hu).
    apply list_elem_of_In, IH in Hl.
    simpl in Hu. destruct Hu as [<-|[<-|[<-|[]]]]; simpl; lia.
Qed.

Lemma elem_of_colorings u : u ∈ colorings (length u).
Proof.
  induction u as [|a u IH]; simpl; [by left|].
  apply list_elem_of_In, in_flat_map. exists u. split; [by apply list_elem_of_In|].
  destruct a; simpl; auto.
Qed.

Lemma counts_length u n0 n1 n2 :
  counts u n0 n1 n2 = true → length u + n0 + n1 + n2 = 9.
Proof.
  revert n0 n1 n2. induction u as [|a u IH]; intros n0 n1 n2 C; simpl in *.
  - apply andb_prop in C as [C C2]. apply andb_prop in C as [C0 C1].
    apply Nat.eqb_eq in C0, C1, C2. lia.
  - destruct a; apply IH in C; lia.
Qed.

Lemma balanced_length u : balancedb u = true → length u = 9.
Proof. intros C. apply counts_length in C. lia. Qed.

Lemma elem_of_allCols u : u ∈ allCols ↔ balancedb u = true.
Proof.
  unfold allCols. rewrite list_elem_of_filter. split; [by intros [? _]|].
  intros C. split; [done|]. rewrite <- (balanced_length u C). apply elem_of_colorings.
Qed.

Lemma elem_of_nbrs c u :
  u ∈ nbrs c ↔ balancedb u = true ∧ differsb c u = true.
Proof.
  unfold nbrs. rewrite list_elem_of_filter, elem_of_allCols. tauto.
Qed.

Lemma nbrs_Differs c u : u ∈ nbrs c → length c = 9 ∧ Differs c u.
Proof.
  intros [B D]%elem_of_nbrs. apply balanced_length in B.
  apply differsb_spec in D as [E D]. split; [lia|]. split; [done|].
  intros k Hk. apply D. lia.
Qed.

Lemma Differs_nbrs c u :
  length c = 9 → balancedb u = true → Differs c u → u ∈ nbrs c.
Proof.
  intros Lc B [Lu D]. apply elem_of_nbrs. split; [done|].
  apply differsb_complete; [lia|]. intros k Hk. apply D. lia.
Qed.

(** *** Machine integers as sets *)

Lemma bit_one_lsl j j' : Uint63.bit (Uint63.lsl 1 j) j' = true → j' = j.
Proof.
  rewrite Uint63.bit_lsl, Uint63.bit_1.
  destruct (Uint63.ltb j' j) eqn:Lt; [done|].
  destruct (Uint63.leb Uint63.digits j') eqn:Le; [done|]. simpl.
  intros E. apply Uint63.eqb_spec in E.
  apply Uint63.to_Z_inj.
  assert (¬ (Uint63.to_Z j' < Uint63.to_Z j)%Z) as N.
  { intros Hlt. apply Uint63.ltb_spec in Hlt. congruence. }
  pose proof (f_equal Uint63.to_Z E) as EZ.
  rewrite Uint63.sub_spec in EZ. change (Uint63.to_Z 0) with 0%Z in EZ.
  pose proof (Uint63.to_Z_bounded j). pose proof (Uint63.to_Z_bounded j').
  rewrite Z.mod_small in EZ by lia. lia.
Qed.

Lemma orMap_bit {X} (f : X → int) l j :
  Uint63.bit (orMap f l) j = true → ∃ x, x ∈ l ∧ Uint63.bit (f x) j = true.
Proof.
  induction l as [|x l IH]; simpl.
  - by rewrite Uint63.bit_0.
  - rewrite Uint63.lor_spec. intros [E|E]%orb_prop.
    + exists x. split; [by left|done].
    + destruct (IH E) as (y & Hy & Ey). exists y. split; [by right|done].
Qed.

Lemma indexed_snd {X} (l : list X) j e : e ∈ indexed l j → e.2 ∈ l.
Proof.
  revert j. induction l as [|x l IH]; intros j Hin; simpl in Hin.
  - by apply elem_of_nil in Hin.
  - apply elem_of_cons in Hin as [->|Hin]; [by left|]. right. by apply (IH _ Hin).
Qed.

Lemma indexed_fmap_snd {X} (l : list X) j : (indexed l j).*2 = l.
Proof. revert j. induction l as [|x l IH]; intros j; simpl; [done|]. by rewrite IH. Qed.

Lemma indexOf_bit v l j :
  Uint63.bit (indexOf v l) j = true → (j, v) ∈ l.
Proof.
  induction l as [|[j0 v0] l IH]; simpl.
  - by rewrite Uint63.bit_0.
  - destruct (eqCol v v0) eqn:E.
    + apply eqCol_eq in E as ->. intros ->%bit_one_lsl. by left.
    + intros B. right. by apply IH.
Qed.

Lemma members_elem row v :
  v ∈ members row → ∃ j, (j, v) ∈ FcAix ∧ Uint63.bit row j = true.
Proof.
  unfold members. intros Hin. apply list_elem_of_omap in Hin as ([j v'] & Hin & E).
  cbn [fst snd] in E. destruct (Uint63.bit row j) eqn:B; [|done].
  inversion E; subst. by exists j.
Qed.

Lemma members_sublist row : members row `sublist_of` FcA.
Proof.
  unfold members, FcAix. rewrite <- (indexed_fmap_snd FcA 0%uint63) at 2.
  generalize (indexed FcA 0%uint63). intros l.
  induction l as [|[j v] l IH]; simpl; [constructor|].
  destruct (Uint63.bit row j); simpl; by constructor.
Qed.

(** *** The search tree *)

Lemma popClass_spec i l0 l1 l2 x m0 m1 m2 :
  popClass i l0 l1 l2 = Some (x, (m0, m1, m2)) →
  sel3 i l0 l1 l2 = x :: sel3 i m0 m1 m2 ∧
  ∀ i', i' ≠ i → sel3 i' l0 l1 l2 = sel3 i' m0 m1 m2.
Proof.
  destruct i; simpl.
  - destruct l0; [done|]. intros E; inversion E; subst. split; [done|]. by intros [].
  - destruct l1; [done|]. intros E; inversion E; subst. split; [done|]. by intros [].
  - destruct l2; [done|]. intros E; inversion E; subst. split; [done|]. by intros [].
Qed.

Lemma dirOf_spec a x d :
  dirOf a x = Some d → x ≠ a ∧ x = (if d then prev3 a else next3 a).
Proof. destruct a, x; simpl; intros E; inversion E; by subst. Qed.

Lemma walkTree_sound base : ∀ f c l0 l1 l2 j,
  Uint63.bit (walkTree (buildTree base f) c base l0 l1 l2) j = true →
  ∃ r, length r = length base ∧ length c = length base ∧
       (∀ k a, base !! k = Some a → r !! k ≠ Some a) ∧
       (∀ i x, x ∈ sel3 i l0 l1 l2 → ∃ k, c !! k = Some i ∧ r !! k = Some x) ∧
       Uint63.bit (f r) j = true.
Proof.
  induction base as [|a base IH]; intros f c l0 l1 l2 j W.
  - cbn [buildTree walkTree] in W.
    destruct c; [|by rewrite Uint63.bit_0 in W].
    destruct l0, l1, l2; try by rewrite Uint63.bit_0 in W.
    exists []. split; [done|]. split; [done|]. split; [done|]. split; [|done].
    intros i x Hin. destruct i; by apply elem_of_nil in Hin.
  - cbn [buildTree walkTree] in W.
    destruct c as [|i c]; [by rewrite Uint63.bit_0 in W|].
    destruct (popClass i l0 l1 l2) as [[x [[m0 m1] m2]]|] eqn:P;
      [|by rewrite Uint63.bit_0 in W].
    apply popClass_spec in P as [Ph Po].
    destruct (dirOf a x) as [d|] eqn:D; [|by rewrite Uint63.bit_0 in W].
    apply dirOf_spec in D as [Na Ex].
    assert (∃ r, length r = length base ∧ length c = length base ∧
       (∀ k a, base !! k = Some a → r !! k ≠ Some a) ∧
       (∀ i x, x ∈ sel3 i m0 m1 m2 → ∃ k, c !! k = Some i ∧ r !! k = Some x) ∧
       Uint63.bit (f (x :: r)) j = true) as (r & Lr & Lc & Av & Wv & B).
    { destruct d; apply IH in W as (r & ? & ? & ? & ? & B); exists r;
        repeat (split; [done|]); by rewrite Ex. }
    exists (x :: r). split; [simpl; lia|]. split; [simpl; lia|]. split; [|split; [|done]].
    + intros [|k] a' E; simpl in *; [congruence|by apply Av].
    + intros i' y Hin. destruct (decide (i' = i)) as [->|Ni].
      * rewrite Ph in Hin. apply elem_of_cons in Hin as [->|Hin]; [by exists 0|].
        destruct (Wv i y Hin) as (k & ? & ?). by exists (S k).
      * rewrite (Po i' Ni) in Hin.
        destruct (Wv i' y Hin) as (k & ? & ?). by exists (S k).
Qed.

Lemma rainbows_all a b c l x : l ∈ rainbows a b c → x ∈ l.
Proof.
  intros Hin. destruct a, b, c; cbv [rainbows] in Hin;
    repeat (apply elem_of_cons in Hin as [->|Hin]); try (by apply elem_of_nil in Hin);
    destruct x; repeat constructor.
Qed.

(** What a set bit of [rowVia] stands for. *)
Lemma rowVia_sound base f c j :
  length base = 9 →
  Uint63.bit (rowVia (buildTree base f) base c) j = true →
  ∃ r, Differs base r ∧ Orth c r ∧ Uint63.bit (f r) j = true.
Proof.
  intros Lb R. unfold rowVia in R.
  destruct (split3 c base) as [[v0 v1] v2].
  destruct v0 as [|a0 [|b0 [|c0 [|]]]]; try by rewrite Uint63.bit_0 in R.
  destruct v1 as [|a1 [|b1 [|c1 [|]]]]; try by rewrite Uint63.bit_0 in R.
  destruct v2 as [|a2 [|b2 [|c2 [|]]]]; try by rewrite Uint63.bit_0 in R.
  cbv zeta in R.
  apply orMap_bit in R as (l0 & H0 & R).
  apply orMap_bit in R as (l1 & H1 & R).
  apply orMap_bit in R as (l2 & H2 & R).
  apply walkTree_sound in R as (r & Lr & Lc & Av & Wv & B).
  exists r. split; [|split; [|done]].
  - split; [lia|]. intros k Hk E.
    apply (Av k (at3 base k)); [apply at3_lookup; lia|].
    rewrite <- E. apply at3_lookup. lia.
  - intros a b.
    assert (b ∈ sel3 a l0 l1 l2) as Hin.
    { destruct a; simpl; by eapply rainbows_all. }
    destruct (Wv a b Hin) as (k & Ec & Er). exists k.
    split; [apply lookup_lt_Some in Ec; lia|].
    split; by apply lookup_at3.
Qed.

(** *** The pairs listed are joined by a path *)

Lemma FcAix_NoDup : NoDup (FcAix.*1).
Proof. apply nodupInt_NoDup. by vm_compute. Qed.

Lemma FA_NoDup : NoDup FA.
Proof. apply nodupCol_NoDup. by vm_compute. Qed.

Lemma FcA_NoDup : NoDup FcA.
Proof. apply nodupCol_NoDup. by vm_compute. Qed.

Lemma NoDup_fst_functional {X Y} (l : list (X * Y)) x y1 y2 :
  NoDup (l.*1) → (x, y1) ∈ l → (x, y2) ∈ l → y1 = y2.
Proof.
  induction l as [|[x0 y0] l IH]; simpl; intros N H1 H2.
  { by apply elem_of_nil in H1. }
  apply NoDup_cons in N as [Nx N].
  apply elem_of_cons in H1 as [E1|H1], H2 as [E2|H2].
  - congruence.
  - inversion E1; subst. destruct Nx. apply list_elem_of_fmap. by exists (x0, y2).
  - inversion E2; subst. destruct Nx. apply list_elem_of_fmap. by exists (x0, y1).
  - by apply IH.
Qed.

Lemma reachList_sound cB rC u v :
  length cB = 9 → length rC = 9 →
  (u, v) ∈ reachList (treeB (treeC treeA rC) cB rC) cB →
  u ∈ FA ∧ v ∈ FcA ∧ Path cB rC u v.
Proof.
  intros LB LC Hin. unfold reachList in Hin.
  apply list_elem_of_bind in Hin as (u' & Hin & Hu).
  apply list_elem_of_fmap in Hin as (v' & E & Hv). inversion E; subst u' v'. clear E.
  split; [done|].
  split; [by apply (elem_of_sublist _ _ _ Hv (members_sublist _))|].
  apply members_elem in Hv as (j & Hj & R).
  apply rowVia_sound in R as (c01 & Dc & O1 & R); [|done].
  apply rowVia_sound in R as (r21 & Dr & O2 & R); [|done].
  apply rowVia_sound in R as (v' & Dv & O3 & R); [|done].
  apply indexOf_bit in R.
  assert (v' = v) as ->.
  { apply (NoDup_fst_functional FcAix j); [apply FcAix_NoDup|done..]. }
  by exists c01, r21.
Qed.

Lemma reachList_NoDup tB cB : NoDup (reachList tB cB).
Proof.
  unfold reachList. apply NoDup_bind.
  - intros u1 u2 [u v] _ _ I1 I2.
    apply list_elem_of_fmap in I1 as (? & E1 & _), I2 as (? & E2 & _). congruence.
  - intros u _. apply NoDup_fmap_2; [intros ???; congruence|].
    apply (sublist_NoDup _ FcA); [apply FcA_NoDup|apply members_sublist].
  - apply FA_NoDup.
Qed.

(** *** The table *)

Lemma forallb_In {X} (P : X → bool) l x : forallb P l = true → x ∈ l → P x = true.
Proof. intros F Hin. apply (proj1 (forallb_forall P l) F). by apply list_elem_of_In. Qed.

Lemma atLeast_spec {X} n (l : list X) : atLeast n l = true → n ≤ length l.
Proof. unfold atLeast. apply Nat.leb_le. Qed.

Lemma rowOk_spec reps tA rC cB :
  rowOk reps tA rC = true → cB ∈ reps →
  half ≤ length (reachList (treeB (treeC tA rC) cB rC) cB).
Proof.
  intros T Hin. apply atLeast_spec.
  exact (forallb_In (λ cB, atLeast half (reachList (treeB (treeC tA rC) cB rC) cB))
           reps cB T Hin).
Qed.

Lemma table_true : forallb (rowOk repsB treeA) canon = true.
Proof. by vm_compute. Qed.

Lemma table cB rC :
  cB ∈ repsB → rC ∈ canon →
  half ≤ length (reachList (treeB (treeC treeA rC) cB rC) cB).
Proof.
  intros HB HC.
  exact (rowOk_spec repsB treeA rC cB
           (forallb_In (rowOk repsB treeA) canon rC table_true HC) HB).
Qed.

(** ** Symmetries *)

Lemma counts_Permutation u u' :
  u ≡ₚ u' → ∀ n0 n1 n2, counts u n0 n1 n2 = counts u' n0 n1 n2.
Proof.
  induction 1 as [|a u u' P IH|a b u|u u' u'' P1 IH1 P2 IH2]; intros n0 n1 n2.
  - done.
  - destruct a; simpl; apply IH.
  - destruct a, b; done.
  - by rewrite IH1.
Qed.

(** Two colourings that meet every pair of colours meet each pair once. *)
Lemma Orth_pairs u v :
  length u = 9 → length v = 9 → Orth u v → allPairs ≡ₚ zip u v.
Proof.
  intros Lu Lv O. apply submseteq_length_Permutation.
  - apply NoDup_submseteq; [by apply (bool_decide_unpack _)|].
    intros [a b] _. destruct (O a b) as (k & Hk & <- & <-).
    apply list_elem_of_lookup. exists k. apply lookup_zip_Some.
    split; apply at3_lookup; lia.
  - rewrite length_zip_with. change (length allPairs) with 9. lia.
Qed.

(** They use each colour three times. *)
Lemma Orth_balanced u v :
  length u = 9 → length v = 9 → Orth u v → balancedb u = true ∧ balancedb v = true.
Proof.
  intros Lu Lv O. pose proof (Orth_pairs u v Lu Lv O) as P.
  split.
  - assert (rA ≡ₚ u) as Pu.
    { rewrite <- (fst_zip u v) by lia. by rewrite <- P. }
    unfold balancedb. by rewrite <- (counts_Permutation _ _ Pu).
  - assert (cA ≡ₚ v) as Pv.
    { rewrite <- (snd_zip u v) by lia. by rewrite <- P. }
    unfold balancedb. by rewrite <- (counts_Permutation _ _ Pv).
Qed.

Lemma S3_inj π a b : π ∈ Sym3 → applyP π a = applyP π b → a = b.
Proof.
  intros H. unfold Sym3 in H.
  repeat (apply elem_of_cons in H as [->|H]); try by apply elem_of_nil in H.
  all: by destruct a, b.
Qed.

Lemma S3_surj π b : π ∈ Sym3 → ∃ a, applyP π a = b.
Proof.
  intros H. unfold Sym3 in H.
  repeat (apply elem_of_cons in H as [->|H]); try by apply elem_of_nil in H.
  all: destruct b; first [by exists T0|by exists T1|by exists T2].
Qed.

Lemma third_applyP π a b :
  π ∈ Sym3 → a ≠ b → third (applyP π a) (applyP π b) = applyP π (third a b).
Proof.
  intros H. unfold Sym3 in H.
  repeat (apply elem_of_cons in H as [->|H]); try by apply elem_of_nil in H.
  all: by destruct a, b.
Qed.

Lemma Glist_good τ : τ ∈ Glist → good τ.
Proof.
  assert (Forall good Glist) as F by (apply (bool_decide_unpack _); by vm_compute).
  rewrite Forall_forall in F. apply F.
Qed.

Lemma at3_relabel π u k : k < length u → at3 (relabel π u) k = applyP π (at3 u k).
Proof.
  intros Hk. unfold at3, relabel.
  rewrite (nth_indep _ _ (applyP π T0)) by (by rewrite length_map).
  apply map_nth.
Qed.

Lemma at3_permute τ u p : p < length τ → at3 (permute τ u) p = at3 u (nth p τ 0).
Proof.
  intros Hp. unfold at3 at 1, permute.
  rewrite (nth_indep _ _ (at3 u 0)) by (by rewrite length_map).
  apply (map_nth (at3 u)).
Qed.

Lemma good_entry τ p : good τ → p < 9 → nth p τ 0 < 9.
Proof.
  intros (L & B & _) Hp. rewrite Forall_forall in B. apply B.
  apply list_elem_of_In, nth_In. lia.
Qed.

Lemma good_onto τ k : good τ → k < 9 → ∃ p, p < 9 ∧ nth p τ 0 = k.
Proof.
  intros (L & _ & S) Hk. rewrite Forall_forall in S.
  assert (k ∈ τ) as Hin by (apply S, list_elem_of_In, in_seq; lia).
  apply list_elem_of_lookup in Hin as (p & Ep). exists p.
  split; [apply lookup_lt_Some in Ep; lia|]. by apply nth_lookup_Some.
Qed.

Lemma thirdL_map {X} (f g : X → tri) l :
  thirdL (map f l) (map g l) = map (λ x, third (f x) (g x)) l.
Proof. induction l as [|x l IH]; simpl; [done|]. by rewrite IH. Qed.

Lemma thirdL_permute τ c u :
  length c = length u → thirdL (permute τ c) (permute τ u) = permute τ (thirdL c u).
Proof.
  intros E. unfold permute. rewrite thirdL_map. apply map_ext.
  intros k. by rewrite at3_thirdL.
Qed.

Lemma Orth_permute τ u v : good τ → Orth u v → Orth (permute τ u) (permute τ v).
Proof.
  intros G O a b. destruct (O a b) as (k & Hk & Eu & Ev).
  destruct (good_onto τ k G Hk) as (p & Hp & Ep).
  pose proof G as (L & _). exists p. split; [done|].
  rewrite !at3_permute, Ep by lia. done.
Qed.

Lemma Differs_permute τ c u :
  good τ → Differs c u → Differs (permute τ c) (permute τ u).
Proof.
  intros G [L D]. pose proof G as (Lt & _). split.
  - unfold permute. by rewrite length_map.
  - intros k Hk. rewrite !at3_permute by lia. apply D. by apply good_entry.
Qed.

Lemma permute_length τ u : good τ → length (permute τ u) = 9.
Proof. intros (L & _). unfold permute. by rewrite length_map. Qed.

Lemma relabel_length π u : length (relabel π u) = length u.
Proof. unfold relabel. by rewrite length_map. Qed.

Lemma Path_permute τ cB rC u v :
  good τ → length cB = 9 → length rC = 9 →
  Path cB rC u v → Path (permute τ cB) (permute τ rC) (permute τ u) (permute τ v).
Proof.
  intros G LB LC (c01 & r21 & Dc & Dr & O1 & O2 & O3).
  exists (permute τ c01), (permute τ r21).
  pose proof Dc as [Lc _]. pose proof Dr as [Lr _].
  split; [by apply Differs_permute|]. split; [by apply Differs_permute|].
  rewrite !thirdL_permute by lia.
  split; [|split]; by apply Orth_permute.
Qed.

Lemma Orth_relabel_l π u v :
  π ∈ Sym3 → length u = 9 → Orth u v → Orth (relabel π u) v.
Proof.
  intros Hπ L O a b. destruct (S3_surj π a Hπ) as (a' & <-).
  destruct (O a' b) as (k & Hk & Eu & Ev). exists k. split; [done|].
  rewrite at3_relabel by lia. by rewrite Eu.
Qed.

Lemma Orth_relabel_r π u v :
  π ∈ Sym3 → length v = 9 → Orth u v → Orth u (relabel π v).
Proof. intros Hπ L O. apply Orth_sym, Orth_relabel_l; [done..|]. by apply Orth_sym. Qed.

Lemma Differs_relabel π c u :
  π ∈ Sym3 → length c = 9 → Differs c u → Differs (relabel π c) (relabel π u).
Proof.
  intros Hπ Lc [L D]. split; [by rewrite relabel_length|].
  intros k Hk. rewrite !at3_relabel by lia. intros E.
  apply (D k Hk). by apply (S3_inj π).
Qed.

Lemma thirdL_relabel π c u :
  π ∈ Sym3 → length c = 9 → Differs c u →
  thirdL (relabel π c) (relabel π u) = relabel π (thirdL c u).
Proof.
  intros Hπ Lc [L D]. apply (nth_ext _ _ T0 T0).
  - rewrite thirdL_length, !relabel_length, ?thirdL_length; rewrite ?relabel_length; lia.
  - intros k Hk.
    rewrite thirdL_length, relabel_length in Hk by (rewrite !relabel_length; lia).
    change (at3 (thirdL (relabel π c) (relabel π u)) k = at3 (relabel π (thirdL c u)) k).
    rewrite at3_thirdL by (rewrite !relabel_length; lia).
    rewrite !at3_relabel by (rewrite ?thirdL_length; lia).
    rewrite at3_thirdL by lia. apply third_applyP; [done|].
    intros E. apply (D k); [lia|done].
Qed.

Lemma Path_relabel π π' cB rC u v :
  π ∈ Sym3 → π' ∈ Sym3 → length cB = 9 → length rC = 9 →
  Path cB rC u v → Path (relabel π cB) (relabel π' rC) u v.
Proof.
  intros H1 H2 LB LC (c01 & r21 & Dc & Dr & O1 & O2 & O3).
  exists (relabel π c01), (relabel π' r21).
  pose proof Dc as [Lc _]. pose proof Dr as [Lr _].
  split; [by apply Differs_relabel|]. split; [by apply Differs_relabel|].
  rewrite !thirdL_relabel by done.
  split; [|split].
  - by apply Orth_relabel_r.
  - apply Orth_relabel_l; [done|rewrite thirdL_length; lia|].
    by apply Orth_relabel_r.
  - apply Orth_relabel_l; [done|rewrite thirdL_length; lia|done].
Qed.

Lemma Path_relabel_ends α β cB rC u v :
  α ∈ Sym3 → β ∈ Sym3 → length u = 9 → length v = 9 →
  Path cB rC u v → Path cB rC (relabel α u) (relabel β v).
Proof.
  intros H1 H2 Lu Lv (c01 & r21 & Dc & Dr & O1 & O2 & O3).
  exists c01, r21. split; [done|]. split; [done|].
  split; [by apply Orth_relabel_l|]. split; [done|by apply Orth_relabel_r].
Qed.

(** *** Permuting the entries *)

Lemma permute_seq u : length u = 9 → permute (seq 0 9) u = u.
Proof.
  intros L. do 10 (destruct u as [|? u]; try done).
Qed.

Lemma good_Permutation τ : good τ → seq 0 9 ≡ₚ τ.
Proof.
  intros (L & _ & S). apply submseteq_length_Permutation; [|by rewrite L].
  apply NoDup_submseteq; [apply NoDup_seq|].
  intros k Hk. rewrite Forall_forall in S. by apply S.
Qed.

Lemma permute_Permutation τ u : good τ → length u = 9 → permute τ u ≡ₚ u.
Proof.
  intros G L. rewrite <- (permute_seq u L) at 2. unfold permute.
  apply fmap_Permutation. symmetry. by apply good_Permutation.
Qed.

Lemma permute_balanced τ u :
  good τ → balancedb u = true → balancedb (permute τ u) = true.
Proof.
  intros G B. unfold balancedb.
  rewrite (counts_Permutation _ u); [done|].
  apply permute_Permutation; [done|by apply balanced_length].
Qed.

Lemma permute_permute τ τ' u :
  good τ' → map (λ k, nth k τ 0) τ' = seq 0 9 → length τ = 9 → length u = 9 →
  permute τ' (permute τ u) = u.
Proof.
  intros G' E Lt L. rewrite <- (permute_seq u L) at 2. unfold permute at 1 3.
  rewrite <- E, map_map. apply Forall_fmap_ext_1.
  destruct G' as (_ & B & _). eapply Forall_impl; [exact B|].
  intros k Hk. cbv beta in *. apply at3_permute. lia.
Qed.

Lemma relabel_inj π u u' :
  π ∈ Sym3 → relabel π u = relabel π u' → u = u'.
Proof.
  intros Hπ. revert u'. induction u as [|a u IH]; intros [|b u'] E; simpl in E; try done.
  inversion E as [[Ea Eu]]. f_equal; [by apply (S3_inj π)|by apply IH].
Qed.

(** *** Every colouring is an image of a representative *)

Lemma memT_insertT c c' t : memT c (insertT c' t) = true → c = c' ∨ memT c t = true.
Proof.
  revert c t. induction c' as [|x c' IH]; intros c t M.
  - destruct c as [|y c]; [by left|]. right.
    destruct t as [|h a b d]; destruct y; simpl in *; done.
  - destruct c as [|y c].
    + right. destruct t as [|h a b d]; destruct x; simpl in *; done.
    + destruct t as [|h a b d], x, y; simpl in *; try done; try (by right);
        apply IH in M as [->|M]; try (by left); try (by right); done.
Qed.

Lemma memT_elem c l : memT c (foldr insertT Tip l) = true → c ∈ l.
Proof.
  induction l as [|c' l IH]; simpl; [done|].
  intros [->|M]%memT_insertT; [by left|]. right. by apply IH.
Qed.

Lemma covered_spec imgs c :
  covered imgs = true → balancedb c = true → c ∈ imgs.
Proof.
  intros C B. unfold covered in C. cbv zeta in C.
  apply memT_elem. apply (forallb_In _ _ _ C). by apply elem_of_allCols.
Qed.

Lemma coveredB : covered imagesB = true.
Proof. by vm_compute. Qed.

Lemma coveredC : covered imagesC = true.
Proof. by vm_compute. Qed.

Lemma cover_reps c :
  balancedb c = true →
  ∃ τ π c0, τ ∈ Glist ∧ π ∈ Sym3 ∧ c0 ∈ repsB ∧ c = permute τ (relabel π c0).
Proof.
  intros Hc. pose proof (covered_spec imagesB c coveredB Hc) as M.
  apply list_elem_of_bind in M as (τ & M & Hτ).
  apply list_elem_of_bind in M as (π & M & Hπ).
  apply list_elem_of_bind in M as (c0 & M & H0).
  apply list_elem_of_singleton in M. by exists τ, π, c0.
Qed.

Lemma cover_canon c :
  balancedb c = true → ∃ π c0, π ∈ Sym3 ∧ c0 ∈ canon ∧ c = relabel π c0.
Proof.
  intros Hc. pose proof (covered_spec imagesC c coveredC Hc) as M.
  apply list_elem_of_bind in M as (π & M & Hπ).
  apply list_elem_of_bind in M as (c0 & M & H0).
  apply list_elem_of_singleton in M. by exists π, c0.
Qed.

Lemma Glist_inverse τ :
  τ ∈ Glist → ∃ τ', τ' ∈ Glist ∧ map (λ k, nth k τ' 0) τ = seq 0 9
                    ∧ map (λ k, nth k τ 0) τ' = seq 0 9.
Proof.
  assert (Forall (λ τ, Exists (λ τ', map (λ k, nth k τ' 0) τ = seq 0 9
                                  ∧ map (λ k, nth k τ 0) τ' = seq 0 9) Glist) Glist)
    as F by (apply (bool_decide_unpack _); by vm_compute).
  rewrite Forall_forall in F. intros H. apply F in H.
  apply Exists_exists in H as (τ' & ? & ?). by exists τ'.
Qed.

Lemma Glist_base τ :
  τ ∈ Glist → ∃ α β, α ∈ Sym3 ∧ β ∈ Sym3 ∧
    relabel α (permute τ rA) = rA ∧ relabel β (permute τ cA) = cA.
Proof.
  assert (Forall (λ τ, Exists (λ α, relabel α (permute τ rA) = rA) Sym3
                     ∧ Exists (λ β, relabel β (permute τ cA) = cA) Sym3) Glist)
    as F by (apply (bool_decide_unpack _); by vm_compute).
  rewrite Forall_forall in F. intros H. apply F in H as [Ha Hb].
  apply Exists_exists in Ha as (α & ? & ?). apply Exists_exists in Hb as (β & ? & ?).
  by exists α, β.
Qed.

Lemma repsB_balanced c : c ∈ repsB → balancedb c = true.
Proof.
  assert (forallb balancedb repsB = true) as F by by vm_compute.
  intros Hin. by apply (forallb_In _ _ _ F).
Qed.

Lemma canon_balanced c : c ∈ canon → balancedb c = true.
Proof.
  unfold canon. rewrite list_elem_of_filter, elem_of_allCols. tauto.
Qed.

Lemma Path_balanced cB rC u v :
  length cB = 9 → length rC = 9 → length u = 9 → length v = 9 →
  Path cB rC u v → balancedb u = true ∧ balancedb v = true.
Proof.
  intros LB LC Lu Lv (c01 & r21 & [Lc _] & [Lr _] & O1 & _ & O3). split.
  - by apply (Orth_balanced u c01).
  - apply (Orth_balanced (thirdL rC r21) v); [|done..]. rewrite thirdL_length; lia.
Qed.

(** *** More than half of the pairs are joined, whatever the two boxes *)

Lemma many_paths cB rC :
  balancedb cB = true → balancedb rC = true →
  ∃ L, NoDup L ∧ half ≤ length L ∧
    ∀ u v, (u, v) ∈ L → u ∈ FA ∧ v ∈ FcA ∧ Path cB rC u v.
Proof.
  intros BB BC.
  destruct (cover_reps cB BB) as (τ & π & c0 & Hτ & Hπ & H0 & EB).
  destruct (Glist_inverse τ Hτ) as (τ' & Hτ' & I1 & I2).
  pose proof (Glist_good τ Hτ) as G. pose proof (Glist_good τ' Hτ') as G'.
  pose proof G as (Lτ & _). pose proof G' as (Lτ' & _).
  pose proof (balanced_length rC BC) as LC.
  destruct (cover_canon (permute τ' rC)) as (π' & rC0 & Hπ' & HC0 & EC).
  { by apply permute_balanced. }
  assert (rC = permute τ (relabel π' rC0)) as EC'.
  { rewrite <- EC. symmetry. by apply permute_permute. }
  pose proof (balanced_length c0 (repsB_balanced c0 H0)) as L0.
  pose proof (balanced_length rC0 (canon_balanced rC0 HC0)) as LC0.
  destruct (Glist_base τ Hτ) as (α & β & Hα & Hβ & Eα & Eβ).
  set (L0' := reachList (treeB (treeC treeA rC0) c0 rC0) c0).
  set (f := λ p : coloring * coloring,
              (relabel α (permute τ p.1), relabel β (permute τ p.2))).
  assert (∀ u0 v0, (u0, v0) ∈ L0' →
            length u0 = 9 ∧ length v0 = 9 ∧
            Differs rA u0 ∧ Differs cA v0 ∧ Path c0 rC0 u0 v0) as Sound.
  { intros u0 v0 Hin. apply reachList_sound in Hin as (Hu & Hv & P); [|done..].
    apply nbrs_Differs in Hu as [_ Du]. apply nbrs_Differs in Hv as [_ Dv].
    pose proof Du as [? _]. pose proof Dv as [? _]. done. }
  exists (map f L0'). split; [|split].
  - apply NoDup_fmap_2_strong; [|apply reachList_NoDup].
    intros [u1 v1] [u2 v2] H1 H2 E.
    apply Sound in H1 as (Lu1 & Lv1 & _), H2 as (Lu2 & Lv2 & _).
    unfold f in E. cbn [fst snd] in E. inversion E as [[Eu Ev]].
    apply relabel_inj in Eu, Ev; [|done..].
    apply (f_equal (permute τ')) in Eu, Ev.
    rewrite !permute_permute in Eu, Ev by done. congruence.
  - rewrite length_map. by apply table.
  - intros u v Hin. apply list_elem_of_fmap in Hin as ([u0 v0] & E & Hin).
    unfold f in E. cbn [fst snd] in E. inversion E; subst u v. clear E.
    apply Sound in Hin as (Lu & Lv & Du & Dv & P).
    assert (Path cB rC (relabel α (permute τ u0)) (relabel β (permute τ v0))) as P'.
    { apply Path_relabel_ends; [done|done|by rewrite permute_length..|].
      rewrite EB, EC'. apply Path_permute; [done|by rewrite relabel_length..|].
      by apply Path_relabel. }
    pose proof (balanced_length cB BB) as LB.
    apply Path_balanced in P' as P''; [|done|done|by rewrite relabel_length, permute_length..].
    destruct P'' as [Bu Bv].
    split; [|split; [|done]].
    + apply Differs_nbrs; [done|done|]. rewrite <- Eα.
      apply Differs_relabel; [done|by rewrite permute_length|].
      by apply Differs_permute.
    + apply Differs_nbrs; [done|done|]. rewrite <- Eβ.
      apply Differs_relabel; [done|by rewrite permute_length|].
      by apply Differs_permute.
Qed.

(** ** The six boxes off the diagonal *)

Lemma third_third a b : a ≠ b → third a (third a b) = b.
Proof. by destruct a, b. Qed.

Lemma Differs_thirdL c u : length c = 9 → Differs c u → Differs c (thirdL c u).
Proof.
  intros Lc [Lu D]. split; [rewrite thirdL_length; lia|].
  intros k Hk. rewrite at3_thirdL by lia.
  apply third_neq. intros E. by apply (D k).
Qed.

Lemma thirdL_involutive c u : length c = 9 → Differs c u → thirdL c (thirdL c u) = u.
Proof.
  intros Lc [Lu D]. apply (nth_ext _ _ T0 T0).
  - rewrite !thirdL_length; rewrite ?thirdL_length; lia.
  - intros k Hk. change (at3 (thirdL c (thirdL c u)) k = at3 u k).
    rewrite !thirdL_length in Hk by (rewrite ?thirdL_length; lia).
    rewrite !at3_thirdL by (rewrite ?thirdL_length; lia).
    apply third_third. intros E. by apply (D k); [lia|].
Qed.

Lemma third_FA u : u ∈ FA → thirdL rA u ∈ FA.
Proof.
  assert (forallb (λ u, memCol (thirdL rA u) FA) FA = true) as F by by vm_compute.
  intros Hin. apply memCol_elem. by apply (forallb_In _ _ _ F).
Qed.

Lemma third_FcA v : v ∈ FcA → thirdL cA v ∈ FcA.
Proof.
  assert (forallb (λ u, memCol (thirdL cA u) FcA) FcA = true) as F by by vm_compute.
  intros Hin. apply memCol_elem. by apply (forallb_In _ _ _ F).
Qed.

(** Two duplicate-free lists in a universe too small to hold both share an
    element. *)
Lemma pigeon {X} `{EqDecision X} (U l1 l2 : list X) :
  NoDup l1 → NoDup l2 → (∀ x, x ∈ l1 → x ∈ U) → (∀ x, x ∈ l2 → x ∈ U) →
  length U < length l1 + length l2 → ∃ x, x ∈ l1 ∧ x ∈ l2.
Proof.
  intros N1 N2 S1 S2 Hlen.
  destruct (decide (Exists (λ x, x ∈ l2) l1)) as [E|N].
  { apply Exists_exists in E as (x & ? & ?). by exists x. }
  exfalso.
  assert (NoDup (l1 ++ l2)) as N12.
  { apply NoDup_app. split; [done|]. split; [|done].
    intros x H1 H2. apply N, Exists_exists. by exists x. }
  assert (l1 ++ l2 ⊆+ U) as Sub.
  { apply NoDup_submseteq; [done|]. intros x [?|?]%elem_of_app; auto. }
  apply submseteq_length in Sub. rewrite length_app in Sub. lia.
Qed.

Lemma elem_of_prod {X Y} (l : list X) (k : list Y) x y :
  x ∈ l → y ∈ k → (x, y) ∈ list_prod l k.
Proof. intros. apply list_elem_of_In, in_prod; by apply list_elem_of_In. Qed.

(** The twelve colourings of the six boxes off the diagonal. *)
Theorem arrangement rB cB rC cC :
  balancedb rB = true → balancedb cB = true →
  balancedb rC = true → balancedb cC = true →
  ∃ r01 c01 r21 c20 r12 c02,
    Differs rA r01 ∧ Differs cB c01 ∧ Differs rC r21 ∧
    Differs cA c20 ∧ Differs rB r12 ∧ Differs cC c02 ∧
    Orth r01 c01 ∧ Orth (thirdL cB c01) r21 ∧ Orth (thirdL rC r21) c20 ∧
    Orth (thirdL rA r01) c02 ∧ Orth (thirdL cC c02) r12 ∧
    Orth (thirdL rB r12) (thirdL cA c20).
Proof.
  intros BrB BcB BrC BcC.
  destruct (many_paths cB rC BcB BrC) as (L1 & N1 & Len1 & P1).
  destruct (many_paths cC rB BcC BrB) as (L2 & N2 & Len2 & P2).
  set (g := λ p : coloring * coloring, (thirdL rA p.1, thirdL cA p.2)).
  destruct (pigeon (list_prod FA FcA) L1 (map g L2)) as ([u v] & H1 & H2).
  - done.
  - apply NoDup_fmap_2_strong; [|done].
    intros [u1 v1] [u2 v2] I1 I2 E.
    apply P2 in I1 as (Hu1 & Hv1 & _), I2 as (Hu2 & Hv2 & _).
    apply nbrs_Differs in Hu1 as [_ Du1], Hv1 as [_ Dv1], Hu2 as [_ Du2], Hv2 as [_ Dv2].
    unfold g in E. cbn [fst snd] in E.
    pose proof (f_equal fst E) as Eu. pose proof (f_equal snd E) as Ev.
    cbn [fst snd] in Eu, Ev.
    apply (f_equal (thirdL rA)) in Eu. apply (f_equal (thirdL cA)) in Ev.
    rewrite !thirdL_involutive in Eu, Ev by done. congruence.
  - intros [u v] Hin. apply P1 in Hin as (Hu & Hv & _).
    apply elem_of_prod; [exact Hu|exact Hv].
  - intros [u v] Hin. apply list_elem_of_fmap in Hin as ([u2 v2] & E & Hin).
    unfold g in E. cbn [fst snd] in E.
    pose proof (f_equal fst E) as Eu. pose proof (f_equal snd E) as Ev.
    cbn [fst snd] in Eu, Ev. subst u v.
    apply P2 in Hin as (Hu & Hv & _).
    apply elem_of_prod; [exact (third_FA _ Hu)|exact (third_FcA _ Hv)].
  - rewrite length_prod, length_map.
    assert (length FA = 56) as -> by by vm_compute.
    assert (length FcA = 56) as -> by by vm_compute.
    unfold half in *. lia.
  - apply list_elem_of_fmap in H2 as ([u2 v2] & E & H2).
    unfold g in E. cbn [fst snd] in E.
    pose proof (f_equal fst E) as Eu. pose proof (f_equal snd E) as Ev.
    cbn [fst snd] in Eu, Ev.
    apply P1 in H1 as (Hu & Hv & c01 & r21 & Dc & Dr & O1 & O2 & O3).
    apply P2 in H2 as (Hu2 & Hv2 & c02 & r12 & Dc2 & Dr2 & O4 & O5 & O6).
    apply nbrs_Differs in Hu as [_ Du], Hv as [_ Dv].
    apply nbrs_Differs in Hu2 as [_ Du2], Hv2 as [_ Dv2].
    assert (u2 = thirdL rA u) as ->.
    { rewrite Eu. symmetry. by apply thirdL_involutive. }
    assert (v2 = thirdL cA v) as ->.
    { rewrite Ev. symmetry. by apply thirdL_involutive. }
    exists u, c01, r21, v, r12, c02. done.
Qed.

(** ** From colourings to a grid *)

Lemma locate_lookup {X} `{EqDecision X} (x : X) l : x ∈ l → l !! locate x l = Some x.
Proof.
  induction l as [|y l IH]; intros Hin; [by apply elem_of_nil in Hin|].
  simpl. destruct (decide (y = x)) as [->|N]; [done|].
  apply elem_of_cons in Hin as [->|Hin]; [done|]. by apply IH.
Qed.

Lemma locate_NoDup {X} `{EqDecision X} (l : list X) p x :
  NoDup l → l !! p = Some x → locate x l = p.
Proof.
  intros N E.
  assert (x ∈ l) as Hin by (apply list_elem_of_lookup; by exists p).
  apply (NoDup_lookup l _ _ x N); [by apply locate_lookup|done].
Qed.

Lemma ofNat_ti a : ofNat (ti a) = a.
Proof. by destruct a. Qed.

Lemma ofNat_inj m n : m < 3 → n < 3 → ofNat m = ofNat n → m = n.
Proof.
  intros Hm Hn. destruct m as [|[|[|]]], n as [|[|[|]]]; simpl; try done; lia.
Qed.

Lemma ti_lt a : ti a < 3.
Proof. destruct a; simpl; lia. Qed.

(** *** One box *)

Lemma Orth_zip r c :
  length r = 9 → length c = 9 → Orth r c →
  NoDup (zip r c) ∧ ∀ a b, (a, b) ∈ zip r c.
Proof.
  intros Lr Lc O. pose proof (Orth_pairs r c Lr Lc O) as P. split.
  - rewrite <- P. by apply (bool_decide_unpack _).
  - intros a b. rewrite <- P. destruct a, b; by apply (bool_decide_unpack _).
Qed.

Lemma entry_spec r c a b :
  length r = 9 → length c = 9 → Orth r c →
  entryAt r c a b < 9 ∧ at3 r (entryAt r c a b) = a ∧ at3 c (entryAt r c a b) = b.
Proof.
  intros Lr Lc O. destruct (Orth_zip r c Lr Lc O) as [_ All].
  pose proof (locate_lookup (a, b) (zip r c) (All a b)) as E.
  fold (entryAt r c a b) in E. apply lookup_zip_Some in E as [Er Ec].
  split; [apply lookup_lt_Some in Er; lia|]. split; by apply lookup_at3.
Qed.

Lemma entry_unique r c p :
  length r = 9 → length c = 9 → Orth r c → p < 9 →
  entryAt r c (at3 r p) (at3 c p) = p.
Proof.
  intros Lr Lc O Hp. destruct (Orth_zip r c Lr Lc O) as [N _].
  apply locate_NoDup; [done|]. apply lookup_zip_Some.
  split; apply at3_lookup; lia.
Qed.

(** *** The grid of a lawful layout *)

Lemma layout_cell σ R C i j :
  lawful R C → i < 9 → j < 9 →
  ∃ p, p < 9 ∧ layoutGrid σ R C i j = nth p σ 0 ∧
       at3 (R (i / 3) (j / 3)) p = ofNat (i mod 3) ∧
       at3 (C (i / 3) (j / 3)) p = ofNat (j mod 3).
Proof.
  intros (Box & _ & _) Hi Hj.
  assert (i / 3 < 3) as HI by (apply Nat.Div0.div_lt_upper_bound; lia).
  assert (j / 3 < 3) as HJ by (apply Nat.Div0.div_lt_upper_bound; lia).
  destruct (Box _ _ HI HJ) as (Lr & Lc & O).
  destruct (entry_spec _ _ (ofNat (i mod 3)) (ofNat (j mod 3)) Lr Lc O) as (Hp & Er & Ec).
  eexists. split; [exact Hp|]. split; [reflexivity|]. split; [exact Er|exact Ec].
Qed.

Lemma layout_at σ R C I J p :
  lawful R C → I < 3 → J < 3 → p < 9 →
  layoutGrid σ R C (3 * I + ti (at3 (R I J) p)) (3 * J + ti (at3 (C I J) p)) = nth p σ 0.
Proof.
  intros (Box & _ & _) HI HJ Hp. destruct (Box _ _ HI HJ) as (Lr & Lc & O).
  unfold layoutGrid.
  pose proof (ti_lt (at3 (R I J) p)). pose proof (ti_lt (at3 (C I J) p)).
  rewrite !box_index by done.
  replace ((3 * I + ti (at3 (R I J) p)) mod 3) with (ti (at3 (R I J) p)).
  2:{ rewrite Nat.add_comm, Nat.mul_comm, Nat.Div0.mod_add. by rewrite Nat.mod_small. }
  replace ((3 * J + ti (at3 (C I J) p)) mod 3) with (ti (at3 (C I J) p)).
  2:{ rewrite Nat.add_comm, Nat.mul_comm, Nat.Div0.mod_add. by rewrite Nat.mod_small. }
  rewrite !ofNat_ti. by rewrite entry_unique.
Qed.

Lemma labels_nth σ p : labels σ → p < 9 → 1 ≤ nth p σ 0 ≤ 9.
Proof.
  intros (L & _ & Rg) Hp. apply Rg. apply list_elem_of_In, nth_In. lia.
Qed.

Lemma labels_inj σ p q : labels σ → p < 9 → q < 9 → nth p σ 0 = nth q σ 0 → p = q.
Proof.
  intros (L & N & _) Hp Hq E.
  apply (NoDup_lookup σ p q (nth p σ 0) N).
  - destruct (nth_lookup_or_length σ p 0) as [E1|]; [exact E1|lia].
  - rewrite E. destruct (nth_lookup_or_length σ q 0) as [E2|]; [exact E2|lia].
Qed.

Lemma split_index i i' : i / 3 = i' / 3 → i mod 3 = i' mod 3 → i = i'.
Proof.
  intros E1 E2. rewrite (Nat.div_mod_eq i 3), (Nat.div_mod_eq i' 3). lia.
Qed.

Theorem layout_solution σ R C :
  lawful R C → labels σ →
  full (layoutGrid σ R C) ∧ digits (layoutGrid σ R C) ∧ consistent (layoutGrid σ R C).
Proof.
  intros Law Lab. split; [|split].
  - intros i j Hi Hj. destruct (layout_cell σ R C i j Law Hi Hj) as (p & Hp & -> & _).
    pose proof (labels_nth σ p Lab Hp). lia.
  - intros i j Hi Hj. destruct (layout_cell σ R C i j Law Hi Hj) as (p & Hp & -> & _).
    pose proof (labels_nth σ p Lab Hp). lia.
  - apply consistent_peers. intros i j i' j' Hi Hj Hi' Hj' NE P _ E.
    destruct (layout_cell σ R C i j Law Hi Hj) as (p & Hp & Ep & Er & Ec).
    destruct (layout_cell σ R C i' j' Law Hi' Hj') as (q & Hq & Eq & Er' & Ec').
    rewrite Ep, Eq in E. apply labels_inj in E; [|done..]. subst q.
    destruct Law as (_ & Rows & Cols).
    assert (i / 3 < 3) as HI by (apply Nat.Div0.div_lt_upper_bound; lia).
    assert (j / 3 < 3) as HJ by (apply Nat.Div0.div_lt_upper_bound; lia).
    assert (i' / 3 < 3) as HI' by (apply Nat.Div0.div_lt_upper_bound; lia).
    assert (j' / 3 < 3) as HJ' by (apply Nat.Div0.div_lt_upper_bound; lia).
    pose proof (Nat.mod_upper_bound i 3). pose proof (Nat.mod_upper_bound j 3).
    pose proof (Nat.mod_upper_bound i' 3). pose proof (Nat.mod_upper_bound j' 3).
    assert (i / 3 = i' / 3 → j / 3 = j' / 3 → False) as SameBox.
    { intros EI EJ. rewrite <- EI, <- EJ in Er', Ec'.
      rewrite Er in Er'. rewrite Ec in Ec'.
      apply ofNat_inj in Er', Ec'; [|lia..].
      apply NE. f_equal; by apply split_index. }
    destruct P as [Ei|[Ej|[EI EJ]]].
    + subst i'. destruct (decide (j / 3 = j' / 3)) as [EJ|NJ]; [by apply SameBox|].
      apply (Rows (i / 3) (j / 3) (j' / 3) p); try done. by rewrite Er, Er'.
    + subst j'. destruct (decide (i / 3 = i' / 3)) as [EI|NI]; [by apply SameBox|].
      apply (Cols (i / 3) (i' / 3) (j / 3) p); try done. by rewrite Ec, Ec'.
    + by apply SameBox.
Qed.

(** *** The diagonal boxes as colourings *)

Lemma occurrences_elem d l : occurrences d l = 1 → d ∈ l.
Proof.
  unfold occurrences. intros E.
  destruct (filter (λ x, x = d) l) as [|x l'] eqn:F; [done|].
  assert (x ∈ filter (λ x, x = d) l) as Hin by (rewrite F; left).
  apply list_elem_of_filter in Hin as [-> Hin]. done.
Qed.

Lemma boxValues_length f k : length (boxValues f k) = 9.
Proof. reflexivity. Qed.

Lemma boxValues_lookup f k i j :
  i < 3 → j < 3 → boxValues f k !! (3 * i + j) = Some (f (3 * k + i) (3 * k + j)).
Proof.
  intros Hi Hj.
  destruct i as [|[|[|]]]; [| | |lia]; destruct j as [|[|[|]]]; try lia; reflexivity.
Qed.

Lemma box_Permutation f k :
  (∀ d, 1 ≤ d ≤ 9 → occurrences d (boxValues f k) = 1) → seq 1 9 ≡ₚ boxValues f k.
Proof.
  intros Occ. apply submseteq_length_Permutation; [|by rewrite boxValues_length].
  apply NoDup_submseteq; [apply NoDup_seq|].
  intros d Hd. apply occurrences_elem, Occ. by apply nums_range.
Qed.

Lemma box_labels f k : seq 1 9 ≡ₚ boxValues f k → labels (boxValues f k).
Proof.
  intros P. split; [apply boxValues_length|]. split.
  - rewrite <- P. apply NoDup_seq.
  - intros d Hd. rewrite <- P in Hd. by apply nums_range.
Qed.

Lemma ti_ofNat n : n < 3 → ti (ofNat n) = n.
Proof. intros Hn. destruct n as [|[|[|]]]; simpl; lia. Qed.

Lemma at3_map {X} (g : X → tri) (l : list X) p x :
  l !! p = Some x → at3 (map g l) p = g x.
Proof.
  intros E. apply lookup_at3. by rewrite list_lookup_fmap, E.
Qed.

Lemma index_div a b : a < 3 → b < 3 → (3 * a + b) / 3 = a ∧ (3 * a + b) mod 3 = b.
Proof.
  intros Ha Hb. split; [by apply box_index|].
  rewrite Nat.add_comm, Nat.mul_comm, Nat.Div0.mod_add. by apply Nat.mod_small.
Qed.

(** The rows and columns of a complete box meet every pair of colours. *)
Lemma seed_Orth f σ k :
  seq 1 9 ≡ₚ σ → seq 1 9 ≡ₚ boxValues f k →
  length (rowsIn f σ k) = 9 ∧ length (colsIn f σ k) = 9 ∧
  Orth (rowsIn f σ k) (colsIn f σ k).
Proof.
  intros Pσ PV.
  assert (length σ = 9) as Lσ by by rewrite <- Pσ.
  split; [unfold rowsIn; by rewrite length_map|].
  split; [unfold colsIn; by rewrite length_map|].
  intros a b. pose proof (ti_lt a) as Ha. pose proof (ti_lt b) as Hb.
  pose proof (boxValues_lookup f k (ti a) (ti b) Ha Hb) as EV.
  set (d := f (3 * k + ti a) (3 * k + ti b)) in *.
  assert (d ∈ σ) as Hd.
  { rewrite <- Pσ, PV. apply list_elem_of_lookup. by eexists. }
  pose proof (locate_lookup d σ Hd) as Ep.
  assert (locate d (boxValues f k) = 3 * ti a + ti b) as Eq.
  { apply locate_NoDup; [|done]. rewrite <- PV. apply NoDup_seq. }
  destruct (index_div (ti a) (ti b) Ha Hb) as [E1 E2].
  exists (locate d σ). split; [apply lookup_lt_Some in Ep; lia|]. split.
  - unfold rowsIn. rewrite (at3_map _ _ _ _ Ep), Eq, E1. apply ofNat_ti.
  - unfold colsIn. rewrite (at3_map _ _ _ _ Ep), Eq, E2. apply ofNat_ti.
Qed.

(** In the grid of a layout that gives a diagonal box its own rows and
    columns, that box is as in [f]. *)
Lemma diagonal_box_kept f σ R C k a b :
  labels σ → seq 1 9 ≡ₚ σ → lawful R C → k < 3 →
  seq 1 9 ≡ₚ boxValues f k →
  R k k = rowsIn f σ k → C k k = colsIn f σ k → a < 3 → b < 3 →
  layoutGrid σ R C (3 * k + a) (3 * k + b) = f (3 * k + a) (3 * k + b).
Proof.
  intros Lab Pσ Law Hk PV ER EC Ha Hb.
  pose proof (boxValues_lookup f k a b Ha Hb) as EV.
  set (d := f (3 * k + a) (3 * k + b)) in *.
  assert (d ∈ σ) as Hd.
  { rewrite <- Pσ, PV. apply list_elem_of_lookup. by eexists. }
  pose proof (locate_lookup d σ Hd) as Ep.
  assert (locate d σ < 9) as Hp.
  { apply lookup_lt_Some in Ep. destruct Lab as (L & _). lia. }
  assert (locate d (boxValues f k) = 3 * a + b) as Eq.
  { apply locate_NoDup; [|done]. rewrite <- PV. apply NoDup_seq. }
  destruct (index_div a b Ha Hb) as [E1 E2].
  pose proof (layout_at σ R C k k (locate d σ) Law Hk Hk Hp) as Cell.
  rewrite ER, EC in Cell. unfold rowsIn, colsIn in Cell.
  rewrite !(at3_map _ _ _ _ Ep), Eq, E1, E2, !ti_ofNat in Cell by done.
  rewrite Cell. by apply nth_lookup_Some.
Qed.

Lemma locate_map {X Y} `{EqDecision X} (g : nat → Y) (σ : list X) :
  NoDup σ → map (λ d, g (locate d σ)) σ = map g (seq 0 (length σ)).
Proof.
  intros N. apply list_eq. intros p. rewrite !list_lookup_fmap.
  destruct (σ !! p) as [d|] eqn:E; simpl.
  - rewrite (locate_NoDup σ p d N E).
    rewrite lookup_seq_lt; [done|]. by apply lookup_lt_Some in E.
  - rewrite lookup_seq_ge; [done|]. by apply lookup_ge_None in E.
Qed.

Lemma first_box_colours f :
  seq 1 9 ≡ₚ boxValues f 0 →
  rowsIn f (boxValues f 0) 0 = rA ∧ colsIn f (boxValues f 0) 0 = cA.
Proof.
  intros P. assert (NoDup (boxValues f 0)) as N by (rewrite <- P; apply NoDup_seq).
  unfold rowsIn, colsIn. split.
  - rewrite (locate_map (λ q, ofNat (q / 3)) _ N). by rewrite boxValues_length.
  - rewrite (locate_map (λ q, ofNat (q mod 3)) _ N). by rewrite boxValues_length.
Qed.

(** *** The layout made of an arrangement *)

Lemma triple_distinct c u p :
  length c = 9 → Differs c u → p < 9 →
  at3 u p ≠ at3 c p ∧ at3 (thirdL c u) p ≠ at3 c p ∧ at3 (thirdL c u) p ≠ at3 u p.
Proof.
  intros Lc [Lu D] Hp. specialize (D p Hp).
  rewrite at3_thirdL by lia.
  destruct (third_neq (at3 c p) (at3 u p)) as [N1 N2]; [congruence|]. done.
Qed.

Lemma arrangement_lawful rB cB rC cC r01 c01 r21 c20 r12 c02 :
  length rB = 9 → length cB = 9 → length rC = 9 → length cC = 9 →
  Orth rB cB → Orth rC cC →
  Differs rA r01 → Differs cB c01 → Differs rC r21 →
  Differs cA c20 → Differs rB r12 → Differs cC c02 →
  Orth r01 c01 → Orth (thirdL cB c01) r21 → Orth (thirdL rC r21) c20 →
  Orth (thirdL rA r01) c02 → Orth (thirdL cC c02) r12 →
  Orth (thirdL rB r12) (thirdL cA c20) →
  lawful (layoutR rB rC r01 r21 r12) (layoutC cB cC c01 c20 c02).
Proof.
  intros LrB LcB LrC LcC OB OC D1 D2 D3 D4 D5 D6 O1 O2 O3 O4 O5 O6.
  pose proof D1 as [L1 _]. pose proof D2 as [L2 _]. pose proof D3 as [L3 _].
  pose proof D4 as [L4 _]. pose proof D5 as [L5 _]. pose proof D6 as [L6 _].
  assert (Orth rA cA) as OA.
  { intros a b. exists (3 * ti a + ti b). destruct a, b; simpl; split; (lia || done). }
  assert (length rA = 9) as LrA by done. assert (length cA = 9) as LcA by done.
  split; [|split].
  - intros I J HI HJ.
    destruct I as [|[|[|]]]; [| | |lia]; destruct J as [|[|[|]]]; try lia;
      cbn [layoutR layoutC]; rewrite ?thirdL_length by lia;
      (split; [done|]); (split; [done|]); first [done|by apply Orth_sym].
  - intros I J J' p HI HJ HJ' NJ Hp.
    pose proof (triple_distinct rA r01 p LrA D1 Hp) as (? & ? & ?).
    pose proof (triple_distinct rB r12 p LrB D5 Hp) as (? & ? & ?).
    pose proof (triple_distinct rC r21 p LrC D3 Hp) as (? & ? & ?).
    destruct I as [|[|[|]]]; [| | |lia]; destruct J as [|[|[|]]]; try lia;
      destruct J' as [|[|[|]]]; try lia; cbn [layoutR]; congruence.
  - intros I I' J p HI HI' HJ NI Hp.
    pose proof (triple_distinct cA c20 p LcA D4 Hp) as (? & ? & ?).
    pose proof (triple_distinct cB c01 p LcB D2 Hp) as (? & ? & ?).
    pose proof (triple_distinct cC c02 p LcC D6 Hp) as (? & ? & ?).
    destruct J as [|[|[|]]]; [| | |lia]; destruct I as [|[|[|]]]; try lia;
      destruct I' as [|[|[|]]]; try lia; cbn [layoutC]; congruence.
Qed.

(** *** Every seed can be completed *)

(** A grid whose three diagonal boxes hold each digit once and whose other
    cells are empty has a completion. *)
Theorem seed_completable (f : view) :
  (∀ k d, k < 3 → 1 ≤ d ≤ 9 → occurrences d (valuesAt f (boxCells k k)) = 1) →
  (∀ i j, i < 9 → j < 9 → ¬ onDiagonal i j → f i j = 0) →
  ∃ t, completion f t.
Proof.
  intros Occ Z.
  assert (∀ k, k < 3 → seq 1 9 ≡ₚ boxValues f k) as PV.
  { intros k Hk. apply box_Permutation. intros d Hd. by apply Occ. }
  set (σ := boxValues f 0).
  pose proof (PV 0 ltac:(lia)) as Pσ. fold σ in Pσ.
  pose proof (box_labels f 0 (PV 0 ltac:(lia))) as Lab. fold σ in Lab.
  destruct (seed_Orth f σ 1 Pσ (PV 1 ltac:(lia))) as (LrB & LcB & OB).
  destruct (seed_Orth f σ 2 Pσ (PV 2 ltac:(lia))) as (LrC & LcC & OC).
  destruct (Orth_balanced _ _ LrB LcB OB) as [BrB BcB].
  destruct (Orth_balanced _ _ LrC LcC OC) as [BrC BcC].
  destruct (arrangement _ _ _ _ BrB BcB BrC BcC)
    as (r01 & c01 & r21 & c20 & r12 & c02 &
        D1 & D2 & D3 & D4 & D5 & D6 & O1 & O2 & O3 & O4 & O5 & O6).
  set (R := layoutR (rowsIn f σ 1) (rowsIn f σ 2) r01 r21 r12).
  set (C := layoutC (colsIn f σ 1) (colsIn f σ 2) c01 c20 c02).
  assert (lawful R C) as Law by by apply arrangement_lawful.
  exists (layoutGrid σ R C).
  destruct (layout_solution σ R C Law Lab) as (F & D & Cn).
  split; [done|]. split; [done|]. split; [done|].
  intros i j Hi Hj NZ.
  destruct (decide (i / 3 = j / 3)) as [On|Off]; [|by destruct NZ; apply Z].
  assert (∃ k a b, k < 3 ∧ a < 3 ∧ b < 3 ∧ i = 3 * k + a ∧ j = 3 * k + b)
    as (k & a & b & Hk & Ha & Hb & -> & ->).
  { exists (i / 3), (i mod 3), (j mod 3).
    pose proof (Nat.mod_upper_bound i 3). pose proof (Nat.mod_upper_bound j 3).
    pose proof (Nat.div_mod_eq i 3). pose proof (Nat.div_mod_eq j 3).
    assert (i / 3 < 3) by (apply Nat.Div0.div_lt_upper_bound; lia).
    repeat split; lia. }
  destruct (first_box_colours f (PV 0 ltac:(lia))) as [ErA EcA]. fold σ in ErA, EcA.
  apply diagonal_box_kept; try done.
  - by apply PV.
  - subst R. destruct k as [|[|[|]]]; [| | |lia]; cbn [layoutR]; done.
  - subst C. destruct k as [|[|[|]]]; [| | |lia]; cbn [layoutC]; done.
Qed.

(** * The generator returns *)

(** ** The search on a seed *)

(** What [fillDiagonal] makes of an empty board. *)
Lemma fillDiagonal_boxes {B} `{BoardLaws B} (b : B) draws b' rest :
  ok b → (∀ i j, i < 9 → j < 9 → rd b i j = 0) →
  fillDiagonal b draws = Some (b', rest) →
  ok b' ∧ consistent (rd b') ∧ digits (rd b') ∧
  (∀ k d, k < 3 → 1 ≤ d ≤ 9 →
     occurrences d (valuesAt (rd b') (boxCells k k)) = 1) ∧
  (∀ i j, i < 9 → j < 9 → ¬ onDiagonal i j → rd b' i j = 0).
Proof.
  intros Ok Z F.
  destruct (fillDiagonal_seed b draws b' rest Ok (empty_seed _ Z) F)
    as (Ok' & C & D & _).
  destruct (fillDiagonal_effect b draws b' rest Ok F) as (_ & Same & Dig).
  split; [done|]. split; [done|]. split; [done|]. split.
  - intros k d Hk Hd. apply unit_complete; [by apply boxCells_unit|done| |done].
    intros i j Hin. apply elem_of_boxCells in Hin as (a & c & Ha & Hc & -> & ->).
    apply Dig; [lia|lia|]. unfold onDiagonal. by rewrite !box_index.
  - intros i j Hi Hj N. rewrite Same by done. by apply Z.
Qed.

Lemma seed_solved {B} `{BoardExact B} (b : B) draws b' rest :
  ok b → (∀ i j, i < 9 → j < 9 → rd b i j = 0) →
  fillDiagonal b draws = Some (b', rest) →
  ok b' ∧ ∃ b'', solveBoard 82 b' = Some (true, b'') ∧
    isSolution (rd b'') ∧ extends (rd b') (rd b'').
Proof.
  intros Ok Z F.
  destruct (fillDiagonal_boxes b draws b' rest Ok Z F) as (Ok' & C & D & Occ & Off).
  split; [done|].
  destruct (seed_completable (rd b') Occ Off) as (t & Ft & Dt & Ct & E).
  destruct (solveBoard_finds t 82 Ft Dt Ct b' Ok') as [b'' S]; [|done|].
  { pose proof (zeros_le_81 (rd b')). lia. }
  exists b''. split; [done|]. by apply (solveBoard_solution 82 b').
Qed.

(** X19.  Whatever digits [fillDiagonal] has put into the three diagonal
    boxes of an empty board, [solveBoard] succeeds on the result: it
    returns [true] and leaves a solution that keeps the three boxes.  The
    search never reports a failure to [generateNewGame]. *)
Theorem solveBoard_completes_every_seed {B} `{BoardExact B} (b : B) draws b' rest :
  ok b → (∀ i j, i < 9 → j < 9 → rd b i j = 0) →
  fillDiagonal b draws = Some (b', rest) →
  ∃ b'', solveBoard 82 b' = Some (true, b'') ∧
    isSolution (rd b'') ∧ extends (rd b') (rd b'').
Proof. intros Ok Z F. by destruct (seed_solved b draws b' rest Ok Z F) as [_ ?]. Qed.

Lemma solveBoard_completes_every_seed_witness :
  ∃ g, solveBoard 82 seededGrid = Some (true, g) ∧
    isSolution (rd g) ∧ extends (rd seededGrid) (rd g).
Proof.
  apply (solveBoard_completes_every_seed emptyGrid sampleDraws seededGrid (seq 0 81)).
  - apply emptyGrid_ok.
  - intros i j _ _. apply emptyGrid_zero.
  - vm_compute. reflexivity.
Defined.

(** ** generateNewGame under a fair source *)

Lemma generateNewGame_fair (rnd : source) (d : jsval) (this : SudokuCSP) (h : heap) :
  fair rnd →
  ∃ n g this' h', ∀ m, n ≤ m →
    generateNewGame d (prefix rnd m) this h
    = Some (g, this', h', drawsFrom rnd n (m - n)).
Proof.
  intros Fair. destruct (newBoard h) as [b h1] eqn:N.
  pose proof N as N'.
  apply newBoard_spec in N' as (rows & Ok1 & _ & _ & Zero1).
  (* seeding *)
  destruct (fillDiagonal_fair (H0 := heapLaws b rows) rnd Fair h1 Ok1) with (pos := 0)
    as (p1 & h2 & _ & Run1).
  { intros a c Ha Hc _. by apply Zero1. }
  pose proof (Run1 p1 ltac:(lia)) as F1.
  (* search *)
  destruct (seed_solved (H1 := heapExact b rows) h1 _ h2 _ Ok1 Zero1 F1)
    as (Ok2 & h3 & S & Sol & _).
  destruct (heap_solve_frame b rows 82 h2 true h3 Ok2 S) as [Ok3 _].
  (* copy *)
  destruct (copyBoard_spec h3 b rows Ok3)
    as (s & h4 & rowsS & CB & OkS & FreshS & OldS & Copy).
  assert (∀ l, l = b ∨ l ∈ rows → h4 !! l = h3 !! l) as Same.
  { intros l Hl.
    assert (h3 !! l ≠ None) as NN.
    { destruct Ok3 as (Hb & _ & _ & _ & Rows).
      destruct Hl as [->|Hl]; [by rewrite Hb|].
      destruct (Rows l Hl) as (ns & E & _). by rewrite E. }
    apply OldS.
    - intros ->. apply NN, FreshS. by left.
    - intros Hin. apply NN, FreshS. by right. }
  pose proof (boardAt_frame h3 h4 b rows Ok3 Same) as Ok4.
  assert (zeros (heapRd b h4) = 0) as Z4.
  { rewrite (zeros_ext _ (heapRd b h3)).
    - apply full_zeros. by destruct Sol.
    - intros i j. by apply (heapRd_frame h3 h4 b rows). }
  (* removal *)
  destruct (removeDigits_fair (H0 := heapLaws b rows) rnd Fair
              (attemptsFor (defaultMedium d)) h4 Ok4) with (pos := p1)
    as (p2 & h5 & Le & Run2).
  { change (attemptsFor (defaultMedium d) + zeros (heapRd b h4) ≤ 81).
    pose proof (attemptsFor_range (defaultMedium d)). lia. }
  exists p2, {| initial := b; solution := s |},
    {| this_size := this_size this; this_board := b; this_solution := Some s |}, h5.
  intros m Hm. unfold generateNewGame. rewrite N.
  cbn [this_board this_size this_solution].
  rewrite prefix_drawsFrom, Run1 by lia. cbn [mbind option_bind].
  change callDepth with 82. rewrite S. cbn [mbind option_bind].
  rewrite CB. cbn [mbind option_bind this_board this_size this_solution].
  rewrite Run2 by lia. cbn [mbind option_bind].
  do 3 f_equal. lia.
Qed.

(** X20.  With a source of draws in which every value keeps coming,
    [generateNewGame] returns, whatever the difficulty, the generator and
    the heap: from some number of draws on, the call has one and the same
    result and leaves the draws it did not use. *)
Theorem generateNewGame_returns (rnd : source) (d : jsval) (this : SudokuCSP) (h : heap) :
  fair rnd →
  ∃ n g this' h', ∀ m, n ≤ m →
    generateNewGame d (prefix rnd m) this h
    = Some (g, this', h', drawsFrom rnd n (m - n)).
Proof. apply generateNewGame_fair. Qed.


Lemma generateNewGame_returns_witness :
  ∃ n g this' h', ∀ m, n ≤ m →
    generateNewGame (JStr "Hard") (prefix countingSource m) freshGenerator freshHeap
    = Some (g, this', h', drawsFrom countingSource n (m - n)).
Proof.
  apply (generateNewGame_returns countingSource (JStr "Hard") freshGenerator freshHeap).
  exact countingSource_fair.
Defined.

(** ** startNewGame under a fair source *)

(** X21.  With such a source the "New Game" action of the page completes:
    [startNewGame] returns a controller state, whatever the state and the
    heap it starts from, and leaves the draws it did not use. *)
Theorem startNewGame_returns (rnd : source) timerId (app : App) (h : heap) :
  fair rnd →
  ∃ n app' h' ups, ∀ m, n ≤ m →
    startNewGame (prefix rnd m) timerId app h
    = Some (app', h', drawsFrom rnd n (m - n), ups).
Proof.
  intros Fair.
  destruct (generateNewGame_fair rnd JUndefined (csp app) h Fair)
    as (n & g & csp' & h1 & Run).
  destruct (generateNewGame_run _ _ _ _ _ _ _ _ (Run n ltac:(lia)))
    as (rowsB & rowsS & _ & OkB & _).
  destruct (copyBoard_spec h1 (initial g) rowsB OkB)
    as (ib & h2 & rowsI & C1 & OkI & _).
  destruct (copyBoard_spec h2 ib rowsI OkI) as (cb & h3 & rowsC & C2 & _).
  eexists n, _, h3, _. intros m Hm. unfold startNewGame.
  rewrite (Run m Hm). cbn [mbind option_bind].
  rewrite C1. cbn [mbind option_bind]. rewrite C2. cbn [mbind option_bind].
  cbv beta iota zeta delta [startTimer]. reflexivity.
Qed.

Lemma startNewGame_returns_witness :
  ∃ n app' h' ups, ∀ m, n ≤ m →
    startNewGame (prefix countingSource m) 1 (newApp ∅).1 (newApp ∅).2
    = Some (app', h', drawsFrom countingSource n (m - n), ups).
Proof.
  apply (startNewGame_returns countingSource 1 (newApp ∅).1 (newApp ∅).2).
  exact countingSource_fair.
Defined.
